(** * Hyperscanning: IPU segmentation and conversational metadata

    A shallow embedding of the two algorithmic modules of the repository,

    - [hyper/annotations/palign_core.py]  (module [PalignCore] below), and
    - [hyper/preprocessing/metadata.py]   (modules [Metadata],
      [MakeMetadata], [PartnerPath] and [MetadataEvents] below),

    and of the command that drives the first one,

    - [hyper/cli/commands/palign_to_ipu.py]  (module [PalignToIpuCli]),

    together with the properties of their documented behaviour.

    Number model.  A finite Python float is the rational number it
    denotes ([Q]); the order tests of the source ([<], [<=], [>], [>=],
    [==]) are the order and the equality [==] of [Q].

    In [palign_core.py] the times are compared, copied, and combined by
    [max] and [min]; the two differences it takes ([s - prev_end],
    [e - s]) are compared with a threshold as exact differences.

    In [metadata.py] the arithmetic on the cells of the tables is
    binary64 arithmetic: a sum, a difference or a product is the exact
    result rounded to the nearest binary64 number, a tie to the one with
    an even significand, and an infinity on overflow (module [Binary64]).
    The type [fval] adds [NaN] and the infinities, with the IEEE rules
    for comparison. *)

From Stdlib Require Import List String Ascii Bool ZArith QArith Qminmax Qabs Qround.
From Stdlib Require Import Qpower DecimalString Lia Lqa.
From Stdlib Require Import Permutation.
Import ListNotations.

Local Open Scope string_scope.
Local Open Scope list_scope.
Local Open Scope Q_scope.

(** ** Python exceptions and results *)

Inductive exn : Type :=
| ValueError (msg : string)
| RuntimeError (msg : string)
| IndexError (msg : string).

Inductive result (A : Type) : Type :=
| Ok (a : A)
| Raise (e : exn).
Arguments Ok {A} a.
Arguments Raise {A} e.

Definition bind {A B : Type} (r : result A) (k : A -> result B) : result B :=
  match r with
  | Ok a => k a
  | Raise e => Raise e
  end.

Notation "'do' x <- r ; k" := (bind r (fun x => k))
  (at level 10, x name, r at level 100, k at level 200).

(** ** Order tests on rationals, as booleans *)

Definition Qltb (x y : Q) : bool :=
  match x ?= y with Lt => true | _ => false end.

Definition Qleb (x y : Q) : bool :=
  match x ?= y with Gt => false | _ => true end.

(** ** Strings: the fragment of [str] the source uses *)

Module Str.

(** ASCII characters for which [str.isspace] holds. *)
Definition is_space (c : ascii) : bool :=
  let n := nat_of_ascii c in
  ((9 <=? n) && (n <=? 13) || (28 <=? n) && (n <=? 32))%nat.

Fixpoint lstrip (s : string) : string :=
  match s with
  | String c s' => if is_space c then lstrip s' else s
  | EmptyString => EmptyString
  end.

Fixpoint rev_onto (s acc : string) : string :=
  match s with
  | String c s' => rev_onto s' (String c acc)
  | EmptyString => acc
  end.

Definition rev (s : string) : string := rev_onto s EmptyString.

Definition rstrip (s : string) : string := rev (lstrip (rev s)).

(** [s.strip()] *)
Definition strip (s : string) : string := rstrip (lstrip s).

Definition lower_char (c : ascii) : ascii :=
  let n := nat_of_ascii c in
  if ((65 <=? n) && (n <=? 90))%nat then ascii_of_nat (n + 32) else c.

(** [s.lower()] on ASCII text *)
Fixpoint lower (s : string) : string :=
  match s with
  | String c s' => String (lower_char c) (lower s')
  | EmptyString => EmptyString
  end.

(** [repr(s)] of a text without quotes or control characters: the text
    between single quotes, each backslash doubled. *)
Fixpoint escape (s : string) : string :=
  match s with
  | String c s' =>
      if Ascii.eqb c "092"%char then String c (String c (escape s'))
      else String c (escape s')
  | EmptyString => EmptyString
  end.

Definition repr (s : string) : string := "'" ++ escape s ++ "'".

(** [repr] of a list of such texts, as an f-string prints it. *)
Definition repr_list (l : list string) : string :=
  "[" ++ String.concat ", " (map repr l) ++ "]".

(** [sorted(l)] on texts: insertion in code-point order. *)
Fixpoint insert_sorted (x : string) (l : list string) : list string :=
  match l with
  | [] => [x]
  | y :: l' => if String.leb x y then x :: l else y :: insert_sorted x l'
  end.

Definition sorted (l : list string) : list string :=
  fold_right insert_sorted [] l.

(** [sub in s] *)
Fixpoint contains (sub s : string) : bool :=
  String.prefix sub s
  || match s with
     | String _ s' => contains sub s'
     | EmptyString => false
     end.

(** [str(z)] and [int(s)] for a decimal numeral. *)
Definition of_Z (z : Z) : string := NilZero.string_of_int (Z.to_int z).

Definition to_Z (s : string) : option Z :=
  option_map Z.of_int (NilZero.int_of_string s).

Fixpoint zeros (n : nat) : string :=
  match n with
  | O => EmptyString
  | S n' => String "0" (zeros n')
  end.

(** [s.zfill(width)]: zeros are put after a leading sign. *)
Definition zfill (width : nat) (s : string) : string :=
  let pad := zeros (width - String.length s) in
  match s with
  | String c s' =>
      if Ascii.eqb c "-" || Ascii.eqb c "+" then String c (pad ++ s')
      else pad ++ s
  | EmptyString => pad
  end.

End Str.

(** ** Regular expressions: the fragment of [re] the filename pattern uses

    A pattern is a sequence of items: one character of a class, a greedy
    star over a class, and the two parentheses of a capture group.  Matching
    is by backtracking with the priorities of [re]: a star first takes as
    much as it can, and [search] returns the match at the leftmost start.
    A text is its sequence of bytes.  On ASCII text the bytes are the
    characters and [\d] is one of [0] to [9]; on other text [re] also takes
    the digits of other scripts for [\d], which is outside this fragment:
    the statements about the pattern are about ASCII texts. *)

Module Re.

Inductive cls : Type :=
| Chr (c : ascii)
| Digit
| Dot.

Definition is_digit (c : ascii) : bool :=
  let n := nat_of_ascii c in ((48 <=? n) && (n <=? 57))%nat.

Definition accepts (k : cls) (c : ascii) : bool :=
  match k with
  | Chr c' => Ascii.eqb c c'
  | Digit => is_digit c
  | Dot => negb (Ascii.eqb c "010"%char)
  end.

Inductive item : Type :=
| One (k : cls)
| Star (k : cls)
| Open
| Close.

(** Capture state: the groups closed so far, last first, and the text read
    so far by the group that is open. *)
Record caps : Type := mkCaps {
  closed : list string;
  opened : option string
}.

Definition push (st : caps) (c : ascii) : caps :=
  match opened st with
  | Some g => mkCaps (closed st) (Some (g ++ String c EmptyString)%string)
  | None => st
  end.

Definition open_group (st : caps) : caps := mkCaps (closed st) (Some EmptyString).

Definition close_group (st : caps) : caps :=
  match opened st with
  | Some g => mkCaps (g :: closed st) None
  | None => st
  end.

Definition Cont : Type := string -> caps -> option (list string).

Fixpoint star (k : cls) (cont : Cont) (s : string) (st : caps)
    : option (list string) :=
  match s with
  | String c s' =>
      if accepts k c then
        match star k cont s' (push st c) with
        | Some r => Some r
        | None => cont s st
        end
      else cont s st
  | EmptyString => cont s st
  end.

Fixpoint match_here (p : list item) : Cont :=
  match p with
  | [] => fun _ st => Some (rev (closed st))
  | One k :: p' =>
      fun s st =>
        match s with
        | String c s' => if accepts k c then match_here p' s' (push st c) else None
        | EmptyString => None
        end
  | Star k :: p' => star k (match_here p')
  | Open :: p' => fun s st => match_here p' s (open_group st)
  | Close :: p' => fun s st => match_here p' s (close_group st)
  end.

(** [re.search(p, s)]: the groups of the first match, [None] without one. *)
Fixpoint search (p : list item) (s : string) : option (list string) :=
  match match_here p s (mkCaps [] None) with
  | Some groups => Some groups
  | None =>
      match s with
      | String _ s' => search p s'
      | EmptyString => None
      end
  end.

(** A text whose characters are all of one class, and the capture state
    after reading it. *)
Fixpoint all_accept (k : cls) (s : string) : bool :=
  match s with
  | String c s' => accepts k c && all_accept k s'
  | EmptyString => true
  end.

Fixpoint push_all (st : caps) (s : string) : caps :=
  match s with
  | String c s' => push_all (push st c) s'
  | EmptyString => st
  end.

Definition lit (s : string) : list item :=
  map (fun c => One (Chr c)) (list_ascii_of_string s).

(** A pattern: its source text and the items it compiles to. *)
Record Pattern : Type := mkPattern {
  source : string;
  items : list item
}.

End Re.


(** * [hyper/annotations/palign_core.py] *)

Module PalignCore.

Definition DEFAULT_MIN_IPU_S : Q := 1 # 100.
Definition DEFAULT_MIN_SILENCE_S : Q := 20 # 100.
Definition SILENCE_LABEL : string := "#".
Definition IPU_LABEL : string := "IPU".

(** [@dataclass Interval] *)
Record Interval : Type := mkInterval {
  start : Q;
  end_ : Q;
  text : string
}.

Definition duration (itv : Interval) : Q := end_ itv - start itv.

(** A segment [(start, end)]. *)
Definition Segment : Type := (Q * Q)%type.

Definition _is_token_in_ipu (token : string)
    (include_laughter include_noise include_filled_pause : bool) : bool :=
  let t := Str.strip token in
  if (t =? EmptyString)%string then false
  else if (t =? SILENCE_LABEL)%string then false
  else if (t =? "@")%string then include_laughter
  else if (t =? "*")%string then include_noise
  else if (Str.lower t =? "fp")%string then include_filled_pause
  else true.

(** *** First pass of [build_ipu_segments_from_tokens]

    The loop state is the triple of the source:
    [raw_segments], [current_start], [current_end]. *)

Record ScanState : Type := mkScan {
  raw_segments : list Segment;
  current_start : option Q;
  current_end : option Q
}.

Definition scan_init : ScanState := mkScan [] None None.

Definition scan_step (in_ipu : string -> bool) (st : ScanState) (itv : Interval)
    : ScanState :=
  if in_ipu (text itv) then
    match current_start st with
    | None => mkScan (raw_segments st) (Some (start itv)) (Some (end_ itv))
    | Some _ =>
        (* [current_end] is set whenever [current_start] is *)
        mkScan (raw_segments st) (current_start st)
               (match current_end st with
                | Some ce => Some (Qmax ce (end_ itv))
                | None => Some (end_ itv)
                end)
    end
  else
    match current_start st, current_end st with
    | Some cs, Some ce => mkScan (raw_segments st ++ [(cs, ce)]) None None
    | _, _ => st
    end.

Definition scan_flush (st : ScanState) : list Segment :=
  match current_start st, current_end st with
  | Some cs, Some ce => raw_segments st ++ [(cs, ce)]
  | _, _ => raw_segments st
  end.

Definition raw_runs (in_ipu : string -> bool) (tokens : list Interval)
    : list Segment :=
  scan_flush (fold_left (scan_step in_ipu) tokens scan_init).

(** *** Second pass: merge runs separated by less than [min_silence_s]

    [merged] is the list being built; its last element is rewritten in
    place ([merged[-1] = ...]) or a new element is appended. *)

Definition merge_step (min_silence_s : Q) (merged : list Segment) (seg : Segment)
    : list Segment :=
  let '(start, end_) := seg in
  let '(prev_start, prev_end) := last merged (0, 0) in
  let gap := start - prev_end in
  if Qltb gap min_silence_s
  then removelast merged ++ [(prev_start, Qmax prev_end end_)]
  else merged ++ [(start, end_)].

Definition merge_pass (min_silence_s : Q) (raw : list Segment) : list Segment :=
  match raw with
  | [] => []
  | first :: rest => fold_left (merge_step min_silence_s) rest [first]
  end.

Definition build_ipu_segments_from_tokens (tokens : list Interval)
    (include_laughter include_noise include_filled_pause : bool)
    (min_silence_s : Q) : result (list Segment) :=
  if Qltb min_silence_s 0 then Raise (ValueError "min_silence_s must be >= 0")
  else
    let in_ipu t :=
      _is_token_in_ipu t include_laughter include_noise include_filled_pause in
    Ok (merge_pass min_silence_s (raw_runs in_ipu tokens)).

(** *** [apply_min_ipu_and_render_full_tier] *)

(** The first loop: malformed and too short segments are skipped, the others
    are clamped to the timeline and appended to [kept]. *)
Definition keep_clamped (t_start t_end min_ipu_s : Q) (ipu_segments : list Segment)
    : list Segment :=
  flat_map
    (fun '(s, e) =>
       if Qleb e s then []
       else if Qleb min_ipu_s (e - s) then [(Qmax t_start s, Qmin t_end e)]
       else [])
    ipu_segments.

(** [kept = [(s, e) for s, e in kept if e > s]] *)
Definition keep_positive (kept : list Segment) : list Segment :=
  filter (fun '(s, e) => Qltb s e) kept.

(** The rendering loop; its state is [(out, cursor)]. *)
Definition render_step (ipu_label silence_label : string)
    (st : list Interval * Q) (seg : Segment) : list Interval * Q :=
  let '(out, cursor) := st in
  let '(s, e) := seg in
  let out1 := if Qltb cursor s
              then out ++ [mkInterval cursor s silence_label]
              else out in
  (out1 ++ [mkInterval s e ipu_label], e).

Definition render_tail (silence_label : string) (t_end : Q)
    (st : list Interval * Q) : list Interval :=
  let '(out, cursor) := st in
  if Qltb cursor t_end
  then out ++ [mkInterval cursor t_end silence_label]
  else out.

(** [out = [itv for itv in out if itv.end > itv.start]] *)
Definition drop_empty (out : list Interval) : list Interval :=
  filter (fun itv => Qltb (start itv) (end_ itv)) out.

Definition apply_min_ipu_and_render_full_tier (t_start t_end : Q)
    (ipu_segments : list Segment) (min_ipu_s : Q)
    (ipu_label silence_label : string) : result (list Interval) :=
  if Qltb t_end t_start then Raise (ValueError "t_end must be >= t_start")
  else if Qltb min_ipu_s 0 then Raise (ValueError "min_ipu_s must be >= 0")
  else
    let kept := keep_positive (keep_clamped t_start t_end min_ipu_s ipu_segments) in
    let st := fold_left (render_step ipu_label silence_label) kept ([], t_start) in
    Ok (drop_empty (render_tail silence_label t_end st)).

End PalignCore.

(** * [hyper/preprocessing/metadata.py] *)

(** ** Float cells of a pandas table

    A float cell is finite, [NaN] or an infinity; comparison with [NaN] is
    false, as in IEEE 754.  A finite cell holds a binary64 number; the
    definitions take any rational there, and round what they compute. *)

Inductive fval : Type :=
| Num (q : Q)
| NaN
| PInf
| NInf.

(** ** Binary64 arithmetic

    The result of an operation on finite numbers is the exact result,
    rounded: to the nearest multiple of the unit in the last place of the
    exact result, a tie to the even multiple. *)

Module Binary64.

(** [np.rint]: to the nearest integer, a tie to the even one. *)
Definition rint (q : Q) : Z :=
  let f := Qfloor q in
  match Qcompare (q - inject_Z f) (1 # 2) with
  | Lt => f
  | Gt => (f + 1)%Z
  | Eq => if Z.even f then f else (f + 1)%Z
  end.

(** [2^k], for any integer [k] *)
Definition pow2 (k : Z) : Q := 2 ^ k.

(** [floor(log2 q)] for [q > 0] *)
Definition ilog2 (q : Q) : Z :=
  let e := (Z.log2 (Qnum q) - Z.log2 (Zpos (Qden q)))%Z in
  if Qleb (pow2 e) q then e else (e - 1)%Z.

(** The exponent of the unit in the last place of a positive number: 53
    bits of precision, and no exponent below that of the subnormal
    numbers. *)
Definition ulp_exp (q : Q) : Z := Z.max (ilog2 q - 52) (-1074).

(** The multiple of the unit in the last place nearest to a positive
    number, a tie to the even multiple. *)
Definition nearest_pos (q : Q) : Q :=
  let c := ulp_exp q in
  inject_Z (rint (q * pow2 (- c))) * pow2 c.

Definition nearest (q : Q) : Q :=
  match q ?= 0 with
  | Eq => 0
  | Gt => nearest_pos q
  | Lt => - nearest_pos (- q)
  end.

(** Rounding to binary64: what reaches [2^1024] overflows. *)
Definition round (q : Q) : fval :=
  let r := nearest q in
  if Qleb (pow2 1024) r then PInf
  else if Qleb r (- pow2 1024) then NInf
  else Num (Qred r).

(** The binary64 numbers: an integer of at most 53 bits times a power of
    two that is not below the least subnormal number, short of [2^1024]. *)
Definition representable (q : Q) : Prop :=
  exists m c : Z,
    (Z.abs m < 2 ^ 53)%Z /\ (-1074 <= c)%Z
    /\ q == inject_Z m * pow2 c /\ Qabs q < pow2 1024.

End Binary64.

Module F.

Definition isnan (x : fval) : bool :=
  match x with NaN => true | _ => false end.

(** [x <= y] *)
Definition le (x y : fval) : bool :=
  match x, y with
  | NaN, _ | _, NaN => false
  | NInf, _ | _, PInf => true
  | Num a, Num b => Qleb a b
  | _, _ => false
  end.

(** [x < y] *)
Definition lt (x y : fval) : bool :=
  match x, y with
  | NaN, _ | _, NaN => false
  | PInf, _ | _, NInf => false
  | Num a, Num b => Qltb a b
  | _, _ => true
  end.

Definition neg (x : fval) : fval :=
  match x with
  | Num a => Num (- a)
  | NaN => NaN
  | PInf => NInf
  | NInf => PInf
  end.

Definition add (x y : fval) : fval :=
  match x, y with
  | NaN, _ | _, NaN => NaN
  | PInf, NInf | NInf, PInf => NaN
  | PInf, _ | _, PInf => PInf
  | NInf, _ | _, NInf => NInf
  | Num a, Num b => Binary64.round (a + b)
  end.

Definition sub (x y : fval) : fval := add x (neg y).

Definition abs (x : fval) : fval :=
  match x with
  | Num a => Num (Qabs a)
  | NaN => NaN
  | PInf | NInf => PInf
  end.

(** [np.rint] of a float: an infinity and [NaN] stay as they are. *)
Definition rint (x : fval) : fval :=
  match x with
  | Num a => Num (inject_Z (Binary64.rint a))
  | _ => x
  end.

End F.

Module Metadata.

Export Binary64.

Definition DEFAULT_MARGIN_S : fval := Num 1.
Definition PLACEHOLDER_ANNOTATION : string := "#".
Definition COLUMN_LIST : list string := ["duration"; "n_syllables"; "rate"].

Inductive TimeLock : Type := onset | offset.
Inductive Anchor : Type := self | other.

Definition anchor_name (a : Anchor) : string :=
  match a with self => "self" | other => "other" end.

(** *** Alignment of two cleaned IPU tables

    A cleaned IPU table (a result of [_clean_and_prefix_ipu]) is embedded
    as the list of its rows in table order, a row being the record of the
    required columns.  The three feature columns carry the prefix of the
    speaker the table belongs to ([self_rate] in the self table,
    [other_rate] in the other one); the record field is the same for both.
    Index labels are unique, so the label [idxmin] returns denotes the
    first row of [match] at the minimum: labels are embedded as positions
    in [match]. *)

Record IpuRow : Type := mkIpuRow {
  start : fval;
  end_ : fval;
  annotation : string;
  duration : fval;
  n_syllables : fval;
  rate : fval
}.

(** [row[origin_col]], with [origin_col = "start" if time_lock == "onset" else "end"] *)
Definition origin_col (time_lock : TimeLock) (row : IpuRow) : fval :=
  match time_lock with onset => start row | offset => end_ row end.

(** [ref[target_col]], with [target_col = "end" if time_lock == "onset" else "start"] *)
Definition target_col (time_lock : TimeLock) (row : IpuRow) : fval :=
  match time_lock with onset => end_ row | offset => start row end.

Definition partner_prefix (anchor : Anchor) : string :=
  match anchor with self => "other" | other => "self" end.

Definition out_cols (anchor : Anchor) : list string :=
  map (fun c => (partner_prefix anchor ++ "_" ++ c)%string) COLUMN_LIST ++ ["latency"].

(** [row[f"{partner_prefix}_{col}"]] for [col] in [COLUMN_LIST]. *)
Definition features (row : IpuRow) : list fval :=
  [duration row; n_syllables row; rate row].

(** A [pd.Series]: values with their index labels. *)
Definition Series : Type := list (string * fval).

(** The mask [(origin_t - margin_s <= ref[target_col]) & (ref[target_col] < origin_t + margin_s)]
    at a row of [ref], and [ref.loc[mask]]. *)
Definition in_window (time_lock : TimeLock) (margin_s origin_t : fval)
    (r : IpuRow) : bool :=
  F.le (F.sub origin_t margin_s) (target_col time_lock r)
  && F.lt (target_col time_lock r) (F.add origin_t margin_s).

Definition window_rows (time_lock : TimeLock) (margin_s origin_t : fval)
    (ref : list IpuRow) : list IpuRow :=
  filter (in_window time_lock margin_s origin_t) ref.

(** An entry of [(origin_t - match[target_col]).abs()] *)
Definition distance (time_lock : TimeLock) (origin_t : fval) (r : IpuRow) : fval :=
  F.abs (F.sub origin_t (target_col time_lock r)).

(** [Series.idxmin()]: the position of the first minimum, [NaN] skipped. *)
Definition below (x best : fval) : bool :=
  match best with
  | NaN => negb (F.isnan x)
  | _ => F.lt x best
  end.

Fixpoint idxmin_from (best_i : nat) (best : fval) (i : nat) (l : list fval) : nat :=
  match l with
  | [] => best_i
  | x :: l' =>
      if below x best then idxmin_from i x (S i) l'
      else idxmin_from best_i best (S i) l'
  end.

Definition idxmin (l : list fval) : nat :=
  match l with
  | [] => 0%nat
  | x :: l' => idxmin_from 0 x 1 l'
  end.

Definition _find_adjacent (time_lock : TimeLock) (anchor : Anchor)
    (margin_s : fval) (row : IpuRow) (ref : list IpuRow) : Series :=
  let origin_t := origin_col time_lock row in
  let match_ := window_rows time_lock margin_s origin_t ref in
  match match_ with
  | [] => combine (out_cols anchor) (repeat NaN (List.length (out_cols anchor)))
  | first :: _ =>
      let diffs := map (distance time_lock origin_t) match_ in
      let best_idx := idxmin diffs in
      let best := nth best_idx match_ first in
      let values := features best ++ [F.sub origin_t (target_col time_lock best)] in
      combine (out_cols anchor) values
  end.

(** A row of [base_out]: the anchor row and the columns [out_cols] added to it. *)
Record CombinedRow : Type := mkCombined {
  anchor_row : IpuRow;
  added : Series
}.

Definition _combine_annotations (self_df other_df : list IpuRow)
    (time_lock : TimeLock) (anchor : Anchor) (margin_s : fval)
    : list CombinedRow :=
  let base_df := match anchor with self => self_df | other => other_df end in
  let ref_df := match anchor with self => other_df | other => self_df end in
  map (fun row => mkCombined row (_find_adjacent time_lock anchor margin_s row ref_df))
      base_df.

(** *** Tables with named columns

    [_clean_and_prefix_ipu] and [metadata_df_to_mne_events] first test
    which columns a table has: there a [pd.DataFrame] is its column labels
    and its rows of cells.  A cell is a float or a text. *)

Inductive cell : Type :=
| CFloat (x : fval)
| CStr (s : string).

Record DataFrame : Type := mkFrame {
  columns : list string;
  rows : list (list cell)
}.

(** [c in df.columns] *)
Definition has_column (c : string) (cols : list string) : bool :=
  existsb (String.eqb c) cols.

Fixpoint position (c : string) (cols : list string) : nat :=
  match cols with
  | [] => 0%nat
  | c' :: cols' => if String.eqb c c' then 0%nat else S (position c cols')
  end.

(** The cell of a row in column [c] (a column that is present). *)
Definition at_column (df : DataFrame) (c : string) (row : list cell) : cell :=
  nth (position c (columns df)) row (CFloat NaN).

(** [df[c]] *)
Definition column (df : DataFrame) (c : string) : list cell :=
  map (at_column df c) (rows df).

Definition is_placeholder (c : cell) : bool :=
  match c with
  | CStr s => String.eqb s PLACEHOLDER_ANNOTATION
  | CFloat _ => false
  end.

Definition required_cols : list string :=
  ["start"; "end"; "annotation"] ++ COLUMN_LIST.

Definition _clean_and_prefix_ipu (ipu : DataFrame) (speaker : Anchor)
    : result DataFrame :=
  let missing :=
    Str.sorted (filter (fun c => negb (has_column c (columns ipu))) required_cols) in
  match missing with
  | _ :: _ =>
      Raise (ValueError (anchor_name speaker
                           ++ " IPU table missing required columns: "
                           ++ Str.repr_list missing))
  | [] =>
      let ipu_clean :=
        filter (fun row => negb (is_placeholder (at_column ipu "annotation" row)))
               (rows ipu) in
      let rename c :=
        if has_column c COLUMN_LIST then (anchor_name speaker ++ "_" ++ c)%string
        else c in
      Ok (mkFrame (map rename (columns ipu)) ipu_clean)
  end.

(** *** Partner inference

    [ipu_path] enters through [ipu_path.stem]. *)

(** [run-(\d+)] *)
Definition run_part : list Re.item :=
  Re.lit "run-" ++ [Re.Open; Re.One Re.Digit; Re.Star Re.Digit; Re.Close].

Definition DEFAULT_IPU_FILENAME_PATTERN : Re.Pattern :=
  Re.mkPattern "sub-(\d{3}).*run-(\d+)"
    (Re.lit "sub-"
     ++ [Re.Open; Re.One Re.Digit; Re.One Re.Digit; Re.One Re.Digit; Re.Close]
     ++ [Re.Star Re.Dot]
     ++ run_part).

(** [match.group(i)] for [i >= 1] *)
Definition group (groups : list string) (i : nat) : result string :=
  match nth_error groups (i - 1) with
  | Some g => Ok g
  | None => Raise (IndexError "no such group")
  end.

(** [int(s)] *)
Definition py_int (s : string) : result Z :=
  match Str.to_Z s with
  | Some z => Ok z
  | None =>
      Raise (ValueError ("invalid literal for int() with base 10: " ++ Str.repr s))
  end.

Definition infer_partner_id_and_run_from_ipu_path (stem : string)
    (pattern : Re.Pattern) : result (string * string) :=
  match Re.search (Re.items pattern) stem with
  | None =>
      Raise (RuntimeError ("IPU filename must match pattern "
                             ++ Str.repr (Re.source pattern)
                             ++ ", got stem=" ++ Str.repr stem))
  | Some groups =>
      do g1 <- group groups 1;
      do g2 <- group groups 2;
      do self_id_int <- py_int g1;
      let run := g2 in
      let other_id_int :=
        if (self_id_int mod 2 =? 0)%Z then (self_id_int - 1)%Z
        else (self_id_int + 1)%Z in
      let other_id := Str.zfill 3 (Str.of_Z other_id_int) in
      Ok (other_id, run)
  end.

(** *** Events *)

Definition INT64_MIN : Z := (- 2 ^ 63)%Z.
Definition INT64_MAX : Z := (2 ^ 63 - 1)%Z.

Definition in_int64 (z : Z) : bool := ((INT64_MIN <=? z) && (z <=? INT64_MAX))%Z.

(** Addition of [int64] values wraps around. *)
Definition wrap64 (z : Z) : Z := ((z + 2 ^ 63) mod 2 ^ 64 - 2 ^ 63)%Z.

(** [a[np.isfinite(a)]]: the finite entries, in order. *)
Definition finite_values (l : list fval) : list Q :=
  flat_map (fun x => match x with Num q => [q] | _ => [] end) l.

Section Events.

(** What [pd.to_numeric(..., errors="coerce")] makes of a text cell: the
    number it spells, [NaN] when it spells none. *)
Variable str_to_float : string -> fval.

(** What [astype(int)] makes of a float that is no integer of [int64], an
    infinity or a number out of range: the value depends on the
    platform. *)
Variable cast_out_of_range : fval -> Z.

Definition to_numeric (c : cell) : fval :=
  match c with
  | CFloat x => x
  | CStr s => str_to_float s
  end.

(** [astype(int)] drops the fraction. *)
Definition astype_int (x : fval) : Z :=
  match x with
  | Num q =>
      let z := if Qltb q 0 then Qceiling q else Qfloor q in
      if in_int64 z then z else cast_out_of_range x
  | _ => cast_out_of_range x
  end.

(** [timestamps_s * float(sfreq_hz)] at one timestamp: the product of two
    finite floats, rounded. *)
Definition scaled (sfreq_hz t : Q) : fval := Binary64.round (t * sfreq_hz).

Definition sample_of (sfreq_hz : Q) (first_samp : Z) (t : Q) : Z :=
  wrap64 (astype_int (F.rint (scaled sfreq_hz t)) + first_samp).

Definition metadata_df_to_mne_events (metadata_df : DataFrame)
    (sfreq_hz : Q) (first_samp : Z) (timestamp_col : string) (event_id : Z)
    : result (list (Z * Z * Z)) :=
  if negb (has_column timestamp_col (columns metadata_df)) then
    Raise (ValueError ("metadata_df must contain column "
                         ++ Str.repr timestamp_col
                         ++ ". Found: " ++ Str.repr_list (columns metadata_df)))
  else
    let timestamps_s := map to_numeric (column metadata_df timestamp_col) in
    let timestamps_s := finite_values timestamps_s in
    let samples := map (sample_of sfreq_hz first_samp) timestamps_s in
    Ok (map (fun smp => (smp, 0%Z, event_id)) samples).

End Events.

End Metadata.

(** * Statements and example data

    Properties named in the statements below, and the concrete tables the
    examples evaluate the code on. *)

Module Examples.

Import Metadata.

Definition ipu (s e : Q) (label : string) (d n r : Q) : IpuRow :=
  mkIpuRow (Num s) (Num e) label (Num d) (Num n) (Num r).

(** The float a decimal literal such as [0.005] denotes: the binary64
    number nearest to it. *)
Definition float_literal (q : Q) : Q :=
  match Binary64.round q with
  | Num r => r
  | _ => 0
  end.

(** An anchor starting at 1 s and a partner ending at 0 s: with a margin
    of 1 s the partner's target is exactly [origin - margin_s]. *)
Definition boundary_anchor : IpuRow := ipu 1 2 "a" 1 3 3.
Definition boundary_partner : IpuRow := ipu (-1) 0 "b" 1 2 2.

(** "A partner row whose target time is exactly [origin - margin_s] is
    excluded from the candidate window." *)
Definition lower_bound_excluded (time_lock : TimeLock) (margin_s : fval)
    (anchor : IpuRow) (ref : list IpuRow) : Prop :=
  forall r : IpuRow,
    In r ref ->
    target_col time_lock r = F.sub (origin_col time_lock anchor) margin_s ->
    ~ In r (window_rows time_lock margin_s (origin_col time_lock anchor) ref).

Definition no_nan (l : list fval) : Prop :=
  Forall (fun x => F.isnan x = false) l.

(** An anchor starting at 1 s; of the partner rows ending at 0.5 s and at
    1.5 s, both 0.5 s away, the first comes first in the table. *)
Definition tie_anchor : IpuRow := ipu 1 2 "a" 1 3 3.
Definition tie_ref : list IpuRow :=
  [ ipu 0 0 "p" 1 1 10; ipu 0 2 "q" 1 1 20;
    ipu 0 (1 # 2) "r" 1 1 30; ipu 0 (3 # 2) "s" 1 1 40 ].

(** An anchor starting at the float 0.5 and partner rows ending at the
    floats 0.77 and 0.23. *)
Definition float_tie_anchor : IpuRow := ipu (float_literal (1 # 2)) 1 "a" 1 3 3.
Definition float_tie_ref : list IpuRow :=
  [ ipu 0 (float_literal (77 # 100)) "p" 1 1 10;
    ipu 0 (float_literal (23 # 100)) "q" 1 1 20 ].

(** Rounding to the nearest integer, a tie away from zero. *)
Definition round_half_away (q : Q) : Z :=
  if Qleb 0 q then Qfloor (q + (1 # 2)) else (- Qfloor (- q + (1 # 2)))%Z.

(** A table of one finite timestamp, 0.125 s: at 100 Hz it falls at
    sample 12.5. *)
Definition half_sample_df : DataFrame :=
  mkFrame ["timestamp"] [[CFloat (Num (1 # 8))]].

(** An IPU table without the [rate] column. *)
Definition no_rate_df : DataFrame :=
  mkFrame ["start"; "end"; "annotation"; "duration"; "n_syllables"]
          [[CFloat (Num 0); CFloat (Num 1); CStr "a"; CFloat (Num 1); CFloat (Num 3)]].

(** "The message lists the full set of columns actually present." *)
Definition lists_present_columns (msg : string) (df : DataFrame) : bool :=
  forallb (fun c => Str.contains (Str.repr c) msg) (columns df).

(** The partner of a subject number: the even and the odd one of a pair. *)
Definition partner_of (n : Z) : Z :=
  if Z.even n then (n - 1)%Z else (n + 1)%Z.

(** [s.isascii()]: every character of the text is below 128. *)
Fixpoint is_ascii (s : string) : bool :=
  match s with
  | String c s' => (nat_of_ascii c <? 128)%nat && is_ascii s'
  | EmptyString => true
  end.

Definition three_digits (s : string) : Prop :=
  exists c1 c2 c3 : ascii,
    s = String c1 (String c2 (String c3 EmptyString))
    /\ Re.is_digit c1 = true /\ Re.is_digit c2 = true /\ Re.is_digit c3 = true.

(** The text has no character [c]. *)
Fixpoint without_char (c : ascii) (s : string) : bool :=
  match s with
  | String c' s' => negb (Ascii.eqb c' c) && without_char c s'
  | EmptyString => true
  end.

Definition starts_with_digit (s : string) : bool :=
  match s with
  | String c _ => Re.is_digit c
  | EmptyString => false
  end.

(** The partner identifier of subject [k] has three characters and reads
    back as the partner's number. *)
Definition partner_id_reads_back (k : nat) : bool :=
  let other_id := Str.zfill 3 (Str.of_Z (partner_of (Z.of_nat k))) in
  (String.length other_id =? 3)%nat
  && match Str.to_Z other_id with
     | Some m => (m =? partner_of (Z.of_nat k))%Z
     | None => false
     end.

Definition no_text_number : string -> fval := fun _ => NaN.
Definition cast_int64_min : fval -> Z := fun _ => INT64_MIN.

(** A table of the timestamps 0.005 s and 0.155 s: at 100 Hz the float
    products are 0.5 and 15.5. *)
Definition rounded_product_df : DataFrame :=
  mkFrame ["timestamp"]
          [[CFloat (Num (float_literal (5 # 1000)))];
           [CFloat (Num (float_literal (155 # 1000)))]].

End Examples.

(** ** Segments and tiers: recursive readings of the loops, and the
    properties the statements are about *)

Module Tiers.

Import PalignCore.

(** The second pass, read as a recursion on the runs still to come, with the
    last element of [merged] as an argument. *)
Fixpoint merge_from (min_silence_s : Q) (prev : Segment) (rest : list Segment)
    : list Segment :=
  match rest with
  | [] => [prev]
  | (s, e) :: rest' =>
      if Qltb (s - snd prev) min_silence_s
      then merge_from min_silence_s (fst prev, Qmax (snd prev) e) rest'
      else prev :: merge_from min_silence_s (s, e) rest'
  end.

(** Each segment starts at least [gap] after the end of the one before. *)
Fixpoint gapped (gap : Q) (l : list Segment) : Prop :=
  match l with
  | a :: (b :: _) as tl => gap <= fst b - snd a /\ gapped gap tl
  | _ => True
  end.

(** Segments in time order by [(start, end)]. *)
Fixpoint time_ordered (l : list Segment) : Prop :=
  match l with
  | a :: (b :: _) as tl =>
      (fst a < fst b \/ (fst a == fst b /\ snd a <= snd b)) /\ time_ordered tl
  | _ => True
  end.

(** No segment starts before the end of the one before it. *)
Fixpoint nonoverlapping (l : list Segment) : Prop :=
  match l with
  | a :: (b :: _) as tl => snd a <= fst b /\ nonoverlapping tl
  | _ => True
  end.

(** From the bound [c] on: each segment starts at or after [c], and at or
    after the start and the end of the one before. *)
Fixpoint clear_from (c : Q) (l : list Segment) : Prop :=
  match l with
  | [] => True
  | (s, e) :: tl => c <= s /\ clear_from (Qmax s e) tl
  end.

(** The segments kept for rendering: inside the timeline, of positive
    length, none starting before the cursor [c] or the end of the one
    before. *)
Fixpoint tiled_from (c t_end : Q) (kept : list Segment) : Prop :=
  match kept with
  | [] => True
  | (s, e) :: tl => c <= s /\ s < e /\ e <= t_end /\ tiled_from e t_end tl
  end.

(** The rendering loop and the trailing silence, read as a recursion on the
    kept segments with the cursor as an argument. *)
Fixpoint render_from (ipu_label silence_label : string) (t_end cursor : Q)
    (kept : list Segment) : list Interval :=
  match kept with
  | [] =>
      if Qltb cursor t_end then [mkInterval cursor t_end silence_label] else []
  | (s, e) :: tl =>
      (if Qltb cursor s then [mkInterval cursor s silence_label] else [])
      ++ mkInterval s e ipu_label
         :: render_from ipu_label silence_label t_end e tl
  end.

(** The tier invariant, in its parts. *)
Definition positive (tier : list Interval) : Prop :=
  forall itv, In itv tier -> start itv < end_ itv.

Definition chained (tier : list Interval) : Prop :=
  forall (i : nat) (a b : Interval),
    nth_error tier i = Some a -> nth_error tier (S i) = Some b ->
    end_ a == start b.

Definition spans (t_start t_end : Q) (tier : list Interval) : Prop :=
  match tier with
  | [] => True
  | first :: _ => start first == t_start /\ end_ (last tier first) == t_end
  end.

Definition tier_invariant (t_start t_end : Q) (tier : list Interval) : Prop :=
  positive tier /\ chained tier /\ spans t_start t_end tier.

(** The same invariant, by recursion from a cursor. *)
Fixpoint tier_from (c t_end : Q) (tier : list Interval) : Prop :=
  match tier with
  | [] => c == t_end
  | itv :: tl =>
      start itv == c /\ start itv < end_ itv /\ tier_from (end_ itv) t_end tl
  end.

(** Tokens and segments that do not end before they start, and the state
    of the first pass over such tokens. *)
Definition well_formed (tokens : list Interval) : Prop :=
  Forall (fun itv => start itv <= end_ itv) tokens.

Definition forward (l : list Segment) : Prop :=
  Forall (fun seg : Segment => fst seg <= snd seg) l.

Definition scan_forward (st : ScanState) : Prop :=
  forward (raw_segments st)
  /\ match current_start st, current_end st with
     | Some cs, Some ce => cs <= ce
     | None, None => True
     | _, _ => False
     end.

(** Two segments in time order that overlap. *)
Definition overlapping_segments : list Segment := [(0, 5); (3, 8)].

(** Tokens of the unit test: two words around a short silence. *)
Definition two_words : list Interval :=
  [ mkInterval 0 (1 # 2) "a"; mkInterval (1 # 2) (6 # 10) "#";
    mkInterval (6 # 10) 1 "b" ].

End Tiers.

(** ** Runs of tokens: a recursive reading of the first pass, and what the
    further statements about segments and tiers are about *)

Module Runs.

Import PalignCore.

(** The two optional halves of the open run, as one optional segment. *)
Definition open_run (st : ScanState) : option Segment :=
  match current_start st, current_end st with
  | Some cs, Some ce => Some (cs, ce)
  | _, _ => None
  end.

(** [current_start] and [current_end] are set and reset together. *)
Definition consistent (st : ScanState) : Prop :=
  match current_start st, current_end st with
  | Some _, None | None, Some _ => False
  | _, _ => True
  end.

(** The first pass and its final flush, read as a recursion on the tokens
    still to come, with the open run as an argument. *)
Fixpoint runs_from (in_ipu : string -> bool) (cur : option Segment)
    (tokens : list Interval) : list Segment :=
  match tokens with
  | [] => match cur with Some seg => [seg] | None => [] end
  | itv :: tl =>
      if in_ipu (text itv) then
        match cur with
        | None => runs_from in_ipu (Some (start itv, end_ itv)) tl
        | Some (cs, ce) => runs_from in_ipu (Some (cs, Qmax ce (end_ itv))) tl
        end
      else
        match cur with
        | Some seg => seg :: runs_from in_ipu None tl
        | None => runs_from in_ipu None tl
        end
  end.

(** The tokens that count as speech. *)
Definition speech (in_ipu : string -> bool) (tokens : list Interval)
    : list Interval :=
  filter (fun itv => in_ipu (text itv)) tokens.

(** Tokens in time order by their start. *)
Fixpoint by_start (tokens : list Interval) : Prop :=
  match tokens with
  | a :: (b :: _) as tl => start a <= start b /\ by_start tl
  | _ => True
  end.

(** Segments in order of their start. *)
Fixpoint starts_sorted (l : list Segment) : Prop :=
  match l with
  | a :: (b :: _) as tl => fst a <= fst b /\ starts_sorted tl
  | _ => True
  end.

(** The segment spans the token. *)
Definition covers (seg : Segment) (itv : Interval) : Prop :=
  fst seg <= start itv /\ end_ itv <= snd seg.

(** The membership test with the flags of a call. *)
Definition in_ipu_with (include_laughter include_noise include_filled_pause : bool)
    : string -> bool :=
  fun t => _is_token_in_ipu t include_laughter include_noise include_filled_pause.

(** A text of white space only. *)
Fixpoint all_space (s : string) : bool :=
  match s with
  | String c s' => Str.is_space c && all_space s'
  | EmptyString => true
  end.

(** The number of intervals of a tier with a given label. *)
Definition count_label (label : string) (tier : list Interval) : nat :=
  List.length (filter (fun itv => String.eqb (text itv) label) tier).

(** A silence interval is followed by an IPU interval. *)
Fixpoint silence_then_ipu (ipu_label silence_label : string)
    (tier : list Interval) : Prop :=
  match tier with
  | a :: (b :: _) as tl =>
      (text a = silence_label -> text b = ipu_label)
      /\ silence_then_ipu ipu_label silence_label tl
  | _ => True
  end.

(** What [apply_min_ipu_and_render_full_tier] keeps of the segments. *)
Definition kept_segments (t_start t_end min_ipu_s : Q) (ipu_segments : list Segment)
    : list Segment :=
  keep_positive (keep_clamped t_start t_end min_ipu_s ipu_segments).

End Runs.

(** * [hyper/cli/commands/palign_to_ipu.py]: [_parse_bool], the sorted
    tokens and [run] *)

Module PalignToIpuCli.

Definition TRUE_WORDS : list string := ["1"; "true"; "t"; "yes"; "y"; "on"].
Definition FALSE_WORDS : list string := ["0"; "false"; "f"; "no"; "n"; "off"].

Definition _parse_bool (text : string) : result bool :=
  let t := Str.lower (Str.strip text) in
  if existsb (String.eqb t) TRUE_WORDS then Ok true
  else if existsb (String.eqb t) FALSE_WORDS then Ok false
  else Raise (ValueError ("Invalid boolean value: " ++ Str.repr text
                            ++ " (expected true/false)")).

(** ** [run] and [_read_tokensalign_intervals] *)

Import PalignCore.

(** [PalignToIpuCliConfig], without the paths and the name of the tier. *)
Record PalignToIpuCliConfig : Type := mkConfig {
  include_laughter : bool;
  include_noise : bool;
  include_filled_pause : bool;
  min_ipu_s : Q;
  min_silence_s : Q
}.

(** The order of the sort keys [(x.start, x.end)]: tuples compare by the
    first components that differ. *)
Definition key_lt (a b : Interval) : bool :=
  if Qeq_bool (start a) (start b) then Qltb (end_ a) (end_ b)
  else Qltb (start a) (start b).

(** [tokens.sort(key=...)].  The sort is stable: a token goes before the
    first token already placed whose key is greater. *)
Fixpoint insert_token (x : Interval) (placed : list Interval) : list Interval :=
  match placed with
  | [] => [x]
  | y :: tl => if key_lt x y then x :: placed else y :: insert_token x tl
  end.

Definition sort_tokens (tokens : list Interval) : list Interval :=
  fold_left (fun placed x => insert_token x placed) tokens [].

(** What [_read_tokensalign_intervals] returns for a TextGrid with the time
    bounds [minTimestamp] and [maxTimestamp] whose tier has the entries
    [entries]. *)
Definition _read_tokensalign_intervals (minTimestamp maxTimestamp : Q)
    (entries : list Interval) : Q * Q * list Interval :=
  (minTimestamp, maxTimestamp, sort_tokens entries).

(** [run], from the tier it reads to the tier it writes. *)
Definition run (cfg : PalignToIpuCliConfig) (minTimestamp maxTimestamp : Q)
    (entries : list Interval) : result (list Interval) :=
  let '(t_start, t_end, tokens) :=
    _read_tokensalign_intervals minTimestamp maxTimestamp entries in
  do segments <- build_ipu_segments_from_tokens tokens
                   (include_laughter cfg) (include_noise cfg)
                   (include_filled_pause cfg) (min_silence_s cfg);
  apply_min_ipu_and_render_full_tier t_start t_end segments (min_ipu_s cfg)
    IPU_LABEL SILENCE_LABEL.

(** Tokens in the order of their keys. *)
Fixpoint by_key (tokens : list Interval) : Prop :=
  match tokens with
  | a :: (b :: _) as tl => key_lt b a = false /\ by_key tl
  | _ => True
  end.

(** A tier read out of order. *)
Definition shuffled_entries : list Interval :=
  [ mkInterval (6 # 10) 1 "b"; mkInterval 0 (1 # 2) "a";
    mkInterval (1 # 2) (6 # 10) "#" ].

Definition default_config : PalignToIpuCliConfig :=
  mkConfig false false true DEFAULT_MIN_IPU_S DEFAULT_MIN_SILENCE_S.

End PalignToIpuCli.

(** * [hyper/preprocessing/metadata.py]: validation, [make_metadata] and
    the partner path

    As in the alignment above, an IPU table that has the six required
    columns, floats but for the text [annotation], is the list of its rows.
    The metadata table is the list of its rows too: a row is the record of
    [timestamp], the three feature columns of each speaker, [latency] and
    [abs_diff]. *)

Module MakeMetadata.

Import Metadata.

(** [np.isfinite] *)
Definition isfinite (x : fval) : bool :=
  match x with Num _ => true | _ => false end.

(** [time_lock == "onset"] and [anchor == "self"], as the source branches on
    them once they are validated. *)
Definition time_lock_of (time_lock : string) : TimeLock :=
  if String.eqb time_lock "onset" then onset else offset.

Definition anchor_of (anchor : string) : Anchor :=
  if String.eqb anchor "self" then self else other.

(** The rows [_clean_and_prefix_ipu] keeps:
    [ipu.loc[ipu["annotation"] != PLACEHOLDER_ANNOTATION]]. *)
Definition clean_rows (ipu : list IpuRow) : list IpuRow :=
  filter (fun r => negb (String.eqb (annotation r) PLACEHOLDER_ANNOTATION)) ipu.

(** The table of the rows, with the required columns in the order of the
    tests' [_ipu_df]. *)
Definition row_cells (r : IpuRow) : list cell :=
  [ CFloat (start r); CFloat (end_ r); CStr (annotation r);
    CFloat (duration r); CFloat (n_syllables r); CFloat (rate r) ].

Definition ipu_frame (ipu : list IpuRow) : DataFrame :=
  mkFrame required_cols (map row_cells ipu).

(** [series[label]] *)
Fixpoint series_get (label : string) (s : Series) : fval :=
  match s with
  | [] => NaN
  | (l, v) :: s' => if String.eqb l label then v else series_get label s'
  end.

Record MetadataRow : Type := mkMetadataRow {
  timestamp : fval;
  self_duration : fval;
  self_n_syllables : fval;
  self_rate : fval;
  other_duration : fval;
  other_n_syllables : fval;
  other_rate : fval;
  latency : fval;
  abs_diff : fval
}.

(** [combined[f"{speaker}_{name}"]] at a row: a column of the anchor table
    when [speaker] is the anchor, a column added by [_combine_annotations]
    otherwise. *)
Definition combined_column (anchor speaker : Anchor) (name : string)
    (own : IpuRow -> fval) (c : CombinedRow) : fval :=
  match anchor, speaker with
  | self, self | other, other => own (anchor_row c)
  | _, _ => series_get (anchor_name speaker ++ "_" ++ name) (added c)
  end.

(** [anchor] tells which speaker's prefix the columns of the anchor table
    carry in [combined]. *)
Definition _finalize_combined_metadata (anchor : Anchor)
    (combined : list CombinedRow) (time_lock : TimeLock) : list MetadataRow :=
  map (fun c =>
         let s_rate := combined_column anchor self "rate" rate c in
         let o_rate := combined_column anchor other "rate" rate c in
         mkMetadataRow
           (origin_col time_lock (anchor_row c))
           (combined_column anchor self "duration" duration c)
           (combined_column anchor self "n_syllables" n_syllables c)
           s_rate
           (combined_column anchor other "duration" duration c)
           (combined_column anchor other "n_syllables" n_syllables c)
           o_rate
           (series_get "latency" (added c))
           (F.abs (F.sub s_rate o_rate)))
      combined.

(** The columns of a metadata row that come from the anchor row, and those
    that come from the partner. *)
Definition own_features (anchor : Anchor) (r : MetadataRow) : list fval :=
  match anchor with
  | self => [self_duration r; self_n_syllables r; self_rate r]
  | other => [other_duration r; other_n_syllables r; other_rate r]
  end.

Definition partner_features (anchor : Anchor) (r : MetadataRow) : list fval :=
  match anchor with
  | self => [other_duration r; other_n_syllables r; other_rate r]
  | other => [self_duration r; self_n_syllables r; self_rate r]
  end.

Section Validation.

(** [repr] of a float. *)
Variable float_repr : fval -> string.

Definition _validate_time_lock (time_lock : string) : result unit :=
  if negb (existsb (String.eqb time_lock) ["onset"; "offset"]) then
    Raise (ValueError ("time_lock must be 'onset' or 'offset', got: "
                         ++ Str.repr time_lock))
  else Ok tt.

Definition _validate_anchor (anchor : string) : result unit :=
  if negb (existsb (String.eqb anchor) ["self"; "other"]) then
    Raise (ValueError ("anchor must be 'self' or 'other', got: "
                         ++ Str.repr anchor))
  else Ok tt.

Definition _validate_margin (margin_s : fval) : result unit :=
  if negb (isfinite margin_s) || F.le margin_s (Num 0) then
    Raise (ValueError ("margin_s must be a finite positive number, got: "
                         ++ float_repr margin_s))
  else Ok tt.

Definition make_metadata (self_ipu other_ipu : list IpuRow)
    (time_lock anchor : string) (margin_s : fval) : result (list MetadataRow) :=
  do u1 <- _validate_time_lock time_lock;
  do u2 <- _validate_anchor anchor;
  do u3 <- _validate_margin margin_s;
  let self_clean := clean_rows self_ipu in
  let other_clean := clean_rows other_ipu in
  let combined :=
    _combine_annotations self_clean other_clean
      (time_lock_of time_lock) (anchor_of anchor) margin_s in
  Ok (_finalize_combined_metadata (anchor_of anchor) combined
        (time_lock_of time_lock)).

End Validation.

(** Two small tables, each with a placeholder row. *)
Definition test_self_ipu : list IpuRow :=
  [ mkIpuRow (Num 0) (Num (1 # 2)) "a" (Num (1 # 2)) (Num 2) (Num 4);
    mkIpuRow (Num (3 # 4)) (Num 1) "#" (Num (1 # 4)) (Num 0) (Num 0);
    mkIpuRow (Num 10) (Num 11) "b" (Num 1) (Num 3) (Num 6) ].

Definition test_other_ipu : list IpuRow :=
  [ mkIpuRow (Num (1 # 4)) (Num (3 # 4)) "x" (Num (1 # 2)) (Num 2) (Num 3);
    mkIpuRow (Num (7 # 8)) (Num 1) "#" (Num (1 # 8)) (Num 0) (Num 0) ].

Definition no_float_repr : fval -> string := fun _ => "?".

(** The metadata table with the two speakers exchanged. *)
Definition swap_speakers (r : MetadataRow) : MetadataRow :=
  mkMetadataRow (timestamp r)
    (other_duration r) (other_n_syllables r) (other_rate r)
    (self_duration r) (self_n_syllables r) (self_rate r)
    (latency r) (abs_diff r).

(** [make_metadata] of the two tables above, locked on the onset, anchored
    on self, with a margin of one second. *)
Definition matched_row : MetadataRow :=
  mkMetadataRow (Num 0) (Num (1 # 2)) (Num 2) (Num 4)
    (Num (1 # 2)) (Num 2) (Num 3) (Num (- 3 # 4)) (Num 1).

Definition test_metadata : list MetadataRow :=
  [ matched_row;
    mkMetadataRow (Num 10) (Num 1) (Num 3) (Num 6) NaN NaN NaN NaN NaN ].

End MakeMetadata.

(** * [hyper/preprocessing/metadata.py]: the partner path *)

Module PartnerPath.

Import Metadata.
Import Examples.

(** A path: its directory and its final component. *)
Record Path : Type := mkPath {
  parent : string;
  name : string
}.

(** [name.rfind(".")] *)
Fixpoint rfind_dot (s : string) : option nat :=
  match s with
  | EmptyString => None
  | String c s' =>
      match rfind_dot s' with
      | Some i => Some (S i)
      | None => if Ascii.eqb c "." then Some 0%nat else None
      end
  end.

(** [PurePath.stem]: the name up to its last dot, unless that dot is the
    first or the last character of the name. *)
Definition stem (p : Path) : string :=
  match rfind_dot (name p) with
  | Some i =>
      if ((0 <? i) && (i <? String.length (name p) - 1))%nat
      then String.substring 0 i (name p)
      else name p
  | None => name p
  end.

(** [self_ipu_path.parent / f"sub-{other_id}_run-{run}_ipu.csv"] *)
Definition infer_partner_ipu_path (self_ipu_path : Path) (pattern : Re.Pattern)
    : result Path :=
  do found <- infer_partner_id_and_run_from_ipu_path (stem self_ipu_path) pattern;
  let '(other_id, run) := found in
  Ok (mkPath (parent self_ipu_path)
             ("sub-" ++ other_id ++ "_run-" ++ run ++ "_ipu.csv")).

Definition three_digits_b (s : string) : bool :=
  match s with
  | String c1 (String c2 (String c3 EmptyString)) =>
      Re.is_digit c1 && Re.is_digit c2 && Re.is_digit c3
  | _ => false
  end.

(** The partner identifier of subject [k] is made of three digits. *)
Definition partner_id_has_three_digits (k : nat) : bool :=
  three_digits_b (Str.zfill 3 (Str.of_Z (partner_of (Z.of_nat k)))).

End PartnerPath.

(** * [hyper/preprocessing/metadata.py]: metadata and events together *)

Module MetadataEvents.

Import Metadata.
Import MakeMetadata.

(** The metadata table as a table with named columns.  For IPU tables with
    the six required columns in the order of [required_cols], the columns
    are the anchor table's, with [start] or [end] renamed [timestamp] and
    the other two timing columns dropped, then [out_cols], then
    [abs_diff]. *)
Definition metadata_columns (anchor : Anchor) : list string :=
  ["timestamp"]
  ++ map (fun c => (anchor_name anchor ++ "_" ++ c)%string) COLUMN_LIST
  ++ out_cols anchor
  ++ ["abs_diff"].

Definition metadata_cells (anchor : Anchor) (r : MetadataRow) : list cell :=
  map CFloat
      ([timestamp r] ++ own_features anchor r ++ partner_features anchor r
       ++ [latency r; abs_diff r]).

Definition metadata_frame (anchor : Anchor) (rows : list MetadataRow) : DataFrame :=
  mkFrame (metadata_columns anchor) (map (metadata_cells anchor) rows).

Section Events.

Variable float_repr : fval -> string.
Variable str_to_float : string -> fval.
Variable cast_out_of_range : fval -> Z.

(** [_build_events_from_raw_and_metadata], for a recording with the sampling
    frequency [sfreq] and the first sample [first_samp]. *)
Definition _build_events_from_raw_and_metadata (sfreq : Q) (first_samp : Z)
    (metadata_df : DataFrame) (event_id : Z) : result (list (Z * Z * Z)) :=
  metadata_df_to_mne_events str_to_float cast_out_of_range metadata_df
    sfreq first_samp "timestamp" event_id.

(** [make_metadata_and_events_from_self_ipu], from the two IPU tables read
    to the metadata table and the events written. *)
Definition make_metadata_and_events_from_self_ipu
    (self_ipu other_ipu : list IpuRow) (sfreq : Q) (first_samp : Z)
    (margin_s : fval) (time_lock anchor : string) (event_id : Z)
    : result (list MetadataRow * list (Z * Z * Z)) :=
  do df <- make_metadata float_repr self_ipu other_ipu time_lock anchor margin_s;
  do events <- _build_events_from_raw_and_metadata sfreq first_samp
                 (metadata_frame (anchor_of anchor) df) event_id;
  Ok (df, events).

End Events.

End MetadataEvents.

(** * Facts about the order tests *)

Lemma Qltb_lt (x y : Q) : Qltb x y = true <-> x < y.
Proof.
  unfold Qltb. rewrite Qlt_alt. destruct (x ?= y); split; congruence.
Qed.

Lemma Qltb_ge (x y : Q) : Qltb x y = false <-> y <= x.
Proof.
  unfold Qltb. rewrite Qle_alt.
  rewrite <- (Qcompare_antisym x y).
  destruct (x ?= y); simpl; split; congruence.
Qed.

Lemma Qleb_le (x y : Q) : Qleb x y = true <-> x <= y.
Proof.
  unfold Qleb. rewrite Qle_alt. destruct (x ?= y); split; congruence.
Qed.

Lemma Qleb_gt0 (x y : Q) : Qleb x y = false <-> y < x.
Proof.
  unfold Qleb. rewrite Qlt_alt, <- (Qcompare_antisym x y).
  destruct (x ?= y); simpl; split; congruence.
Qed.

(** Python's [max(a, b)] returns [a] unless [b > a]; [min(a, b)] returns [a]
    unless [b < a].  These are [Qmax] and [Qmin] of the library. *)

Lemma Qmax_py (a b : Q) : Qmax a b = if Qltb a b then b else a.
Proof.
  unfold Qmax, GenericMinMax.gmax, Qltb. destruct (a ?= b); reflexivity.
Qed.

Lemma Qmin_py (a b : Q) : Qmin a b = if Qltb b a then b else a.
Proof.
  unfold Qmin, GenericMinMax.gmin, Qltb.
  rewrite <- (Qcompare_antisym a b). destruct (a ?= b); reflexivity.
Qed.


(** * Facts about binary64 rounding *)

Module Binary64Facts.

Import Binary64.

(** ** Powers of two and the binary exponent *)

Lemma pow2_pos (k : Z) : 0 < pow2 k.
Proof. apply Qpower_0_lt. reflexivity. Qed.

Lemma pow2_add (a b : Z) : pow2 (a + b) == pow2 a * pow2 b.
Proof. apply Qpower_plus. discriminate. Qed.

Lemma pow2_le (a b : Z) : (a <= b)%Z -> pow2 a <= pow2 b.
Proof. intros H. apply Qpower_le_compat_l; [exact H | discriminate]. Qed.

Lemma pow2_lt (a b : Z) : (a < b)%Z -> pow2 a < pow2 b.
Proof. intros H. apply Qpower_lt_compat_l; [exact H | reflexivity]. Qed.

Lemma pow2_lt_inv (a b : Z) : pow2 a < pow2 b -> (a < b)%Z.
Proof. intros H. apply (Qpower_lt_compat_l_inv 2); [exact H | reflexivity]. Qed.

Lemma pow2_Z (k : Z) : (0 <= k)%Z -> pow2 k == inject_Z (2 ^ k).
Proof. intros H. rewrite Zpower_Qpower by exact H. reflexivity. Qed.

Lemma pow2_succ (k : Z) : pow2 (k + 1) == 2 * pow2 k.
Proof. rewrite pow2_add. change (pow2 1) with 2. ring. Qed.

(** [ilog2 q] is the binary exponent of [q]. *)
Lemma ilog2_spec (q : Q) :
  0 < q -> pow2 (ilog2 q) <= q /\ q < pow2 (ilog2 q + 1).
Proof.
  intros Hq. destruct q as [n d].
  assert (Hn : (0 < n)%Z).
  { unfold Qlt in Hq. simpl in Hq. lia. }
  unfold ilog2. cbn [Qnum Qden].
  set (a := Z.log2 n). set (b := Z.log2 (Zpos d)).
  destruct (Z.log2_spec n Hn) as [A1 A2]. fold a in A1, A2.
  destruct (Z.log2_spec (Zpos d) eq_refl) as [B1 B2]. fold b in B1, B2.
  assert (Ha : (0 <= a)%Z) by apply Z.log2_nonneg.
  assert (Hb : (0 <= b)%Z) by apply Z.log2_nonneg.
  assert (QA1 : pow2 a <= inject_Z n) by (rewrite pow2_Z by lia; rewrite <- Zle_Qle; exact A1).
  assert (QA2 : inject_Z n < pow2 (a + 1)).
  { rewrite pow2_Z by lia. rewrite <- Zlt_Qlt. replace (a + 1)%Z with (Z.succ a) by lia. exact A2. }
  assert (QB1 : pow2 b <= inject_Z (Zpos d)) by (rewrite pow2_Z by lia; rewrite <- Zle_Qle; exact B1).
  assert (QB2 : inject_Z (Zpos d) < pow2 (b + 1)).
  { rewrite pow2_Z by lia. rewrite <- Zlt_Qlt. replace (b + 1)%Z with (Z.succ b) by lia. exact B2. }
  assert (Hd : 0 < inject_Z (Zpos d)) by reflexivity.
  assert (E : n # d == inject_Z n / inject_Z (Zpos d)) by apply Qmake_Qdiv.
  assert (M : (n # d) * inject_Z (Zpos d) == inject_Z n).
  { rewrite E. field. intros K. rewrite K in Hd. discriminate Hd. }
  pose proof (pow2_pos b) as Pb. pose proof (pow2_pos (a - b)) as Pe.
  assert (Eab : pow2 a == pow2 (a - b) * pow2 b).
  { rewrite <- pow2_add. replace (a - b + b)%Z with a by lia. reflexivity. }
  assert (Eab1 : pow2 (a + 1) == pow2 (a - b + 1) * pow2 b).
  { rewrite <- pow2_add. replace (a - b + 1 + b)%Z with (a + 1)%Z by lia. reflexivity. }
  pose proof (pow2_succ b) as Sb. pose proof (pow2_succ (a - b)) as Se.
  assert (Sm : pow2 (a - b) == 2 * pow2 (a - b - 1)).
  { rewrite <- pow2_succ. replace (a - b - 1 + 1)%Z with (a - b)%Z by lia. reflexivity. }
  pose proof (pow2_pos (a - b - 1)) as Pm.
  (* upper: q < pow2 (a - b + 1) ; lower: pow2 (a - b - 1) <= q *)
  assert (U : n # d < pow2 (a - b + 1)).
  { apply Qmult_lt_r with (inject_Z (Zpos d)); [exact Hd|]. rewrite M.
    apply Qlt_le_trans with (pow2 (a + 1)); [exact QA2|]. rewrite Eab1.
    apply Qmult_le_l; [apply pow2_pos | exact QB1]. }
  assert (Lw : pow2 (a - b - 1) <= n # d).
  { apply Qmult_le_r with (inject_Z (Zpos d)); [exact Hd|]. rewrite M.
    apply Qle_trans with (pow2 a); [|exact QA1].
    rewrite Eab, Sm.
    apply Qle_trans with (pow2 (a - b - 1) * pow2 (b + 1)).
    - apply Qmult_le_l; [exact Pm | apply Qlt_le_weak; exact QB2].
    - rewrite Sb. apply Qle_lteq. right. ring. }
  destruct (Qleb (pow2 (a - b)) (n # d)) eqn:C.
  - apply Qleb_le in C. split; [exact C | exact U].
  - apply Qleb_gt0 in C. split; [exact Lw|].
    replace (a - b - 1 + 1)%Z with (a - b)%Z by lia. exact C.
Qed.

Lemma ilog2_unique (q : Q) (e : Z) :
  pow2 e <= q -> q < pow2 (e + 1) -> ilog2 q = e.
Proof.
  intros L U.
  assert (Hq : 0 < q) by (apply Qlt_le_trans with (pow2 e); [apply pow2_pos | exact L]).
  destruct (ilog2_spec q Hq) as [L' U'].
  assert (H1 : (e < ilog2 q + 1)%Z).
  { apply pow2_lt_inv. apply Qle_lt_trans with q; assumption. }
  assert (H2 : (ilog2 q < e + 1)%Z).
  { apply pow2_lt_inv. apply Qle_lt_trans with q; assumption. }
  lia.
Qed.

Lemma ilog2_comp (p q : Q) : 0 < p -> p == q -> ilog2 p = ilog2 q.
Proof.
  intros Hp E. destruct (ilog2_spec p Hp) as [L U].
  symmetry. apply ilog2_unique; rewrite <- E; assumption.
Qed.

Lemma ilog2_mono (p q : Q) : 0 < p -> p <= q -> (ilog2 p <= ilog2 q)%Z.
Proof.
  intros Hp L.
  assert (Hq : 0 < q) by (apply Qlt_le_trans with p; assumption).
  destruct (ilog2_spec p Hp) as [Lp _]. destruct (ilog2_spec q Hq) as [_ Uq].
  assert (H : (ilog2 p < ilog2 q + 1)%Z).
  { apply pow2_lt_inv. apply Qle_lt_trans with q; [|exact Uq].
    apply Qle_trans with p; assumption. }
  lia.
Qed.

(** ** Rounding to an integer *)

Lemma Qfloor_unique (q : Q) (f : Z) :
  inject_Z f <= q -> q < inject_Z (f + 1) -> Qfloor q = f.
Proof.
  intros H1 H2.
  pose proof (Qfloor_le q) as F1. pose proof (Qlt_floor q) as F2.
  assert (L1 : (Qfloor q < f + 1)%Z).
  { rewrite Zlt_Qlt. apply Qle_lt_trans with q; assumption. }
  assert (L2 : (f < Qfloor q + 1)%Z).
  { rewrite Zlt_Qlt. apply Qle_lt_trans with q; assumption. }
  lia.
Qed.

Lemma rint_nearest (q : Q) : Qabs (inject_Z (rint q) - q) <= 1 # 2.
Proof.
  pose proof (Qfloor_le q) as F1. pose proof (Qlt_floor q) as F2.
  rewrite inject_Z_plus in F2. change (inject_Z 1) with 1 in F2.
  apply Qabs_Qle_condition. unfold rint.
  destruct (Qcompare (q - inject_Z (Qfloor q)) (1 # 2)) eqn:C.
  - apply Qeq_alt in C.
    destruct (Z.even (Qfloor q));
      [|rewrite inject_Z_plus; change (inject_Z 1) with 1];
      revert F1 F2 C; generalize (inject_Z (Qfloor q)); intros f F1 F2 C; lra.
  - apply Qlt_alt in C.
    revert F1 F2 C; generalize (inject_Z (Qfloor q)); intros f F1 F2 C; lra.
  - apply Qgt_alt in C. rewrite inject_Z_plus. change (inject_Z 1) with 1.
    revert F1 F2 C; generalize (inject_Z (Qfloor q)); intros f F1 F2 C; lra.
Qed.

Lemma rint_comp (p q : Q) : p == q -> rint p = rint q.
Proof.
  intros E. unfold rint.
  rewrite (Qfloor_comp p q E).
  assert (C : Qcompare (p - inject_Z (Qfloor q)) (1 # 2)
              = Qcompare (q - inject_Z (Qfloor q)) (1 # 2)).
  { apply Qcompare_comp; [rewrite E; reflexivity | reflexivity]. }
  rewrite C. reflexivity.
Qed.

Lemma rint_mono (p q : Q) : p <= q -> (rint p <= rint q)%Z.
Proof.
  intros L.
  destruct (Z_le_gt_dec (rint p) (rint q)) as [H|H]; [exact H|].
  pose proof (rint_nearest p) as Np. pose proof (rint_nearest q) as Nq.
  apply Qabs_Qle_condition in Np. apply Qabs_Qle_condition in Nq.
  assert (G : inject_Z (rint q) + 1 <= inject_Z (rint p)).
  { change 1 with (inject_Z 1). rewrite <- inject_Z_plus. rewrite <- Zle_Qle. lia. }
  assert (E : p == q).
  { revert Np Nq G. generalize (inject_Z (rint p)) (inject_Z (rint q)).
    intros a b Np Nq G. lra. }
  rewrite (rint_comp p q E). lia.
Qed.

Lemma rint_integer (q : Q) (k : Z) : q == inject_Z k -> rint q = k.
Proof.
  intros E. rewrite (rint_comp q (inject_Z k) E).
  unfold rint. rewrite Qfloor_Z.
  assert (C : Qcompare (inject_Z k - inject_Z k) (1 # 2) = Lt).
  { rewrite <- Qlt_alt. generalize (inject_Z k). intros f. lra. }
  rewrite C. reflexivity.
Qed.

(** ** Rounding of positive numbers *)

Lemma pow2_scale (k c : Z) :
  (c <= k)%Z -> pow2 k * pow2 (- c) == inject_Z (2 ^ (k - c)).
Proof.
  intros H. rewrite <- pow2_add. rewrite <- pow2_Z by lia.
  replace (k + - c)%Z with (k - c)%Z by lia. reflexivity.
Qed.

Lemma pow2_unscale (k c : Z) :
  (c <= k)%Z -> inject_Z (2 ^ (k - c)) * pow2 c == pow2 k.
Proof.
  intros H. rewrite <- pow2_Z by lia. rewrite <- pow2_add.
  replace (k - c + c)%Z with k by lia. reflexivity.
Qed.

Lemma ulp_exp_low (q : Q) : (-1074 <= ulp_exp q)%Z.
Proof. unfold ulp_exp. lia. Qed.

Lemma ulp_exp_mono (p q : Q) : 0 < p -> p <= q -> (ulp_exp p <= ulp_exp q)%Z.
Proof.
  intros Hp L. unfold ulp_exp. pose proof (ilog2_mono p q Hp L). lia.
Qed.

Lemma ulp_exp_comp (p q : Q) : 0 < p -> p == q -> ulp_exp p = ulp_exp q.
Proof. intros Hp E. unfold ulp_exp. rewrite (ilog2_comp p q Hp E). reflexivity. Qed.

(** A power of two that the unit in the last place divides bounds the
    rounded value as it bounds the number. *)
Lemma nearest_pos_le_pow2 (x : Q) (k : Z) :
  x <= pow2 k -> (ulp_exp x <= k)%Z -> nearest_pos x <= pow2 k.
Proof.
  intros L Hc. unfold nearest_pos. set (c := ulp_exp x) in *.
  rewrite <- (pow2_unscale k c Hc).
  apply Qmult_le_compat_r; [|apply Qlt_le_weak; apply pow2_pos].
  rewrite <- Zle_Qle.
  rewrite <- (rint_integer (pow2 k * pow2 (- c)) (2 ^ (k - c))) by (apply pow2_scale; exact Hc).
  apply rint_mono.
  apply Qmult_le_compat_r; [exact L | apply Qlt_le_weak; apply pow2_pos].
Qed.

Lemma nearest_pos_ge_pow2 (y : Q) (k : Z) :
  pow2 k <= y -> (ulp_exp y <= k)%Z -> pow2 k <= nearest_pos y.
Proof.
  intros L Hc. unfold nearest_pos. set (c := ulp_exp y) in *.
  rewrite <- (pow2_unscale k c Hc).
  apply Qmult_le_compat_r; [|apply Qlt_le_weak; apply pow2_pos].
  rewrite <- Zle_Qle.
  rewrite <- (rint_integer (pow2 k * pow2 (- c)) (2 ^ (k - c))) by (apply pow2_scale; exact Hc).
  apply rint_mono.
  apply Qmult_le_compat_r; [exact L | apply Qlt_le_weak; apply pow2_pos].
Qed.

Lemma nearest_pos_nonneg (q : Q) : 0 <= q -> 0 <= nearest_pos q.
Proof.
  intros Hq. unfold nearest_pos.
  apply Qmult_le_0_compat; [|apply Qlt_le_weak; apply pow2_pos].
  change 0 with (inject_Z 0). rewrite <- Zle_Qle.
  rewrite <- (rint_integer 0 0) by reflexivity.
  apply rint_mono.
  apply Qmult_le_0_compat; [exact Hq | apply Qlt_le_weak; apply pow2_pos].
Qed.

Lemma nearest_pos_comp (p q : Q) : 0 < p -> p == q -> nearest_pos p == nearest_pos q.
Proof.
  intros Hp E. unfold nearest_pos. rewrite (ulp_exp_comp p q Hp E).
  rewrite (rint_comp (p * pow2 (- ulp_exp q)) (q * pow2 (- ulp_exp q)))
    by (rewrite E; reflexivity).
  reflexivity.
Qed.

Lemma nearest_pos_mono (x y : Q) : 0 < x -> x <= y -> nearest_pos x <= nearest_pos y.
Proof.
  intros Hx L.
  assert (Hy : 0 < y) by (apply Qlt_le_trans with x; assumption).
  pose proof (ulp_exp_mono x y Hx L) as Hc.
  destruct (Z.eq_dec (ulp_exp x) (ulp_exp y)) as [E|N].
  - unfold nearest_pos. rewrite E.
    apply Qmult_le_compat_r; [|apply Qlt_le_weak; apply pow2_pos].
    rewrite <- Zle_Qle. apply rint_mono.
    apply Qmult_le_compat_r; [exact L | apply Qlt_le_weak; apply pow2_pos].
  - assert (Hlt : (ulp_exp x < ulp_exp y)%Z) by lia.
    destruct (ilog2_spec x Hx) as [_ Ux]. destruct (ilog2_spec y Hy) as [Ly _].
    assert (Ey : ulp_exp y = (ilog2 y - 52)%Z).
    { pose proof (ulp_exp_low x). unfold ulp_exp in *. lia. }
    assert (Hxy : (ilog2 x + 1 <= ilog2 y)%Z).
    { unfold ulp_exp in *. lia. }
    apply Qle_trans with (pow2 (ilog2 y)).
    + apply nearest_pos_le_pow2; [|lia].
      apply Qle_trans with (pow2 (ilog2 x + 1));
        [apply Qlt_le_weak; exact Ux | apply pow2_le; exact Hxy].
    + apply nearest_pos_ge_pow2; [exact Ly | lia].
Qed.

(** ** Rounding of any number *)

Lemma nearest_pos_case (q : Q) : 0 < q -> nearest q = nearest_pos q.
Proof. intros H. unfold nearest. rewrite (proj1 (Qgt_alt q 0) H). reflexivity. Qed.

Lemma nearest_neg_case (q : Q) : q < 0 -> nearest q = - nearest_pos (- q).
Proof. intros H. unfold nearest. rewrite (proj1 (Qlt_alt q 0) H). reflexivity. Qed.

Lemma nearest_zero_case (q : Q) : q == 0 -> nearest q = 0.
Proof. intros H. unfold nearest. rewrite (proj1 (Qeq_alt q 0) H). reflexivity. Qed.

Lemma nearest_sign (q : Q) :
  (0 <= q -> 0 <= nearest q) /\ (q <= 0 -> nearest q <= 0).
Proof.
  destruct (Q_dec q 0) as [[H|H]|H].
  - rewrite (nearest_neg_case q H).
    assert (P : 0 <= nearest_pos (- q)) by (apply nearest_pos_nonneg; lra).
    split; intros; lra.
  - rewrite (nearest_pos_case q H).
    assert (P : 0 <= nearest_pos q) by (apply nearest_pos_nonneg; lra).
    split; intros; lra.
  - rewrite (nearest_zero_case q H). split; intros; lra.
Qed.

Lemma nearest_mono (x y : Q) : x <= y -> nearest x <= nearest y.
Proof.
  intros L.
  destruct (Q_dec x 0) as [[Hx|Hx]|Hx].
  - destruct (Qlt_le_dec y 0) as [Hy|Hy].
    + rewrite (nearest_neg_case x Hx), (nearest_neg_case y Hy).
      assert (M : nearest_pos (- y) <= nearest_pos (- x))
        by (apply nearest_pos_mono; lra).
      lra.
    + apply Qle_trans with 0.
      * apply (proj2 (nearest_sign x)). lra.
      * apply (proj1 (nearest_sign y)). exact Hy.
  - assert (Hy : 0 < y) by lra.
    rewrite (nearest_pos_case x Hx), (nearest_pos_case y Hy).
    apply nearest_pos_mono; assumption.
  - rewrite (nearest_zero_case x Hx). apply (proj1 (nearest_sign y)). lra.
Qed.

Lemma nearest_comp (p q : Q) : p == q -> nearest p == nearest q.
Proof.
  intros E. apply Qle_antisym; apply nearest_mono; rewrite E; apply Qle_refl.
Qed.

Lemma nearest_opp (q : Q) : nearest (- q) == - nearest q.
Proof.
  destruct (Q_dec q 0) as [[H|H]|H].
  - rewrite (nearest_neg_case q H).
    rewrite (nearest_pos_case (- q)) by lra. ring.
  - rewrite (nearest_pos_case q H).
    rewrite (nearest_neg_case (- q)) by lra.
    rewrite (nearest_pos_comp (- - q) q) by (try ring; lra). reflexivity.
  - rewrite (nearest_zero_case q H).
    rewrite (nearest_zero_case (- q)) by lra. reflexivity.
Qed.

Lemma Qleb_comp (a b c d : Q) : a == c -> b == d -> Qleb a b = Qleb c d.
Proof. intros E1 E2. unfold Qleb. rewrite (Qcompare_comp a c E1 b d E2). reflexivity. Qed.

Lemma round_of_nearest (p q : Q) : nearest p == nearest q -> round p = round q.
Proof.
  intros E. unfold round. cbv zeta.
  rewrite (Qleb_comp (pow2 1024) (nearest p) (pow2 1024) (nearest q)) by (try reflexivity; exact E).
  rewrite (Qleb_comp (nearest p) (- pow2 1024) (nearest q) (- pow2 1024)) by (try reflexivity; exact E).
  rewrite (Qred_complete _ _ E). reflexivity.
Qed.

(** Numbers that are equal round to the same value. *)
Lemma round_comp (p q : Q) : p == q -> round p = round q.
Proof. intros E. apply round_of_nearest. apply nearest_comp. exact E. Qed.

Lemma round_not_nan (q : Q) : F.isnan (round q) = false.
Proof.
  unfold round. cbv zeta.
  destruct (Qleb (pow2 1024) (nearest q)); [reflexivity|].
  destruct (Qleb (nearest q) (- pow2 1024)); reflexivity.
Qed.

(** Rounding keeps the order. *)
Lemma round_mono (x y : Q) : x <= y -> F.le (round x) (round y) = true.
Proof.
  intros L. pose proof (nearest_mono x y L) as M.
  pose proof (pow2_pos 1024) as P.
  unfold round. cbv zeta.
  destruct (Qleb (pow2 1024) (nearest x)) eqn:X1.
  - apply Qleb_le in X1.
    assert (Y1 : Qleb (pow2 1024) (nearest y) = true) by (apply Qleb_le; lra).
    rewrite Y1. reflexivity.
  - apply Qleb_gt0 in X1.
    destruct (Qleb (nearest x) (- pow2 1024)) eqn:X2.
    + destruct (Qleb (pow2 1024) (nearest y)); [reflexivity|].
      destruct (Qleb (nearest y) (- pow2 1024)); reflexivity.
    + apply Qleb_gt0 in X2.
      destruct (Qleb (pow2 1024) (nearest y)) eqn:Y1; [reflexivity|].
      assert (Y2 : Qleb (nearest y) (- pow2 1024) = false) by (apply Qleb_gt0; lra).
      rewrite Y2. simpl. apply Qleb_le. rewrite !Qred_correct. exact M.
Qed.

Lemma round_opp (q : Q) : round (- q) = F.neg (round q).
Proof.
  pose proof (nearest_opp q) as E. pose proof (pow2_pos 1024) as P.
  unfold round. cbv zeta.
  rewrite (Qleb_comp (pow2 1024) (nearest (- q)) (pow2 1024) (- nearest q)) by (try reflexivity; exact E).
  rewrite (Qleb_comp (nearest (- q)) (- pow2 1024) (- nearest q) (- pow2 1024)) by (try reflexivity; exact E).
  rewrite (Qred_complete _ _ E), Qred_opp.
  destruct (Qleb (pow2 1024) (nearest q)) eqn:A.
  - apply Qleb_le in A.
    assert (B1 : Qleb (pow2 1024) (- nearest q) = false) by (apply Qleb_gt0; lra).
    assert (B2 : Qleb (- nearest q) (- pow2 1024) = true) by (apply Qleb_le; lra).
    rewrite B1, B2. reflexivity.
  - apply Qleb_gt0 in A.
    destruct (Qleb (nearest q) (- pow2 1024)) eqn:C.
    + apply Qleb_le in C.
      assert (B1 : Qleb (pow2 1024) (- nearest q) = true) by (apply Qleb_le; lra).
      rewrite B1. reflexivity.
    + apply Qleb_gt0 in C.
      assert (B1 : Qleb (pow2 1024) (- nearest q) = false) by (apply Qleb_gt0; lra).
      assert (B2 : Qleb (- nearest q) (- pow2 1024) = false) by (apply Qleb_gt0; lra).
      rewrite B1, B2. reflexivity.
Qed.

Lemma round_zero : round 0 = Num 0.
Proof. reflexivity. Qed.

(** ** Binary64 numbers round to themselves *)

Lemma nearest_pos_exact (q : Q) (m c : Z) :
  (0 < m < 2 ^ 53)%Z -> (-1074 <= c)%Z -> q == inject_Z m * pow2 c ->
  nearest_pos q == q.
Proof.
  intros Hm Hc E.
  pose proof (pow2_pos c) as Pc.
  assert (Hq : 0 < q).
  { rewrite E. apply Qmult_lt_0_compat; [|exact Pc].
    change 0 with (inject_Z 0). rewrite <- Zlt_Qlt. lia. }
  destruct (ilog2_spec q Hq) as [L _].
  assert (U : q < pow2 (53 + c)).
  { rewrite E, pow2_add. apply Qmult_lt_compat_r; [exact Pc|].
    rewrite pow2_Z by lia. rewrite <- Zlt_Qlt. lia. }
  assert (He : (ilog2 q < 53 + c)%Z).
  { apply pow2_lt_inv. apply Qle_lt_trans with q; assumption. }
  assert (Hu : (ulp_exp q <= c)%Z) by (unfold ulp_exp; lia).
  unfold nearest_pos. set (u := ulp_exp q) in *.
  assert (S : q * pow2 (- u) == inject_Z (m * 2 ^ (c - u))).
  { rewrite E, inject_Z_mult, <- (pow2_scale c u Hu). ring. }
  rewrite (rint_integer _ _ S), inject_Z_mult.
  rewrite <- Qmult_assoc, (pow2_unscale c u Hu). symmetry. exact E.
Qed.

Lemma nearest_exact (q : Q) : representable q -> nearest q == q.
Proof.
  intros (m & c & Hm & Hc & E & _).
  destruct (Z.lt_trichotomy m 0) as [N|[Z0|P]].
  - assert (Hq : q < 0).
    { rewrite E. pose proof (pow2_pos c) as Pc.
      assert (I : inject_Z m < 0) by (change 0 with (inject_Z 0); rewrite <- Zlt_Qlt; exact N).
      setoid_replace (inject_Z m * pow2 c) with (- (- inject_Z m * pow2 c)) by ring.
      assert (K : 0 < - inject_Z m * pow2 c) by (apply Qmult_lt_0_compat; [lra | exact Pc]).
      lra. }
    rewrite (nearest_neg_case q Hq).
    rewrite (nearest_pos_exact (- q) (- m) c); [ring | lia | exact Hc |].
    rewrite E, inject_Z_opp. ring.
  - subst m. assert (Hq : q == 0) by (rewrite E; ring).
    rewrite (nearest_zero_case q Hq). symmetry. exact Hq.
  - assert (Hq : 0 < q).
    { rewrite E. apply Qmult_lt_0_compat; [|apply pow2_pos].
      change 0 with (inject_Z 0). rewrite <- Zlt_Qlt. exact P. }
    rewrite (nearest_pos_case q Hq).
    apply (nearest_pos_exact q m c); [lia | exact Hc | exact E].
Qed.

(** A binary64 number rounds to itself. *)
Lemma round_exact (q : Q) : representable q -> round q = Num (Qred q).
Proof.
  intros R. pose proof (nearest_exact q R) as E.
  destruct R as (m & c & _ & _ & _ & B).
  apply Qabs_Qlt_condition in B. destruct B as [B1 B2].
  unfold round. cbv zeta.
  assert (X1 : Qleb (pow2 1024) (nearest q) = false) by (apply Qleb_gt0; rewrite E; exact B2).
  assert (X2 : Qleb (nearest q) (- pow2 1024) = false) by (apply Qleb_gt0; rewrite E; exact B1).
  rewrite X1, X2, (Qred_complete _ _ E). reflexivity.
Qed.

Lemma Qred_inject_Z (k : Z) : Qred (inject_Z k) = inject_Z k.
Proof.
  unfold Qred, inject_Z.
  pose proof (Z.ggcd_gcd k 1) as G.
  pose proof (Z.ggcd_correct_divisors k 1) as D.
  destruct (Z.ggcd k 1) as [g [a b]]. simpl in G, D.
  rewrite Z.gcd_1_r in G. subst g. destruct D as [D1 D2].
  assert (a = k) by lia. assert (b = 1%Z) by lia. subst a b. reflexivity.
Qed.

(** Integers up to [2^53] in absolute value are binary64 numbers. *)
Lemma representable_integer (k : Z) :
  (Z.abs k <= 2 ^ 53)%Z -> representable (inject_Z k).
Proof.
  intros H.
  assert (B : Qabs (inject_Z k) < pow2 1024).
  { change (Qabs (inject_Z k)) with (inject_Z (Z.abs k)). rewrite pow2_Z by lia. rewrite <- Zlt_Qlt.
    apply Z.le_lt_trans with (2 ^ 53)%Z; [exact H|].
    apply Z.pow_lt_mono_r; lia. }
  destruct (Z.eq_dec (Z.abs k) (2 ^ 53)) as [E|N].
  - exists (k / 2)%Z, 1%Z.
    assert (K : k = (2 * (k / 2))%Z).
    { assert (D : (k mod 2 = 0)%Z).
      { destruct (Z.abs_eq_or_opp k) as [A|A]; rewrite A in E.
        - rewrite E. reflexivity.
        - assert (k = - 2 ^ 53)%Z by lia. subst k. reflexivity. }
      pose proof (Z.div_mod k 2). lia. }
    repeat split; try lia; [|exact B].
    rewrite K at 1. rewrite inject_Z_mult. change (pow2 1) with 2.
    change (inject_Z 2) with 2. ring.
  - exists k, 0%Z. repeat split; try lia; [|exact B].
    change (pow2 0) with 1. ring.
Qed.

Lemma round_integer (k : Z) :
  (Z.abs k <= 2 ^ 53)%Z -> round (inject_Z k) = Num (inject_Z k).
Proof.
  intros H. rewrite (round_exact _ (representable_integer k H)).
  rewrite Qred_inject_Z. reflexivity.
Qed.

Lemma nearest_pos_form (q : Q) :
  0 < q ->
  exists M : Z,
    (0 <= M <= 2 ^ 53)%Z /\ nearest_pos q == inject_Z M * pow2 (ulp_exp q).
Proof.
  intros Hq. exists (rint (q * pow2 (- ulp_exp q))).
  split; [|reflexivity].
  set (u := ulp_exp q).
  pose proof (pow2_pos (- u)) as Pu.
  destruct (ilog2_spec q Hq) as [_ U].
  assert (Hu : (ilog2 q + 1 <= 53 + u)%Z) by (unfold u, ulp_exp; lia).
  split.
  - rewrite <- (rint_integer 0 0) by reflexivity. apply rint_mono.
    apply Qmult_le_0_compat; lra.
  - rewrite <- (rint_integer (pow2 (53 + u) * pow2 (- u)) (2 ^ 53)).
    + apply rint_mono. apply Qmult_le_compat_r; [|lra].
      apply Qle_trans with (pow2 (ilog2 q + 1)); [lra | apply pow2_le; exact Hu].
    + rewrite (pow2_scale (53 + u) u) by lia.
      replace (53 + u - u)%Z with 53%Z by lia. reflexivity.
Qed.

Lemma representable_opp (q : Q) : representable q -> representable (- q).
Proof.
  intros (m & c & Hm & Hc & E & B). exists (- m)%Z, c.
  repeat split; try lia.
  - rewrite E, inject_Z_opp. ring.
  - rewrite Qabs_opp. exact B.
Qed.

Lemma representable_comp (p q : Q) : p == q -> representable p -> representable q.
Proof.
  intros E (m & c & Hm & Hc & E' & B). exists m, c.
  repeat split; try assumption; rewrite <- E; assumption.
Qed.

Lemma nearest_pos_representable (q : Q) :
  0 < q -> nearest_pos q < pow2 1024 -> representable (nearest_pos q).
Proof.
  intros Hq B. destruct (nearest_pos_form q Hq) as (M & HM & E).
  pose proof (ulp_exp_low q) as Hu.
  assert (A : Qabs (nearest_pos q) < pow2 1024).
  { rewrite Qabs_pos; [exact B | apply nearest_pos_nonneg; lra]. }
  destruct (Z.eq_dec M (2 ^ 53)) as [T|T].
  - exists (2 ^ 52)%Z, (ulp_exp q + 1)%Z.
    split; [reflexivity|]. split; [lia|]. split; [|exact A].
    rewrite E, T, pow2_succ.
    change (inject_Z (2 ^ 53)) with (2 * inject_Z (2 ^ 52)). ring.
  - exists M, (ulp_exp q). repeat split; try lia; [exact E | exact A].
Qed.

(** What rounding returns is a binary64 number, and rounds to itself. *)
Lemma round_representable (q r : Q) : round q = Num r -> representable r.
Proof.
  unfold round. cbv zeta.
  destruct (Qleb (pow2 1024) (nearest q)) eqn:X1; [discriminate|].
  destruct (Qleb (nearest q) (- pow2 1024)) eqn:X2; [discriminate|].
  intros [= <-]. apply Qleb_gt0 in X1. apply Qleb_gt0 in X2.
  apply (representable_comp (nearest q)); [symmetry; apply Qred_correct|].
  destruct (Q_dec q 0) as [[H|H]|H].
  - rewrite (nearest_neg_case q H) in *.
    apply representable_opp. apply nearest_pos_representable; lra.
  - rewrite (nearest_pos_case q H) in *.
    apply nearest_pos_representable; assumption.
  - rewrite (nearest_zero_case q H).
    exists 0%Z, 0%Z. split; [reflexivity|]. split; [lia|].
    split; [ring | apply pow2_pos].
Qed.

Lemma round_idempotent (q r : Q) : round q = Num r -> round r = Num r.
Proof.
  intros H. rewrite (round_exact r (round_representable q r H)).
  f_equal. unfold round in H. cbv zeta in H.
  destruct (Qleb (pow2 1024) (nearest q)); [discriminate|].
  destruct (Qleb (nearest q) (- pow2 1024)); [discriminate|].
  injection H as <-. apply Qred_complete. apply Qred_correct.
Qed.


(** No integer is nearer than [rint]. *)
Lemma rint_nearest_integer (p : Q) (k : Z) :
  Qabs (inject_Z (rint p) - p) <= Qabs (inject_Z k - p).
Proof.
  pose proof (rint_nearest p) as N. apply Qabs_Qle_condition in N.
  pose proof (Qle_Qabs (inject_Z k - p)) as V1.
  pose proof (Qle_Qabs (- (inject_Z k - p))) as V2. rewrite Qabs_opp in V2.
  apply Qabs_Qle_condition.
  destruct (Z.lt_trichotomy k (rint p)) as [L|[E|G]].
  - assert (B : inject_Z k + 1 <= inject_Z (rint p)).
    { change 1 with (inject_Z 1). rewrite <- inject_Z_plus, <- Zle_Qle. lia. }
    revert N V1 V2 B.
    generalize (Qabs (inject_Z k - p)) (inject_Z k) (inject_Z (rint p)).
    intros v b a N V1 V2 B. split; lra.
  - subst k. revert N V1 V2.
    generalize (Qabs (inject_Z (rint p) - p)) (inject_Z (rint p)).
    intros v a N V1 V2. split; lra.
  - assert (B : inject_Z (rint p) + 1 <= inject_Z k).
    { change 1 with (inject_Z 1). rewrite <- inject_Z_plus, <- Zle_Qle. lia. }
    revert N V1 V2 B.
    generalize (Qabs (inject_Z k - p)) (inject_Z k) (inject_Z (rint p)).
    intros v b a N V1 V2 B. split; lra.
Qed.

(** No multiple of the unit in the last place is nearer than the rounded
    value. *)
Lemma nearest_pos_multiple (q : Q) (k : Z) :
  Qabs (nearest_pos q - q) <= Qabs (inject_Z k * pow2 (ulp_exp q) - q).
Proof.
  unfold nearest_pos. set (u := ulp_exp q).
  pose proof (pow2_pos u) as P.
  assert (S : q == q * pow2 (- u) * pow2 u).
  { rewrite <- Qmult_assoc, <- pow2_add. replace (- u + u)%Z with 0%Z by lia.
    change (pow2 0) with 1. ring. }
  set (s := q * pow2 (- u)) in *.
  assert (E1 : inject_Z (rint s) * pow2 u - q == (inject_Z (rint s) - s) * pow2 u).
  { rewrite S at 1. ring. }
  assert (E2 : inject_Z k * pow2 u - q == (inject_Z k - s) * pow2 u).
  { rewrite S at 1. ring. }
  rewrite E1, E2, !Qabs_Qmult, (Qabs_pos (pow2 u)) by lra.
  apply Qmult_le_compat_r; [apply rint_nearest_integer | lra].
Qed.

Lemma nearest_pos_nearest (q x : Q) :
  0 < q -> representable x -> Qabs (nearest_pos q - q) <= Qabs (x - q).
Proof.
  intros Hq (m & c & Hm & Hc & E & _).
  set (u := ulp_exp q).
  destruct (Z_le_gt_dec u c) as [L|G].
  - assert (X : x == inject_Z (m * 2 ^ (c - u)) * pow2 u).
    { rewrite E, inject_Z_mult, <- Qmult_assoc, (pow2_unscale c u L). reflexivity. }
    rewrite X. apply nearest_pos_multiple.
  - assert (Hu : u = (ilog2 q - 52)%Z) by (unfold u, ulp_exp in *; lia).
    destruct (ilog2_spec q Hq) as [Lq _].
    assert (Xlt : x < pow2 (ilog2 q)).
    { apply Qle_lt_trans with (Qabs x); [apply Qle_Qabs|].
      rewrite E, Qabs_Qmult, (Qabs_pos (pow2 c)) by (apply Qlt_le_weak; apply pow2_pos).
      change (Qabs (inject_Z m)) with (inject_Z (Z.abs m)).
      apply Qlt_le_trans with (inject_Z (2 ^ 53) * pow2 c).
      - apply Qmult_lt_compat_r; [apply pow2_pos | rewrite <- Zlt_Qlt; exact Hm].
      - rewrite <- pow2_Z by lia. rewrite <- pow2_add. apply pow2_le. lia. }
    apply Qle_trans with (Qabs (inject_Z (2 ^ 52) * pow2 u - q)).
    + apply nearest_pos_multiple.
    + assert (K : inject_Z (2 ^ 52) * pow2 u == pow2 (ilog2 q)).
      { rewrite <- pow2_Z by lia. rewrite <- pow2_add. rewrite Hu.
        replace (52 + (ilog2 q - 52))%Z with (ilog2 q) by lia. reflexivity. }
      rewrite K.
      rewrite (Qabs_neg (pow2 (ilog2 q) - q)) by lra.
      rewrite (Qabs_neg (x - q)) by lra. lra.
Qed.

(** What rounding returns is a binary64 number, and no binary64 number
    is nearer to the exact value. *)
Lemma round_nearest (q p : Q) :
  round q = Num p ->
  representable p
  /\ forall x : Q, representable x -> Qabs (p - q) <= Qabs (x - q).
Proof.
  intros H. split; [apply (round_representable q p H)|].
  intros x Rx.
  assert (Ep : p == nearest q).
  { unfold round in H. cbv zeta in H.
    destruct (Qleb (pow2 1024) (nearest q)); [discriminate|].
    destruct (Qleb (nearest q) (- pow2 1024)); [discriminate|].
    injection H as <-. apply Qred_correct. }
  rewrite Ep.
  destruct (Q_dec q 0) as [[N|P]|Z0].
  - rewrite (nearest_neg_case q N).
    pose proof (nearest_pos_nearest (- q) (- x) ltac:(lra) (representable_opp x Rx)) as B.
    setoid_replace (- nearest_pos (- q) - q) with (- (nearest_pos (- q) - - q)) by ring.
    setoid_replace (x - q) with (- (- x - - q)) by ring.
    rewrite !Qabs_opp. exact B.
  - rewrite (nearest_pos_case q P). apply nearest_pos_nearest; assumption.
  - rewrite (nearest_zero_case q Z0).
    setoid_replace (0 - q) with 0 by lra. apply Qabs_nonneg.
Qed.

(** Values of the rounding, as Python prints them with
    [float.as_integer_ratio]: the floats [0.1] and [1/3], the sum
    [0.1 + 0.2]; ties, which go to the even significand; the least
    subnormal number and the tie below it; the largest float, and the
    overflow from the midpoint above it. *)
Example round_values :
  round (1 # 10) = Num (3602879701896397 # 36028797018963968)
  /\ round (1 # 3) = Num (6004799503160661 # 18014398509481984)
  /\ F.add (round (1 # 10)) (round (2 # 10))
     = Num (1351079888211149 # 4503599627370496)
  /\ round (inject_Z (2 ^ 53 + 1)) = Num (inject_Z (2 ^ 53))
  /\ round (inject_Z (2 ^ 53 + 3)) = Num (inject_Z (2 ^ 53 + 4))
  /\ round (pow2 (-1074)) = Num (pow2 (-1074))
  /\ round (pow2 (-1075)) = Num 0
  /\ round (3 * pow2 (-1075)) = Num (pow2 (-1073))
  /\ round (inject_Z (2 ^ 1024 - 2 ^ 971)) = Num (inject_Z (2 ^ 1024 - 2 ^ 971))
  /\ round (inject_Z (2 ^ 1024 - 2 ^ 970 - 1)) = Num (inject_Z (2 ^ 1024 - 2 ^ 971))
  /\ round (inject_Z (2 ^ 1024 - 2 ^ 970)) = PInf
  /\ round (- inject_Z (2 ^ 1024 - 2 ^ 970)) = NInf.
Proof. repeat split; vm_compute; reflexivity. Qed.

End Binary64Facts.

(** * Facts about float cells

    Away from [NaN] the order of [fval] is total. *)

Module FFacts.

Lemma le_refl (x : fval) : F.isnan x = false -> F.le x x = true.
Proof.
  destruct x; simpl; try congruence. intros _. apply Qleb_le. apply Qle_refl.
Qed.

Lemma lt_le (x y : fval) : F.lt x y = true -> F.le x y = true.
Proof.
  destruct x, y; simpl; try congruence.
  rewrite Qltb_lt, Qleb_le. apply Qlt_le_weak.
Qed.

Lemma lt_trans (x y z : fval) :
  F.lt x y = true -> F.lt y z = true -> F.lt x z = true.
Proof.
  destruct x, y, z; simpl; try congruence.
  rewrite !Qltb_lt. apply Qlt_trans.
Qed.

Lemma lt_le_trans (x y z : fval) :
  F.lt x y = true -> F.le y z = true -> F.lt x z = true.
Proof.
  destruct x, y, z; simpl; try congruence.
  rewrite !Qltb_lt, Qleb_le. apply Qlt_le_trans.
Qed.

Lemma not_lt_le (x y : fval) :
  F.isnan x = false -> F.isnan y = false -> F.lt x y = false -> F.le y x = true.
Proof.
  destruct x, y; simpl; try congruence.
  intros _ _. rewrite Qltb_ge, Qleb_le. auto.
Qed.

Lemma le_lt_trans (x y z : fval) :
  F.le x y = true -> F.lt y z = true -> F.lt x z = true.
Proof.
  destruct x, y, z; simpl; try congruence.
  rewrite !Qltb_lt, Qleb_le. apply Qle_lt_trans.
Qed.

Lemma le_trans (x y z : fval) :
  F.le x y = true -> F.le y z = true -> F.le x z = true.
Proof.
  destruct x, y, z; simpl; try congruence.
  rewrite !Qleb_le. apply Qle_trans.
Qed.

(** A sum and a difference of numbers are the rounded exact results. *)
Lemma add_finite (a b : Q) : F.add (Num a) (Num b) = Binary64.round (a + b).
Proof. reflexivity. Qed.

Lemma sub_finite (a b : Q) : F.sub (Num a) (Num b) = Binary64.round (a - b).
Proof. reflexivity. Qed.

Lemma abs_not_nan (x : fval) : F.isnan x = false -> F.isnan (F.abs x) = false.
Proof. destruct x; simpl; congruence. Qed.

(** Adding to a number keeps the order, also after rounding. *)
Lemma add_num_mono (a : Q) (y z : fval) :
  F.le y z = true -> F.le (F.add (Num a) y) (F.add (Num a) z) = true.
Proof.
  destruct y as [b| | |], z as [c| | |]; cbn [F.le F.add]; try congruence;
    intros H.
  - apply Binary64Facts.round_mono. apply Qleb_le in H. lra.
  - pose proof (Binary64Facts.round_not_nan (a + b)) as N.
    destruct (Binary64.round (a + b)); simpl in *; congruence.
  - pose proof (Binary64Facts.round_not_nan (a + c)) as N.
    destruct (Binary64.round (a + c)); simpl in *; congruence.
Qed.

Lemma neg_le (y z : fval) : F.le y z = true -> F.le (F.neg z) (F.neg y) = true.
Proof.
  destruct y as [b| | |], z as [c| | |]; cbn [F.le F.neg]; try congruence.
  rewrite !Qleb_le. intros H. lra.
Qed.

(** Subtracting more from a number gives less, also after rounding. *)
Lemma sub_num_anti (a : Q) (y z : fval) :
  F.le y z = true -> F.le (F.sub (Num a) z) (F.sub (Num a) y) = true.
Proof. intros H. unfold F.sub. apply add_num_mono. apply neg_le. exact H. Qed.

Lemma abs_neg (x : fval) : F.abs (F.neg x) = F.abs x.
Proof.
  destruct x as [[n d]| | |]; try reflexivity.
  simpl. unfold Qabs, Qopp. simpl. rewrite Z.abs_opp. reflexivity.
Qed.

End FFacts.

(** * Properties of the alignment ([_find_adjacent], [_combine_annotations]) *)

Module AlignmentProofs.

Import Metadata.
Import Examples.

Lemma window_rows_In (time_lock : TimeLock) (margin_s origin_t : fval)
    (ref : list IpuRow) (r : IpuRow) :
  In r (window_rows time_lock margin_s origin_t ref)
  <-> In r ref /\ in_window time_lock margin_s origin_t r = true.
Proof. unfold window_rows. apply filter_In. Qed.

(** C1.  A partner row is a match candidate of an anchor row exactly when
    its target time [t] satisfies [o - margin_s <= t < o + margin_s], the
    lower bound closed and the upper bound open; [o] is the anchor's
    [start] under [onset] and its [end] under [offset], [t] is the
    partner's opposite field.  The two bounds are the floats the program
    computes: for numbers, the binary64 roundings of the exact difference
    and of the exact sum, a rounding being a binary64 number nearest to
    the exact value. *)
Theorem C1_candidate_iff_in_half_open_window
    (time_lock : TimeLock) (margin_s : fval)
    (anchor : IpuRow) (ref : list IpuRow) (r : IpuRow) :
  let o := match time_lock with onset => start anchor | offset => end_ anchor end in
  let t := match time_lock with onset => end_ r | offset => start r end in
  (In r (window_rows time_lock margin_s (origin_col time_lock anchor) ref)
   <-> In r ref
       /\ F.le (F.sub o margin_s) t = true
       /\ F.lt t (F.add o margin_s) = true)
  /\ (forall a m : Q,
        o = Num a -> margin_s = Num m ->
        F.sub o margin_s = Binary64.round (a - m)
        /\ F.add o margin_s = Binary64.round (a + m))
  /\ (forall q p : Q,
        Binary64.round q = Num p ->
        Binary64.representable p
        /\ forall x : Q, Binary64.representable x ->
             Qabs (p - q) <= Qabs (x - q)).
Proof.
  intros o t. split; [|split].
  - rewrite window_rows_In. unfold in_window.
    rewrite andb_true_iff.
    destruct time_lock; reflexivity.
  - intros a m -> ->. split; reflexivity.
  - intros q p. apply Binary64Facts.round_nearest.
Qed.

(** The window test on numbers: the target against the rounded bounds. *)
Lemma in_window_finite (time_lock : TimeLock) (m o t : Q) (r : IpuRow) :
  target_col time_lock r = Num t ->
  (in_window time_lock (Num m) (Num o) r = true
   <-> F.le (Binary64.round (o - m)) (Num t) = true
       /\ F.lt (Num t) (Binary64.round (o + m)) = true).
Proof.
  intros Ht. unfold in_window. rewrite Ht, andb_true_iff. reflexivity.
Qed.

(** The candidates of an anchor row decide what [_find_adjacent] returns. *)
Lemma find_adjacent_no_candidate (time_lock : TimeLock) (anchor : Anchor)
    (margin_s : fval) (row : IpuRow) (ref : list IpuRow) :
  window_rows time_lock margin_s (origin_col time_lock row) ref = [] ->
  _find_adjacent time_lock anchor margin_s row ref
  = map (fun c => (c, NaN)) (out_cols anchor).
Proof.
  intros H. unfold _find_adjacent. rewrite H.
  destruct anchor; reflexivity.
Qed.

(** C7.  The result of the alignment has the anchor rows, all of them and
    in their order; a row without a partner row inside its window has
    [NaN] in the three partner feature columns and in [latency]. *)
Theorem C7_unmatched_anchor_row_kept_with_nan
    (self_df other_df : list IpuRow) (time_lock : TimeLock)
    (anchor : Anchor) (margin_s : fval) :
  let base_df := match anchor with self => self_df | other => other_df end in
  let ref_df := match anchor with self => other_df | other => self_df end in
  let prefix := match anchor with self => "other" | other => "self" end in
  let out := _combine_annotations self_df other_df time_lock anchor margin_s in
  map anchor_row out = base_df
  /\ forall c : CombinedRow,
       In c out ->
       (forall r, In r ref_df ->
                  in_window time_lock margin_s
                            (origin_col time_lock (anchor_row c)) r = false) ->
       added c = [ ((prefix ++ "_duration")%string, NaN);
                   ((prefix ++ "_n_syllables")%string, NaN);
                   ((prefix ++ "_rate")%string, NaN);
                   ("latency", NaN) ].
Proof.
  intros base_df ref_df prefix out. split.
  - unfold out, _combine_annotations. rewrite map_map. simpl. apply map_id.
  - intros c Hc Hnone.
    unfold out, _combine_annotations in Hc. apply in_map_iff in Hc.
    destruct Hc as [row [<- _]]. simpl in *.
    rewrite find_adjacent_no_candidate.
    + unfold prefix. destruct anchor; reflexivity.
    + unfold window_rows.
      assert (Hall : forall r, In r ref_df ->
                in_window time_lock margin_s (origin_col time_lock row) r = false)
        by exact Hnone.
      clear Hnone. unfold ref_df in Hall.
      set (ref := match anchor with self => other_df | other => self_df end) in *.
      induction ref as [|r ref IH]; [reflexivity|]. simpl.
      rewrite (Hall r (or_introl eq_refl)). apply IH.
      intros r' Hr'. apply Hall. right. exact Hr'.
Qed.

Lemma C7_unmatched_anchor_row_kept_with_nan_witness :
  let out := _combine_annotations [Examples.ipu 10 (21 # 2) "a" (1 # 2) 2 4]
                                  [Examples.ipu (1 # 10) (6 # 10) "b" (1 # 2) 2 3]
                                  onset self (Num (1 # 10)) in
  map anchor_row out = [Examples.ipu 10 (21 # 2) "a" (1 # 2) 2 4]
  /\ forall c, In c out ->
       added c = [ ("other_duration", NaN); ("other_n_syllables", NaN);
                   ("other_rate", NaN); ("latency", NaN) ].
Proof.
  pose proof (C7_unmatched_anchor_row_kept_with_nan
                [Examples.ipu 10 (21 # 2) "a" (1 # 2) 2 4]
                [Examples.ipu (1 # 10) (6 # 10) "b" (1 # 2) 2 3]
                onset self (Num (1 # 10))) as [Hrows Hnan].
  split; [exact Hrows|].
  intros c Hc. apply (Hnan c Hc).
  intros r [<-|[]]. destruct Hc as [<-|[]]. reflexivity.
Defined.

(** C2, as stated, fails: a partner row whose target time is exactly
    [origin - margin_s] is a candidate. *)
Lemma C2_lower_bound_row_is_a_candidate :
  ~ Examples.lower_bound_excluded onset (Num 1) Examples.boundary_anchor
      [Examples.boundary_partner].
Proof.
  intros H.
  apply (H Examples.boundary_partner).
  - left. reflexivity.
  - reflexivity.
  - left. reflexivity.
Qed.

(** The second half of C2 fails too when the step below the upper bound
    is too small for binary64: with origin 1 s and margin 1 s the upper
    bound is 2, the float computed for [2 - 2^-60] is 2 again, and a
    partner ending there is no candidate. *)
Example tiny_epsilon_is_absorbed :
  F.sub (F.add (Num 1) (Num 1)) (Num (1 # 2 ^ 60)) = Num 2
  /\ window_rows onset (Num 1) (origin_col onset Examples.boundary_anchor)
                 [Examples.ipu 0 2 "c" 1 1 1] = [].
Proof. split; vm_compute; reflexivity. Qed.

(** C2, amended.  With [lo] and [hi] the floats computed for
    [origin - margin_s] and [origin + margin_s]: a partner row whose target
    time is [lo] is inside the candidate window when [lo < hi] (the lower
    bound is closed); one whose target time is [hi] is outside (the upper
    bound is open); and one whose target time is the float computed for
    [hi - eps] is inside when [eps] is not absorbed, some binary64 number
    [x] having [hi - eps <= x < hi], and [hi - eps] is not below [lo]. *)
Theorem C2_window_boundaries
    (time_lock : TimeLock) (m o lo hi : Q)
    (anchor : IpuRow) (ref : list IpuRow) (r : IpuRow) :
  origin_col time_lock anchor = Num o ->
  F.sub (Num o) (Num m) = Num lo ->
  F.add (Num o) (Num m) = Num hi ->
  In r ref ->
  let candidate :=
    In r (window_rows time_lock (Num m) (origin_col time_lock anchor) ref) in
  (target_col time_lock r = Num lo -> lo < hi -> candidate)
  /\ (target_col time_lock r = Num hi -> ~ candidate)
  /\ (forall eps x : Q,
        0 < eps ->
        target_col time_lock r = F.sub (Num hi) (Num eps) ->
        Binary64.representable x -> hi - eps <= x -> x < hi ->
        lo <= hi - eps ->
        candidate).
Proof.
  intros Ho Hlo Hhi Hin candidate. unfold candidate. rewrite Ho.
  split; [|split].
  - intros Ht L. apply window_rows_In. split; [exact Hin|].
    unfold in_window. rewrite Ht, Hlo, Hhi. simpl.
    apply andb_true_iff. split; [apply Qleb_le; apply Qle_refl | apply Qltb_lt; exact L].
  - intros Ht H. apply window_rows_In in H. destruct H as [_ H].
    unfold in_window in H. rewrite Ht, Hhi in H.
    apply andb_true_iff in H. destruct H as [_ H]. simpl in H.
    apply Qltb_lt in H. apply (Qlt_irrefl hi). exact H.
  - intros eps x He Ht Rx L1 L2 L3.
    apply window_rows_In. split; [exact Hin|].
    unfold in_window. rewrite Ht, Hlo, Hhi, FFacts.sub_finite.
    apply andb_true_iff. split.
    + rewrite <- (Binary64Facts.round_idempotent (o - m) lo Hlo).
      apply Binary64Facts.round_mono. exact L3.
    + apply FFacts.le_lt_trans with (Binary64.round x).
      * apply Binary64Facts.round_mono. exact L1.
      * rewrite (Binary64Facts.round_exact x Rx). simpl.
        apply Qltb_lt. rewrite Qred_correct. exact L2.
Qed.

Lemma C2_window_boundaries_witness :
  In Examples.boundary_partner
     (window_rows onset (Num 1) (origin_col onset Examples.boundary_anchor)
                  [Examples.boundary_partner])
  /\ In (Examples.ipu 0 (3 # 2) "c" 1 1 1)
        (window_rows onset (Num 1) (origin_col onset Examples.boundary_anchor)
                     [Examples.ipu 0 (3 # 2) "c" 1 1 1]).
Proof.
  assert (Elo : F.sub (Num 1) (Num 1) = Num 0) by (vm_compute; reflexivity).
  assert (Ehi : F.add (Num 1) (Num 1) = Num 2) by (vm_compute; reflexivity).
  split.
  - pose proof (C2_window_boundaries onset 1 1 0 2 Examples.boundary_anchor
                  [Examples.boundary_partner] Examples.boundary_partner
                  eq_refl Elo Ehi (or_introl eq_refl)) as H.
    cbv zeta in H. destruct H as [H _]. apply H; reflexivity.
  - pose proof (C2_window_boundaries onset 1 1 0 2 Examples.boundary_anchor
                  [Examples.ipu 0 (3 # 2) "c" 1 1 1]
                  (Examples.ipu 0 (3 # 2) "c" 1 1 1)
                  eq_refl Elo Ehi (or_introl eq_refl)) as H.
    cbv zeta in H. destruct H as [_ [_ H]].
    apply (H (1 # 2) (3 # 2)).
    + reflexivity.
    + vm_compute. reflexivity.
    + exists 3%Z, (-1)%Z.
      split; [reflexivity|]. split; [lia|]. split; vm_compute; reflexivity.
    + discriminate.
    + reflexivity.
    + discriminate.
Defined.

(** *** [idxmin]: the first position of the minimum *)

Lemma below_lt (x best : fval) :
  F.isnan best = false -> below x best = F.lt x best.
Proof. destruct best; simpl; congruence. Qed.

Lemma idxmin_from_spec (l : list fval) :
  forall (best_i : nat) (best : fval) (k : nat),
    F.isnan best = false -> no_nan l ->
    let i := idxmin_from best_i best k l in
    (i = best_i /\ Forall (fun y => F.le best y = true) l)
    \/ (exists (j : nat) (x : fval),
          i = (k + j)%nat
          /\ nth_error l j = Some x
          /\ F.lt x best = true
          /\ Forall (fun y => F.le x y = true) l
          /\ forall (j' : nat) (y : fval),
               (j' < j)%nat -> nth_error l j' = Some y -> F.lt x y = true).
Proof.
  induction l as [|x0 l IH]; intros best_i best k Hbest Hl; simpl.
  - left. split; [reflexivity | constructor].
  - inversion Hl as [|? ? Hx0 Hl']; subst.
    rewrite (below_lt x0 best Hbest).
    destruct (F.lt x0 best) eqn:Hlt.
    + right.
      destruct (IH k x0 (S k) Hx0 Hl') as [[Hi Hall] | (j & x & Hi & Hj & Hx & Hall & Hbefore)].
      * exists 0%nat, x0. rewrite Hi.
        repeat split; auto with arith.
        -- constructor; [apply FFacts.le_refl; exact Hx0 | exact Hall].
        -- intros j' y Hj'. inversion Hj'.
      * exists (S j), x. rewrite Hi.
        repeat split; auto with arith.
        -- apply FFacts.lt_trans with x0; assumption.
        -- constructor; [apply FFacts.lt_le; exact Hx | exact Hall].
        -- intros [|j'] y Hj' Hy; simpl in Hy.
           ++ inversion Hy; subst. exact Hx.
           ++ apply (Hbefore j' y); [apply PeanoNat.lt_S_n; exact Hj' | exact Hy].
    + assert (Hle : F.le best x0 = true) by (apply FFacts.not_lt_le; assumption).
      destruct (IH best_i best (S k) Hbest Hl') as [[Hi Hall] | (j & x & Hi & Hj & Hx & Hall & Hbefore)].
      * left. split; [exact Hi | constructor; assumption].
      * right. exists (S j), x. rewrite Hi.
        assert (Hx0' : F.lt x x0 = true) by (apply FFacts.lt_le_trans with best; assumption).
        repeat split; auto with arith.
        -- constructor; [apply FFacts.lt_le; exact Hx0' | exact Hall].
        -- intros [|j'] y Hj' Hy; simpl in Hy.
           ++ inversion Hy; subst. exact Hx0'.
           ++ apply (Hbefore j' y); [apply PeanoNat.lt_S_n; exact Hj' | exact Hy].
Qed.

Lemma idxmin_spec (l : list fval) :
  l <> [] -> no_nan l ->
  exists x : fval,
    nth_error l (idxmin l) = Some x
    /\ Forall (fun y => F.le x y = true) l
    /\ forall (j : nat) (y : fval),
         (j < idxmin l)%nat -> nth_error l j = Some y -> F.lt x y = true.
Proof.
  destruct l as [|x0 l]; [congruence|]. intros _ Hl.
  inversion Hl as [|? ? Hx0 Hl']; subst. simpl.
  destruct (idxmin_from_spec l 0%nat x0 1%nat Hx0 Hl')
    as [[Hi Hall] | (j & x & Hi & Hj & Hx & Hall & Hbefore)]; rewrite Hi.
  - exists x0. repeat split.
    + constructor; [apply FFacts.le_refl; exact Hx0 | exact Hall].
    + intros j y Hj. inversion Hj.
  - exists x. repeat split.
    + exact Hj.
    + constructor; [apply FFacts.lt_le; exact Hx | exact Hall].
    + intros [|j'] y Hj' Hy; simpl in *.
      * inversion Hy; subst. exact Hx.
      * apply (Hbefore j' y); [apply PeanoNat.lt_S_n; exact Hj' | exact Hy].
Qed.

(** Inside the window the distance is a number or an infinity. *)
Lemma in_window_distance (time_lock : TimeLock) (margin_s origin_t : fval)
    (r : IpuRow) :
  in_window time_lock margin_s origin_t r = true ->
  F.isnan (distance time_lock origin_t r) = false.
Proof.
  unfold in_window, distance.
  destruct origin_t as [o| | |], (target_col time_lock r) as [t| | |];
    try (intros _; apply FFacts.abs_not_nan;
         apply (Binary64Facts.round_not_nan (o - t)));
    destruct margin_s as [m| | |]; cbn [F.sub F.add F.neg];
    repeat match goal with
           | |- context [Binary64.round ?q] => generalize (Binary64.round q); intros ?
           end;
    repeat match goal with x : fval |- _ => destruct x end;
    simpl; intros H; try reflexivity; discriminate H.
Qed.

Lemma window_distances_no_nan (time_lock : TimeLock) (margin_s origin_t : fval)
    (ref : list IpuRow) :
  no_nan (map (distance time_lock origin_t)
              (window_rows time_lock margin_s origin_t ref)).
Proof.
  unfold no_nan. rewrite Forall_map, Forall_forall.
  intros r Hr. apply window_rows_In in Hr. destruct Hr as [_ Hr].
  apply in_window_distance with margin_s. exact Hr.
Qed.




(** The two tied rows of [tie_ref]: the values come from the first. *)
Example find_adjacent_tie :
  _find_adjacent onset self (Num 1) tie_anchor tie_ref
  = [ ("other_duration", Num 1); ("other_n_syllables", Num 1);
      ("other_rate", Num 30); ("latency", Num (1 # 2)) ].
Proof. vm_compute. reflexivity. Qed.

(** A tie of the float differences only: the floats 0.77 and 0.23 are not
    at the same distance of 0.5, the second is nearer, yet both float
    differences are the float 0.27, and the values come from the first
    row. *)
Example find_adjacent_float_tie :
  Qabs ((1 # 2) - float_literal (23 # 100))
  < Qabs ((1 # 2) - float_literal (77 # 100))
  /\ F.abs (F.sub (Num (1 # 2)) (Num (float_literal (77 # 100))))
     = Num (float_literal (27 # 100))
  /\ F.abs (F.sub (Num (1 # 2)) (Num (float_literal (23 # 100))))
     = Num (float_literal (27 # 100))
  /\ _find_adjacent onset self (Num 1) float_tie_anchor float_tie_ref
     = [ ("other_duration", Num 1); ("other_n_syllables", Num 1);
         ("other_rate", Num 10);
         ("latency", F.neg (Num (float_literal (27 # 100)))) ].
Proof. repeat split; vm_compute; reflexivity. Qed.

(** The window of the floats: with origin 0.01 and margin 0.02 the upper
    bound is the float 0.03, and a target at the float 0.03 is outside;
    with origin 0.45 and margin 0.1 the lower bound is the float 0.35,
    and a target at the float 0.35 is inside. *)
Example window_of_float_bounds :
  F.add (Num (float_literal (1 # 100))) (Num (float_literal (2 # 100)))
  = Num (float_literal (3 # 100))
  /\ in_window onset (Num (float_literal (2 # 100)))
       (Num (float_literal (1 # 100)))
       (ipu 0 (float_literal (3 # 100)) "p" 1 1 10) = false
  /\ F.sub (Num (float_literal (45 # 100))) (Num (float_literal (1 # 10)))
     = Num (float_literal (35 # 100))
  /\ in_window onset (Num (float_literal (1 # 10)))
       (Num (float_literal (45 # 100)))
       (ipu 0 (float_literal (35 # 100)) "p" 1 1 10) = true.
Proof. repeat split; vm_compute; reflexivity. Qed.

End AlignmentProofs.

(** * Properties of the event samples ([metadata_df_to_mne_events]) *)

Module EventsProofs.

Import Metadata.
Import Examples.
Import Binary64Facts.

(** At a tie [rint] takes the even neighbour. *)
Lemma rint_tie (q : Q) (k : Z) :
  q == inject_Z k + (1 # 2) -> rint q = if Z.even k then k else (k + 1)%Z.
Proof.
  intros E.
  assert (Hf : Qfloor q = k).
  { apply Qfloor_unique; [|rewrite inject_Z_plus; change (inject_Z 1) with 1];
      revert E; generalize (inject_Z k); intros f E; lra. }
  unfold rint. rewrite Hf.
  assert (C : Qcompare (q - inject_Z k) (1 # 2) = Eq).
  { apply Qeq_alt. revert E; generalize (inject_Z k); intros f E; lra. }
  rewrite C. reflexivity.
Qed.

Lemma wrap64_in_range (z : Z) : in_int64 z = true -> wrap64 z = z.
Proof.
  unfold in_int64, wrap64, INT64_MIN, INT64_MAX.
  rewrite andb_true_iff, !Z.leb_le. intros [L U].
  rewrite Z.mod_small; lia.
Qed.

Section Samples.

Variable str_to_float : string -> fval.
Variable cast_out_of_range : fval -> Z.

(** The cast of a float that is an integer of [int64] is that integer. *)
Lemma astype_int_integer (z : Z) :
  in_int64 z = true -> astype_int cast_out_of_range (Num (inject_Z z)) = z.
Proof.
  intros H. unfold astype_int. rewrite Qceiling_Z, Qfloor_Z.
  destruct (Qltb (inject_Z z) 0); cbv zeta; rewrite H; reflexivity.
Qed.

(** The sample of a timestamp, from the float product [p]. *)
Lemma sample_of_in_range (sfreq_hz : Q) (first_samp : Z) (t p : Q) :
  Binary64.round (t * sfreq_hz) = Num p ->
  in_int64 (rint p) = true ->
  in_int64 (rint p + first_samp) = true ->
  sample_of cast_out_of_range sfreq_hz first_samp t = (rint p + first_samp)%Z.
Proof.
  intros E H1 H2. unfold sample_of, scaled. rewrite E. cbn [F.rint].
  rewrite (astype_int_integer _ H1).
  apply wrap64_in_range. exact H2.
Qed.

End Samples.

(** C4, as stated, fails: 0.125 s at 100 Hz is sample 12.5, a tie, also as
    the float product; the event is at sample 12, and rounding the tie
    away from zero gives 13. *)
Lemma C4_tie_is_not_rounded_away_from_zero :
  (1 # 8) * 100 == inject_Z 12 + (1 # 2)
  /\ Binary64.round ((1 # 8) * 100) = Num (25 # 2)
  /\ metadata_df_to_mne_events no_text_number cast_int64_min
       half_sample_df 100 0 "timestamp" 1
     = Ok [(12, 0, 1)%Z]
  /\ (round_half_away ((1 # 8) * 100) + 0)%Z = 13%Z.
Proof. repeat split; vm_compute; reflexivity. Qed.

(** C4, amended.  The events are, in row order, those of the rows whose
    timestamp is a finite number.  The sample of such a row is
    [rint(p) + first_samp], with [p] the float product of the timestamp
    and [sfreq_hz], whenever [rint(p)] and the sum are in the range of
    [int64].  The float product is a binary64 number nearest to the exact
    product; [rint] is the nearest integer and, at a tie [k + 0.5], the
    even one of [k] and [k + 1]. *)
Theorem C4_sample_is_nearest_integer_ties_to_even
    (str_to_float : string -> fval) (cast_out_of_range : fval -> Z)
    (metadata_df : DataFrame) (sfreq_hz : Q) (first_samp : Z)
    (timestamp_col : string) (event_id : Z) :
  let finite :=
    finite_values (map (to_numeric str_to_float)
                       (column metadata_df timestamp_col)) in
  has_column timestamp_col (columns metadata_df) = true ->
  (forall t : Q, In t finite ->
     exists p : Q,
       Binary64.round (t * sfreq_hz) = Num p
       /\ in_int64 (rint p) = true
       /\ in_int64 (rint p + first_samp) = true) ->
  (exists products : list Q,
     Forall2 (fun t p => Binary64.round (t * sfreq_hz) = Num p)
             finite products
     /\ metadata_df_to_mne_events str_to_float cast_out_of_range
          metadata_df sfreq_hz first_samp timestamp_col event_id
        = Ok (map (fun p => ((rint p + first_samp)%Z, 0%Z, event_id)) products))
  /\ (forall t p : Q,
        Binary64.round (t * sfreq_hz) = Num p ->
        representable p
        /\ forall x : Q, representable x ->
             Qabs (p - t * sfreq_hz) <= Qabs (x - t * sfreq_hz))
  /\ (forall p : Q, Qabs (inject_Z (rint p) - p) <= 1 # 2)
  /\ (forall (p : Q) (k : Z),
        p == inject_Z k + (1 # 2) ->
        rint p = if Z.even k then k else (k + 1)%Z).
Proof.
  intros finite Hcol Hrange. split; [|split; [|split]].
  - unfold metadata_df_to_mne_events. rewrite Hcol. cbn [negb].
    fold finite. clearbody finite.
    induction finite as [|t l IH].
    + exists []. split; [constructor | reflexivity].
    + destruct (Hrange t (or_introl eq_refl)) as (p & E & H1 & H2).
      destruct IH as (ps & F2 & Eq).
      { intros t' Ht'. apply Hrange. right. exact Ht'. }
      exists (p :: ps). split; [constructor; assumption|].
      injection Eq as Eq. cbn [map]. rewrite Eq.
      rewrite (sample_of_in_range cast_out_of_range sfreq_hz first_samp t p E H1 H2).
      reflexivity.
  - intros t p. apply round_nearest.
  - intros p. apply rint_nearest.
  - intros p k. apply rint_tie.
Qed.

Lemma C4_sample_is_nearest_integer_ties_to_even_witness :
  let df := mkFrame ["timestamp"]
              [[CFloat (Num (1 # 4))]; [CStr "bad"]; [CFloat NaN];
               [CFloat (Num (1 # 2))]; [CFloat (Num (1 # 8))]] in
  has_column "timestamp" (columns df) = true
  /\ exists products : list Q,
       Forall2 (fun t p => Binary64.round (t * 100) = Num p)
               [1 # 4; 1 # 2; 1 # 8] products
       /\ metadata_df_to_mne_events no_text_number cast_int64_min
            df 100 10 "timestamp" 7
          = Ok (map (fun p => ((rint p + 10)%Z, 0%Z, 7%Z)) products).
Proof.
  split; [reflexivity|].
  refine (proj1 (C4_sample_is_nearest_integer_ties_to_even
                   no_text_number cast_int64_min
                   (mkFrame ["timestamp"]
                      [[CFloat (Num (1 # 4))]; [CStr "bad"]; [CFloat NaN];
                       [CFloat (Num (1 # 2))]; [CFloat (Num (1 # 8))]])
                   100 10 "timestamp" 7 eq_refl _)).
  simpl. intros t [<-|[<-|[<-|[]]]].
  - exists 25. repeat split; vm_compute; reflexivity.
  - exists 50. repeat split; vm_compute; reflexivity.
  - exists (25 # 2). repeat split; vm_compute; reflexivity.
Defined.

(** The events of that table: samples 25, 50 and 12 after the first
    sample 10. *)
Example events_of_finite_timestamps :
  metadata_df_to_mne_events no_text_number cast_int64_min
    (mkFrame ["timestamp"]
             [[CFloat (Num (1 # 4))]; [CStr "bad"]; [CFloat NaN];
              [CFloat (Num (1 # 2))]; [CFloat (Num (1 # 8))]])
    100 10 "timestamp" 7
  = Ok [(35, 0, 7)%Z; (60, 0, 7)%Z; (22, 0, 7)%Z].
Proof. vm_compute. reflexivity. Qed.

(** The product is rounded before [rint]: the float 0.005 is a little
    above 5/1000, yet its product with 100 is the float 0.5, a tie, and
    the sample is 0; the float 0.155 is a little below 155/1000, yet its
    product with 100 is the float 15.5, a tie, and the sample is 16. *)
Example rounded_products :
  5 # 1000 < float_literal (5 # 1000)
  /\ Binary64.round (float_literal (5 # 1000) * 100) = Num (1 # 2)
  /\ float_literal (155 # 1000) < 155 # 1000
  /\ Binary64.round (float_literal (155 # 1000) * 100) = Num (31 # 2)
  /\ metadata_df_to_mne_events no_text_number cast_int64_min
       rounded_product_df 100 0 "timestamp" 1
     = Ok [(0, 0, 1)%Z; (16, 0, 1)%Z].
Proof. repeat split; vm_compute; reflexivity. Qed.

End EventsProofs.

(** * Messages of the missing-column errors *)

Module MessageProofs.

Import Metadata.
Import Examples.

Lemma prefix_app (sub b : string) : String.prefix sub (sub ++ b) = true.
Proof.
  induction sub as [|c sub IH]; simpl.
  - destruct b; reflexivity.
  - destruct (ascii_dec c c); [exact IH | congruence].
Qed.

Lemma prefix_app_r (sub s b : string) :
  String.prefix sub s = true -> String.prefix sub (s ++ b) = true.
Proof.
  revert s. induction sub as [|c sub IH]; intros s; simpl.
  - intros _. destruct (s ++ b)%string; reflexivity.
  - destruct s as [|c' s]; simpl; [discriminate|].
    destruct (ascii_dec c c'); [apply IH | discriminate].
Qed.

Lemma contains_prefix (sub s : string) :
  String.prefix sub s = true -> Str.contains sub s = true.
Proof. destruct s; simpl; intros ->; reflexivity. Qed.

Lemma contains_here (sub b : string) : Str.contains sub (sub ++ b) = true.
Proof. apply contains_prefix, prefix_app. Qed.

Lemma contains_app_r (sub s b : string) :
  Str.contains sub s = true -> Str.contains sub (s ++ b) = true.
Proof.
  induction s as [|c s IH]; simpl.
  - rewrite orb_false_r. intros H.
    destruct sub; [|discriminate]. destruct b; reflexivity.
  - rewrite !orb_true_iff. intros [H|H].
    + left. apply (prefix_app_r sub (String c s) b H).
    + right. apply IH. exact H.
Qed.

Lemma contains_app_l (sub a s : string) :
  Str.contains sub s = true -> Str.contains sub (a ++ s) = true.
Proof.
  intros H. induction a as [|c a IH]; simpl; [exact H|].
  rewrite IH. apply orb_true_r.
Qed.

Lemma append_empty (s : string) : (s ++ EmptyString)%string = s.
Proof. induction s; simpl; congruence. Qed.

Lemma contains_refl (x : string) : Str.contains x x = true.
Proof.
  pose proof (contains_here x EmptyString) as H. rewrite append_empty in H. exact H.
Qed.

Lemma contains_concat (sep : string) (l : list string) (x : string) :
  In x l -> Str.contains x (String.concat sep l) = true.
Proof.
  induction l as [|y l IH]; [intros []|].
  intros [->|Hin]; simpl.
  - destruct l; [apply contains_refl | apply contains_here].
  - destruct l as [|z l]; [destruct Hin|].
    apply contains_app_l, contains_app_l, IH, Hin.
Qed.

Lemma contains_repr_list (l : list string) (c : string) :
  In c l -> Str.contains (Str.repr c) (Str.repr_list l) = true.
Proof.
  intros H. unfold Str.repr_list.
  apply (contains_app_l _ "["), contains_app_r, contains_concat.
  apply in_map, H.
Qed.

Lemma insert_sorted_In (x y : string) (l : list string) :
  In y (Str.insert_sorted x l) <-> y = x \/ In y l.
Proof.
  induction l as [|z l IH]; simpl.
  - intuition congruence.
  - destruct (String.leb x z); simpl; rewrite ?IH; intuition congruence.
Qed.

Lemma sorted_In (y : string) (l : list string) : In y (Str.sorted l) <-> In y l.
Proof.
  induction l as [|x l IH]; simpl; [tauto|].
  rewrite insert_sorted_In, IH. intuition congruence.
Qed.

Lemma has_column_In (c : string) (cols : list string) :
  has_column c cols = true <-> In c cols.
Proof.
  unfold has_column. rewrite existsb_exists. split.
  - intros (x & Hx & E). apply String.eqb_eq in E. congruence.
  - intros H. exists c. split; [exact H | apply String.eqb_refl].
Qed.

(** The events step: a missing timestamp column raises a [ValueError]
    whose message names that column and every column of the table. *)
Lemma events_missing_column_message
    (str_to_float : string -> fval) (cast_out_of_range : fval -> Z)
    (metadata_df : DataFrame) (sfreq_hz : Q) (first_samp : Z)
    (timestamp_col : string) (event_id : Z) :
  has_column timestamp_col (columns metadata_df) = false ->
  exists msg : string,
    metadata_df_to_mne_events str_to_float cast_out_of_range
      metadata_df sfreq_hz first_samp timestamp_col event_id
    = Raise (ValueError msg)
    /\ Str.contains (Str.repr timestamp_col) msg = true
    /\ lists_present_columns msg metadata_df = true.
Proof.
  intros H. unfold metadata_df_to_mne_events. rewrite H. cbn [negb].
  eexists. split; [reflexivity|]. split.
  - apply contains_app_l, contains_here.
  - unfold lists_present_columns. apply forallb_forall. intros c Hc.
    do 3 apply contains_app_l.
    apply contains_repr_list, Hc.
Qed.

(** The clean step: a table without some required column raises a
    [ValueError] whose message names every required column that is
    missing. *)
Lemma clean_missing_column_message (ipu : DataFrame) (speaker : Anchor)
    (c : string) :
  In c required_cols -> has_column c (columns ipu) = false ->
  exists msg : string,
    _clean_and_prefix_ipu ipu speaker = Raise (ValueError msg)
    /\ forall c' : string,
         In c' required_cols -> has_column c' (columns ipu) = false ->
         Str.contains (Str.repr c') msg = true.
Proof.
  intros Hreq Hmiss. unfold _clean_and_prefix_ipu.
  set (missing := Str.sorted _).
  assert (Hin : forall c', In c' required_cols ->
                has_column c' (columns ipu) = false -> In c' missing).
  { intros c' H1 H2. unfold missing. apply sorted_In, filter_In.
    split; [exact H1 | rewrite H2; reflexivity]. }
  destruct missing as [|m0 ms] eqn:E.
  - destruct (Hin c Hreq Hmiss).
  - eexists. split; [reflexivity|].
    intros c' H1 H2.
    do 2 apply contains_app_l.
    apply contains_repr_list. apply Hin; assumption.
Qed.

(** C8 fails at the clean step: for a table without [rate] the message
    names the missing column and none of the five columns present. *)
Theorem C8_clean_message_omits_present_columns :
  _clean_and_prefix_ipu no_rate_df self
  = Raise (ValueError "self IPU table missing required columns: ['rate']")
  /\ lists_present_columns
       "self IPU table missing required columns: ['rate']" no_rate_df = false
  /\ forallb (fun c => negb (Str.contains (Str.repr c)
                "self IPU table missing required columns: ['rate']"))
             (columns no_rate_df) = true.
Proof. repeat split. Qed.

(** The message of the events step for the same table. *)
Example events_message_lists_columns :
  metadata_df_to_mne_events no_text_number cast_int64_min
    no_rate_df 100 0 "timestamp" 1
  = Raise (ValueError
      "metadata_df must contain column 'timestamp'. Found: ['start', 'end', 'annotation', 'duration', 'n_syllables']").
Proof. reflexivity. Qed.

End MessageProofs.

(** * Properties of the merge pass ([build_ipu_segments_from_tokens]) *)

Module MergeProofs.

Import PalignCore.
Import Tiers.

(** The loop over [merged] is the recursion [merge_from]. *)
Lemma merge_fold (min_silence_s : Q) (rest : list Segment) :
  forall (done : list Segment) (prev : Segment),
    fold_left (merge_step min_silence_s) rest (done ++ [prev])
    = done ++ merge_from min_silence_s prev rest.
Proof.
  induction rest as [|[s e] rest IH]; intros done [ps pe]; simpl.
  - reflexivity.
  - rewrite last_last, removelast_last.
    destruct (Qltb (s - pe) min_silence_s).
    + apply IH.
    + rewrite IH, <- app_assoc. reflexivity.
Qed.

Lemma merge_pass_cons (min_silence_s : Q) (first : Segment) (rest : list Segment) :
  merge_pass min_silence_s (first :: rest) = merge_from min_silence_s first rest.
Proof. apply (merge_fold min_silence_s rest [] first). Qed.

Lemma merge_from_head (min_silence_s : Q) (rest : list Segment) :
  forall prev : Segment,
    exists e tl, merge_from min_silence_s prev rest = (fst prev, e) :: tl.
Proof.
  induction rest as [|[s e] rest IH]; intros [ps pe]; simpl.
  - eauto.
  - destruct (Qltb (s - pe) min_silence_s).
    + apply (IH (ps, Qmax pe e)).
    + eauto.
Qed.

(** In the result of the merge pass consecutive segments are at least
    [min_silence_s] apart. *)
Lemma merge_from_gapped (min_silence_s : Q) (rest : list Segment) :
  forall prev : Segment, gapped min_silence_s (merge_from min_silence_s prev rest).
Proof.
  induction rest as [|[s e] rest IH]; intros [ps pe]; simpl.
  - exact I.
  - destruct (Qltb (s - pe) min_silence_s) eqn:G.
    + apply IH.
    + specialize (IH (s, e)).
      destruct (merge_from_head min_silence_s rest (s, e)) as (e' & tl & E).
      rewrite E in *. simpl. split; [|exact IH].
      apply Qltb_ge. exact G.
Qed.


Lemma merge_pass_gapped (min_silence_s : Q) (raw : list Segment) :
  gapped min_silence_s (merge_pass min_silence_s raw).
Proof.
  destruct raw as [|first rest]; [exact I|].
  rewrite merge_pass_cons. apply merge_from_gapped.
Qed.



Lemma build_ok (tokens : list Interval)
    (include_laughter include_noise include_filled_pause : bool)
    (min_silence_s : Q) :
  0 <= min_silence_s ->
  build_ipu_segments_from_tokens tokens include_laughter include_noise
    include_filled_pause min_silence_s
  = Ok (merge_pass min_silence_s
          (raw_runs (fun t => _is_token_in_ipu t include_laughter include_noise
                                include_filled_pause)
                    tokens)).
Proof.
  intros H. unfold build_ipu_segments_from_tokens.
  apply Qltb_ge in H. rewrite H. reflexivity.
Qed.



(** With a larger threshold, and a current segment that ends no earlier, the
    rest of the merge pass yields no more segments. *)
Lemma merge_from_length_mono (a b : Q) (rest : list Segment) :
  a <= b ->
  forall pa pb : Segment,
    snd pa <= snd pb ->
    (List.length (merge_from b pb rest) <= List.length (merge_from a pa rest))%nat.
Proof.
  intros Hab.
  induction rest as [|[s e] rest IH]; intros [sa ea] [sb eb] Hp; simpl in *.
  - auto.
  - destruct (Qltb (s - eb) b) eqn:Gb.
    + destruct (Qltb (s - ea) a) eqn:Ga.
      * apply IH. simpl. apply Q.max_le_compat_r. exact Hp.
      * simpl. apply Nat.le_trans with (List.length (merge_from a (s, e) rest)).
        -- apply IH. simpl. apply Q.le_max_r.
        -- auto with arith.
    + apply Qltb_ge in Gb.
      assert (Ga : Qltb (s - ea) a = false) by (apply Qltb_ge; lra).
      rewrite Ga. simpl. apply le_n_S. apply IH. simpl. apply Qle_refl.
Qed.

Lemma merge_pass_length_mono (a b : Q) (raw : list Segment) :
  a <= b ->
  (List.length (merge_pass b raw) <= List.length (merge_pass a raw))%nat.
Proof.
  intros Hab. destruct raw as [|first rest]; [auto|].
  rewrite !merge_pass_cons. apply merge_from_length_mono; [exact Hab|apply Qle_refl].
Qed.

(** C6.  For the same tokens (time-ordered or not) and inclusion flags and
    [0 <= a <= b], the function returns with both thresholds and the number
    of segments with [min_silence_s = b] is at most that with
    [min_silence_s = a]. *)
Theorem C6_larger_silence_threshold_no_more_segments
    (tokens : list Interval)
    (include_laughter include_noise include_filled_pause : bool)
    (a b : Q) :
  0 <= a -> a <= b ->
  exists segments_a segments_b : list Segment,
    build_ipu_segments_from_tokens tokens include_laughter include_noise
      include_filled_pause a = Ok segments_a
    /\ build_ipu_segments_from_tokens tokens include_laughter include_noise
         include_filled_pause b = Ok segments_b
    /\ (List.length segments_b <= List.length segments_a)%nat.
Proof.
  intros Ha Hab.
  do 2 eexists. split; [apply build_ok; exact Ha|].
  split; [apply build_ok; lra|].
  apply merge_pass_length_mono. exact Hab.
Qed.

Lemma C6_larger_silence_threshold_no_more_segments_witness :
  exists segments_a segments_b : list Segment,
    build_ipu_segments_from_tokens two_words false false true (1 # 20)
    = Ok segments_a
    /\ build_ipu_segments_from_tokens two_words false false true (2 # 10)
       = Ok segments_b
    /\ (List.length segments_b <= List.length segments_a)%nat.
Proof.
  apply (C6_larger_silence_threshold_no_more_segments
           two_words false false true (1 # 20) (2 # 10));
    intro; discriminate.
Defined.

(** The unit test of the merge: one segment at 0.2 s, two at 0.05 s. *)
Example build_two_words :
  build_ipu_segments_from_tokens two_words false false true (2 # 10)
  = Ok [(0, 1)]
  /\ build_ipu_segments_from_tokens two_words false false true (1 # 20)
     = Ok [(0, 1 # 2); (6 # 10, 1)].
Proof. split; reflexivity. Qed.

End MergeProofs.

(** * Properties of the rendered tier ([apply_min_ipu_and_render_full_tier]) *)

Module TierProofs.

Import PalignCore.
Import Tiers.

(** The rendering loop is the recursion [render_from]. *)
Lemma render_fold (ipu_label silence_label : string) (t_end : Q)
    (kept : list Segment) :
  forall (out : list Interval) (cursor : Q),
    render_tail silence_label t_end
      (fold_left (render_step ipu_label silence_label) kept (out, cursor))
    = out ++ render_from ipu_label silence_label t_end cursor kept.
Proof.
  induction kept as [|[s e] kept IH]; intros out cursor; simpl.
  - destruct (Qltb cursor t_end); [reflexivity | rewrite app_nil_r; reflexivity].
  - rewrite IH. destruct (Qltb cursor s); simpl;
      rewrite <- !app_assoc; reflexivity.
Qed.

(** Time-ordered segments that do not overlap are clear of one another. *)
Lemma ordered_clear (l : list Segment) :
  time_ordered l -> nonoverlapping l ->
  forall c : Q,
    match l with [] => True | (s, _) :: _ => c <= s end ->
    clear_from c l.
Proof.
  induction l as [|[s e] l IH]; intros Ho Hn c Hc.
  - exact I.
  - split; [exact Hc|].
    destruct l as [|[s' e'] l]; [exact I|].
    destruct Ho as [Ho1 Ho], Hn as [Hn1 Hn]. simpl in Ho1, Hn1.
    apply IH; [exact Ho | exact Hn |].
    apply Q.max_lub; [|exact Hn1].
    destruct Ho1 as [H|[H _]]; lra.
Qed.

(** What the two filters keep of such segments tiles the timeline from any
    cursor that is not past them. *)
Lemma kept_tiled (t_start t_end min_ipu_s : Q) (segs : list Segment) :
  forall c c' : Q,
    clear_from c segs ->
    c' <= Qmax t_start c ->
    tiled_from c' t_end
      (keep_positive (keep_clamped t_start t_end min_ipu_s segs)).
Proof.
  unfold keep_positive, keep_clamped.
  induction segs as [|[s e] segs IH]; intros c c' Hclear Hc; simpl.
  - exact I.
  - destruct Hclear as (Hcs & Hclear).
    assert (Hs : Qmax t_start c <= Qmax t_start s).
    { apply Q.max_le_compat_l. exact Hcs. }
    assert (Hmono : Qmax t_start s <= Qmax t_start (Qmax s e)).
    { apply Q.max_le_compat_l. apply Q.le_max_l. }
    rewrite filter_app.
    assert (Hskip : tiled_from c' t_end
                      (filter (fun '(s0, e0) => Qltb s0 e0)
                         (flat_map
                            (fun '(s0, e0) =>
                               if Qleb e0 s0 then []
                               else if Qleb min_ipu_s (e0 - s0)
                                    then [(Qmax t_start s0, Qmin t_end e0)]
                                    else []) segs))).
    { apply (IH (Qmax s e) c' Hclear). lra. }
    destruct (Qleb e s); [exact Hskip|].
    destruct (Qleb min_ipu_s (e - s)); [|exact Hskip].
    simpl. destruct (Qltb (Qmax t_start s) (Qmin t_end e)) eqn:Hpos; [|exact Hskip].
    simpl. apply Qltb_lt in Hpos.
    repeat split.
    + lra.
    + exact Hpos.
    + apply Q.le_min_l.
    + apply (IH (Qmax s e) (Qmin t_end e) Hclear).
      apply Qle_trans with e; [apply Q.le_min_r|].
      apply Qle_trans with (Qmax s e); [apply Q.le_max_r | apply Q.le_max_r].
Qed.

(** Rendering tiled segments gives a tier from the cursor to [t_end]. *)
Lemma render_tier_from (ipu_label silence_label : string) (t_end : Q)
    (kept : list Segment) :
  forall c : Q,
    c <= t_end ->
    tiled_from c t_end kept ->
    tier_from c t_end (render_from ipu_label silence_label t_end c kept).
Proof.
  induction kept as [|[s e] kept IH]; intros c Hc Ht; simpl.
  - destruct (Qltb c t_end) eqn:E; simpl.
    + apply Qltb_lt in E. repeat split; try reflexivity. exact E.
    + apply Qltb_ge in E. lra.
  - destruct Ht as (Hcs & Hse & Hte & Ht).
    destruct (Qltb c s) eqn:E; simpl.
    + apply Qltb_lt in E.
      repeat split; try reflexivity; try assumption.
      apply IH; assumption.
    + apply Qltb_ge in E.
      repeat split; try assumption; [lra|].
      apply IH; assumption.
Qed.

Lemma tier_from_positive (tier : list Interval) :
  forall c t_end : Q, tier_from c t_end tier -> positive tier.
Proof.
  induction tier as [|itv tier IH]; intros c t_end H x Hx; simpl in *.
  - destruct Hx.
  - destruct H as (_ & Hpos & H). destruct Hx as [<-|Hx]; [exact Hpos|].
    apply (IH _ _ H x Hx).
Qed.

Lemma tier_from_chained (tier : list Interval) :
  forall c t_end : Q, tier_from c t_end tier -> chained tier.
Proof.
  induction tier as [|itv tier IH]; intros c t_end H i a b Ha Hb.
  - destruct i; discriminate.
  - destruct H as (_ & _ & H). destruct i as [|i].
    + simpl in Ha, Hb. injection Ha as <-.
      destruct tier as [|b' tier]; [discriminate|].
      simpl in Hb. injection Hb as <-.
      destruct H as (Hb & _). symmetry. exact Hb.
    + apply (IH _ _ H i a b); assumption.
Qed.

Lemma tier_from_last (tier : list Interval) :
  forall (c t_end : Q) (first d : Interval),
    tier_from c t_end (first :: tier) ->
    end_ (last (first :: tier) d) == t_end.
Proof.
  induction tier as [|itv tier IH]; intros c t_end first d H.
  - simpl in *. tauto.
  - destruct H as (_ & _ & H).
    change (last (first :: itv :: tier) d) with (last (itv :: tier) d).
    apply (IH _ _ itv d H).
Qed.

Lemma tier_from_invariant (c t_end : Q) (tier : list Interval) :
  tier_from c t_end tier -> tier_invariant c t_end tier.
Proof.
  intros H. repeat split.
  - apply (tier_from_positive tier c t_end H).
  - apply (tier_from_chained tier c t_end H).
  - destruct tier as [|first tier]; [exact I|].
    split; [apply H | apply (tier_from_last tier c t_end first first H)].
Qed.

Lemma drop_empty_positive (tier : list Interval) :
  positive tier -> drop_empty tier = tier.
Proof.
  unfold positive, drop_empty. induction tier as [|itv tier IH]; intros H; simpl.
  - reflexivity.
  - assert (E : Qltb (start itv) (end_ itv) = true).
    { apply Qltb_lt. apply H. left. reflexivity. }
    rewrite E. f_equal. apply IH. intros x Hx. apply H. right. exact Hx.
Qed.

(** C3, as stated, fails: two segments in time order that overlap are both
    rendered, and the first ends at 5 s while the second starts at 3 s. *)
Lemma C3_overlapping_segments_are_rendered_overlapping :
  time_ordered overlapping_segments
  /\ apply_min_ipu_and_render_full_tier 0 10 overlapping_segments 0 "IPU" "#"
     = Ok [ mkInterval 0 5 "IPU"; mkInterval 3 8 "IPU"; mkInterval 8 10 "#" ]
  /\ ~ tier_invariant 0 10
         [ mkInterval 0 5 "IPU"; mkInterval 3 8 "IPU"; mkInterval 8 10 "#" ].
Proof.
  split; [|split].
  - simpl. split; [left; reflexivity | exact I].
  - reflexivity.
  - intros (_ & Hc & _).
    specialize (Hc 0%nat _ _ eq_refl eq_refl). discriminate Hc.
Qed.

(** C3, amended.  For [t_start <= t_end], [min_ipu_s >= 0] and a
    time-ordered segment list in which no segment starts before the end of
    the one before it, the function returns a tier whose intervals have
    strictly positive duration, with [tier[i].end == tier[i+1].start] for
    all adjacent pairs and, when the tier is not empty,
    [tier[0].start == t_start] and [tier[-1].end == t_end]; the tier is
    empty only when [t_start == t_end]. *)
Theorem C3_tier_covers_timeline_without_gaps
    (t_start t_end : Q) (ipu_segments : list Segment) (min_ipu_s : Q)
    (ipu_label silence_label : string) :
  t_start <= t_end ->
  0 <= min_ipu_s ->
  time_ordered ipu_segments ->
  nonoverlapping ipu_segments ->
  exists tier : list Interval,
    apply_min_ipu_and_render_full_tier t_start t_end ipu_segments min_ipu_s
      ipu_label silence_label = Ok tier
    /\ (forall itv, In itv tier -> start itv < end_ itv)
    /\ (forall (i : nat) (a b : Interval),
          nth_error tier i = Some a -> nth_error tier (S i) = Some b ->
          end_ a == start b)
    /\ (forall first : Interval,
          hd_error tier = Some first ->
          start first == t_start /\ end_ (last tier first) == t_end)
    /\ (tier = [] -> t_start == t_end).
Proof.
  intros Ht Hmin Hord Hsep.
  set (kept := keep_positive (keep_clamped t_start t_end min_ipu_s ipu_segments)).
  assert (Hk : tiled_from t_start t_end kept).
  { unfold kept. destruct ipu_segments as [|[s e] segs].
    - exact I.
    - apply (kept_tiled t_start t_end min_ipu_s ((s, e) :: segs) s t_start).
      + apply ordered_clear; [exact Hord | exact Hsep | apply Qle_refl].
      + apply Q.le_max_l. }
  pose proof (render_tier_from ipu_label silence_label t_end kept t_start Ht Hk) as Htier.
  set (tier := render_from ipu_label silence_label t_end t_start kept) in *.
  exists tier. split.
  - unfold apply_min_ipu_and_render_full_tier.
    apply Qltb_ge in Ht. rewrite Ht. apply Qltb_ge in Hmin. rewrite Hmin.
    fold kept. rewrite render_fold. simpl. fold tier.
    rewrite drop_empty_positive; [reflexivity|].
    apply (tier_from_positive tier t_start t_end Htier).
  - destruct (tier_from_invariant t_start t_end tier Htier) as (Hp & Hc & Hs).
    repeat split.
    + exact Hp.
    + exact Hc.
    + destruct tier; [discriminate|]. simpl in H. injection H as <-. apply Hs.
    + destruct tier; [discriminate|]. simpl in H. injection H as <-. apply Hs.
    + intros E. rewrite E in Htier. exact Htier.
Qed.

Lemma C3_tier_covers_timeline_without_gaps_witness :
  exists tier : list Interval,
    apply_min_ipu_and_render_full_tier 0 2 [(1 # 2, 1); (15 # 10, 152 # 100)]
      (5 # 100) "IPU" "#" = Ok tier
    /\ (forall itv, In itv tier -> start itv < end_ itv)
    /\ (forall (i : nat) (a b : Interval),
          nth_error tier i = Some a -> nth_error tier (S i) = Some b ->
          end_ a == start b)
    /\ (forall first : Interval,
          hd_error tier = Some first ->
          start first == 0 /\ end_ (last tier first) == 2)
    /\ (tier = [] -> 0 == 2).
Proof.
  apply (C3_tier_covers_timeline_without_gaps 0 2
           [(1 # 2, 1); (15 # 10, 152 # 100)] (5 # 100) "IPU" "#").
  - intro; discriminate.
  - intro; discriminate.
  - simpl. split; [left; reflexivity | exact I].
  - simpl. split; [intro; discriminate | exact I].
Defined.

(** The unit test of the rendering: the short second segment is silence. *)
Example render_unit_test :
  apply_min_ipu_and_render_full_tier 0 2 [(1 # 2, 1); (15 # 10, 152 # 100)]
    (5 # 100) "IPU" "#"
  = Ok [ mkInterval 0 (1 # 2) "#"; mkInterval (1 # 2) 1 "IPU"; mkInterval 1 2 "#" ].
Proof. reflexivity. Qed.

End TierProofs.

(** * From tokens to the tier *)

Module PipelineProofs.

Import PalignCore.
Import Tiers.

Lemma scan_step_forward (in_ipu : string -> bool) (st : ScanState) (itv : Interval) :
  start itv <= end_ itv -> scan_forward st -> scan_forward (scan_step in_ipu st itv).
Proof.
  intros Hw [Hraw Hcur]. destruct st as [raw [cs|] [ce|]];
    unfold scan_step, scan_forward in *; simpl in *; try contradiction.
  - destruct (in_ipu (text itv)); simpl; split; try assumption; try exact I.
    + apply Qle_trans with ce; [exact Hcur | apply Q.le_max_l].
    + apply Forall_app. split; [exact Hraw|].
      constructor; [exact Hcur | constructor].
  - destruct (in_ipu (text itv)); simpl; split; assumption.
Qed.

Lemma scan_forward_fold (in_ipu : string -> bool) (tokens : list Interval) :
  well_formed tokens ->
  forall st, scan_forward st -> scan_forward (fold_left (scan_step in_ipu) tokens st).
Proof.
  induction 1 as [|itv tokens Hw _ IH]; intros st Hst; simpl.
  - exact Hst.
  - apply IH. apply scan_step_forward; assumption.
Qed.

Lemma raw_runs_forward (in_ipu : string -> bool) (tokens : list Interval) :
  well_formed tokens -> forward (raw_runs in_ipu tokens).
Proof.
  intros Hw. unfold raw_runs.
  assert (H0 : scan_forward scan_init) by (split; [constructor | exact I]).
  destruct (scan_forward_fold in_ipu tokens Hw scan_init H0) as [Hraw Hcur].
  unfold scan_flush.
  destruct (current_start _) as [cs|], (current_end _) as [ce|];
    try contradiction; try exact Hraw.
  apply Forall_app. split; [exact Hraw|]. constructor; [exact Hcur | constructor].
Qed.

Lemma merge_from_forward (min_silence_s : Q) (rest : list Segment) :
  forall prev : Segment,
    fst prev <= snd prev -> forward rest ->
    forward (merge_from min_silence_s prev rest).
Proof.
  induction rest as [|[s e] rest IH]; intros [ps pe] Hp Hr; simpl in *.
  - constructor; [exact Hp | constructor].
  - inversion Hr as [|? ? Hse Hr']; subst.
    destruct (Qltb (s - pe) min_silence_s).
    + apply IH; [|exact Hr']. simpl.
      apply Qle_trans with pe; [exact Hp | apply Q.le_max_l].
    + constructor; [exact Hp|]. apply IH; assumption.
Qed.

Lemma merge_pass_forward (min_silence_s : Q) (raw : list Segment) :
  forward raw -> forward (merge_pass min_silence_s raw).
Proof.
  destruct raw as [|first rest]; [auto|]. intros H.
  rewrite MergeProofs.merge_pass_cons.
  inversion H; subst. apply merge_from_forward; assumption.
Qed.

Lemma gapped_nonoverlapping (gap : Q) (l : list Segment) :
  0 <= gap -> gapped gap l -> nonoverlapping l.
Proof.
  intros Hg. induction l as [|a [|b l] IH]; intros H; try exact I.
  destruct H as [G H]. split; [lra | apply IH; exact H].
Qed.

Lemma forward_time_ordered (l : list Segment) :
  forward l -> nonoverlapping l -> time_ordered l.
Proof.
  induction l as [|[s e] [|[s' e'] l] IH]; intros Hf Hn; try exact I.
  inversion Hf as [|? ? Hse Hf']; subst.
  inversion Hf' as [|? ? Hse' _]; subst.
  destruct Hn as [Hn1 Hn]. simpl in *.
  split; [|apply IH; assumption].
  destruct (Qlt_le_dec s s') as [L|L]; [left; exact L|].
  right. split; lra.
Qed.

(** The segments built from well-formed tokens are time-ordered and do not
    overlap: they are segments the tier is rendered from. *)
Lemma build_time_ordered_nonoverlapping (tokens : list Interval)
    (include_laughter include_noise include_filled_pause : bool)
    (min_silence_s : Q) :
  0 <= min_silence_s -> well_formed tokens ->
  exists segments : list Segment,
    build_ipu_segments_from_tokens tokens include_laughter include_noise
      include_filled_pause min_silence_s = Ok segments
    /\ time_ordered segments
    /\ nonoverlapping segments.
Proof.
  intros Hms Hw. eexists. split; [apply MergeProofs.build_ok; exact Hms|].
  set (segs := merge_pass _ _).
  assert (Hn : nonoverlapping segs).
  { apply (gapped_nonoverlapping min_silence_s _ Hms).
    apply MergeProofs.merge_pass_gapped. }
  assert (Hf : forward segs) by (apply merge_pass_forward, raw_runs_forward, Hw).
  split; [apply forward_time_ordered; assumption | exact Hn].
Qed.

(** The end-to-end scenario: the tokens of the unit test, merged at 0.2 s
    and rendered over [0, 2] with one more segment of 0.02 s. *)
Example end_to_end_scenario :
  build_ipu_segments_from_tokens two_words false false true (2 # 10) = Ok [(0, 1)]
  /\ apply_min_ipu_and_render_full_tier 0 2 [(0, 1); (15 # 10, 152 # 100)]
       (5 # 100) "activity" "background"
     = Ok [ mkInterval 0 1 "activity"; mkInterval 1 2 "background" ].
Proof. split; reflexivity. Qed.

End PipelineProofs.

(** * Properties of the filename pattern and of partner inference *)

Module PartnerProofs.

Import Metadata.
Import Examples.

Local Open Scope string_scope.

Lemma push_all_closed (s : string) :
  forall st : Re.caps,
    Re.opened st = None -> Re.push_all st s = st.
Proof.
  induction s as [|c s IH]; intros st H; simpl; [reflexivity|].
  unfold Re.push. rewrite H. apply IH. exact H.
Qed.

Lemma push_all_opened (s : string) :
  forall (done : list string) (g : string),
    Re.push_all (Re.mkCaps done (Some g)) s = Re.mkCaps done (Some (g ++ s)%string).
Proof.
  induction s as [|c s IH]; intros done g; simpl.
  - rewrite MessageProofs.append_empty. reflexivity.
  - unfold Re.push. simpl. rewrite IH. do 2 f_equal.
    clear. induction g; simpl; congruence.
Qed.

(** A star that succeeds read some characters of its class and handed the
    rest to its continuation. *)
Lemma star_some (k : Re.cls) (cont : Re.Cont) (s : string) :
  forall (st : Re.caps) (r : list string),
    Re.star k cont s st = Some r ->
    exists pre rest : string,
      s = (pre ++ rest)%string
      /\ Re.all_accept k pre = true
      /\ cont rest (Re.push_all st pre) = Some r.
Proof.
  induction s as [|c s IH]; intros st r H; simpl in H.
  - exists EmptyString, EmptyString. auto.
  - destruct (Re.accepts k c) eqn:A.
    + destruct (Re.star k cont s (Re.push st c)) as [r'|] eqn:S.
      * injection H as <-.
        destruct (IH _ _ S) as (pre & rest & -> & Hpre & Hc).
        exists (String c pre), rest. simpl. rewrite A. auto.
      * exists EmptyString, (String c s). auto.
    + exists EmptyString, (String c s). auto.
Qed.

Lemma search_some (p : list Re.item) (s : string) :
  forall groups : list string,
    Re.search p s = Some groups ->
    exists pre rest : string,
      s = (pre ++ rest)%string
      /\ Re.match_here p rest (Re.mkCaps [] None) = Some groups.
Proof.
  induction s as [|c s IH]; intros groups H; simpl in H.
  - exists EmptyString, EmptyString.
    destruct (Re.match_here p EmptyString (Re.mkCaps [] None)); [auto | discriminate].
  - destruct (Re.match_here p (String c s) (Re.mkCaps [] None)) eqn:M.
    + exists EmptyString, (String c s). injection H as <-. auto.
    + destruct (IH groups H) as (pre & rest & -> & Hm).
      exists (String c pre), rest. auto.
Qed.

Ltac one_char s c H A :=
  destruct s as [|c s]; [discriminate H|];
  destruct (Re.accepts _ c) eqn:A; [|discriminate H].

Lemma accepts_chr (c c' : ascii) : Re.accepts (Re.Chr c') c = true -> c = c'.
Proof. simpl. apply Ascii.eqb_eq. Qed.

(** What [run-(\d+)] matches: the text [run-], then digits, as many as
    there are, which close a group. *)
Lemma match_run_part (s : string) (st : Re.caps) (g : list string) :
  Re.opened st = None ->
  Re.match_here run_part s st = Some g ->
  exists run tail : string,
    s = ("run-" ++ run ++ tail)%string
    /\ g = rev (run :: Re.closed st)
    /\ Re.all_accept Re.Digit run = true
    /\ run <> EmptyString.
Proof.
  intros Hst H. destruct st as [cl op]. simpl in Hst. subst op.
  cbn [run_part Re.lit list_ascii_of_string map app Re.match_here] in H.
  one_char s c1 H A1. one_char s c2 H A2. one_char s c3 H A3. one_char s c4 H A4.
  one_char s d H D.
  apply accepts_chr in A1, A2, A3, A4. subst.
  apply star_some in H. destruct H as (pre & rest & -> & Hpre & H).
  injection H as <-.
  change (Re.push _ d) with (Re.mkCaps cl (Some (String d EmptyString))).
  rewrite push_all_opened. simpl.
  exists (String d pre), rest. repeat split.
  - simpl. simpl in D. rewrite D, Hpre. reflexivity.
  - discriminate.
Qed.

(** What the default pattern matches at the start of a text: two groups,
    three digits and a run of digits. *)
Lemma match_default (s : string) (g : list string) :
  Re.match_here (Re.items DEFAULT_IPU_FILENAME_PATTERN) s (Re.mkCaps [] None) = Some g ->
  exists id run : string,
    g = [id; run] /\ three_digits id
    /\ Re.all_accept Re.Digit run = true /\ run <> EmptyString.
Proof.
  intros H.
  cbn [Re.items DEFAULT_IPU_FILENAME_PATTERN Re.lit list_ascii_of_string map app
       Re.match_here] in H.
  one_char s c1 H A1. one_char s c2 H A2. one_char s c3 H A3. one_char s c4 H A4.
  one_char s d1 H D1. one_char s d2 H D2. one_char s d3 H D3.
  assert (H' : Re.star Re.Dot (Re.match_here run_part) s
                 (Re.mkCaps [String d1 (String d2 (String d3 EmptyString))] None) = Some g)
    by exact H.
  clear H. apply star_some in H'. destruct H' as (pre & rest & -> & _ & H).
  rewrite push_all_closed in H by reflexivity.
  apply match_run_part in H; [|reflexivity].
  destruct H as (run & tail & -> & -> & Hrun & Hne).
  exists (String d1 (String d2 (String d3 EmptyString))), run. repeat split; try assumption.
  exists d1, d2, d3. auto.
Qed.

Lemma is_digit_cases (c : ascii) :
  Re.is_digit c = true ->
  In c ["0"; "1"; "2"; "3"; "4"; "5"; "6"; "7"; "8"; "9"]%char.
Proof.
  intros H. destruct c as [[] [] [] [] [] [] [] []];
    vm_compute in H; try discriminate H; simpl; tauto.
Qed.

(** Three digits spell a number below 1000. *)
Lemma three_digits_number (id : string) :
  three_digits id ->
  String.length id = 3%nat
  /\ exists n : Z, Str.to_Z id = Some n /\ (0 <= n < 1000)%Z.
Proof.
  intros (c1 & c2 & c3 & -> & H1 & H2 & H3). split; [reflexivity|].
  apply is_digit_cases in H1, H2, H3. simpl in H1, H2, H3.
  repeat match goal with
         | H : _ \/ _ |- _ => destruct H as [<-|H]
         | H : False |- _ => destruct H
         end;
    (eexists; split; [vm_compute; reflexivity | lia]).
Qed.

(** A star fails when its continuation fails wherever the star may stop. *)
Lemma star_none (k : Re.cls) (cont : Re.Cont) (s : string) :
  forall st : Re.caps,
    (forall pre rest : string,
       s = (pre ++ rest)%string -> Re.all_accept k pre = true ->
       cont rest (Re.push_all st pre) = None) ->
    Re.star k cont s st = None.
Proof.
  induction s as [|c s IH]; intros st H; simpl.
  - apply (H EmptyString EmptyString eq_refl eq_refl).
  - destruct (Re.accepts k c) eqn:A.
    + rewrite IH.
      * apply (H EmptyString (String c s) eq_refl eq_refl).
      * intros pre rest -> Hpre.
        apply (H (String c pre) rest eq_refl). simpl. rewrite A. exact Hpre.
    + apply (H EmptyString (String c s) eq_refl eq_refl).
Qed.

(** A star stops at the last place from which its continuation succeeds. *)
Lemma star_last (k : Re.cls) (cont : Re.Cont) (pre rest : string) (r : list string) :
  forall st : Re.caps,
    Re.all_accept k pre = true ->
    cont rest (Re.push_all st pre) = Some r ->
    (forall (c : ascii) (rest' : string),
       rest = String c rest' -> Re.accepts k c = true ->
       Re.star k cont rest' (Re.push (Re.push_all st pre) c) = None) ->
    Re.star k cont (pre ++ rest) st = Some r.
Proof.
  induction pre as [|c pre IH]; intros st Hpre Hc Hlater; simpl in *.
  - destruct rest as [|c rest']; simpl; [exact Hc|].
    destruct (Re.accepts k c) eqn:A; [|exact Hc].
    rewrite (Hlater c rest' eq_refl A). exact Hc.
  - apply andb_true_iff in Hpre. destruct Hpre as [A Hpre]. rewrite A.
    rewrite (IH (Re.push st c) Hpre Hc Hlater). reflexivity.
Qed.

Lemma run_part_starts_with_r (s : string) (st : Re.caps) :
  without_char "r" s = true -> Re.match_here run_part s st = None.
Proof.
  intros H. destruct s as [|c s]; [reflexivity|].
  cbn [run_part Re.lit list_ascii_of_string map app Re.match_here].
  simpl in H. apply andb_true_iff in H. destruct H as [H _].
  simpl. destruct (Ascii.eqb c "r"); [discriminate H | reflexivity].
Qed.

Lemma without_char_app (c : ascii) (a b : string) :
  without_char c (a ++ b) = without_char c a && without_char c b.
Proof.
  induction a as [|x a IH]; simpl; [reflexivity|].
  rewrite IH, andb_assoc. reflexivity.
Qed.

Lemma digits_without_r (s : string) :
  Re.all_accept Re.Digit s = true -> without_char "r" s = true.
Proof.
  induction s as [|c s IH]; simpl; [reflexivity|].
  intros H. apply andb_true_iff in H. destruct H as [D H].
  rewrite (IH H), andb_true_r.
  apply is_digit_cases in D. simpl in D.
  repeat destruct D as [<-|D]; try reflexivity. destruct D.
Qed.

Lemma search_here (p : list Re.item) (s : string) (groups : list string) :
  Re.match_here p s (Re.mkCaps [] None) = Some groups ->
  Re.search p s = Some groups.
Proof. intros H. destruct s; simpl; rewrite H; reflexivity. Qed.

(** A stem of the documented shape, [sub-<id><mid>run-<run><tail>]: the
    pattern is found at its start, with the id and the run as groups. *)
Lemma search_well_formed_stem (id mid run tail : string) :
  three_digits id ->
  Re.all_accept Re.Dot mid = true ->
  Re.all_accept Re.Digit run = true -> run <> EmptyString ->
  without_char "r" tail = true -> starts_with_digit tail = false ->
  Re.search (Re.items DEFAULT_IPU_FILENAME_PATTERN)
            ("sub-" ++ id ++ mid ++ "run-" ++ run ++ tail)
  = Some [id; run].
Proof.
  intros (c1 & c2 & c3 & -> & H1 & H2 & H3) Hmid Hrun Hne Htail Hdig.
  destruct run as [|d run]; [congruence|]. clear Hne.
  simpl in Hrun. apply andb_true_iff in Hrun. destruct Hrun as [Hd Hrun].
  assert (M : Re.match_here (Re.items DEFAULT_IPU_FILENAME_PATTERN)
                ("sub-" ++ String c1 (String c2 (String c3 EmptyString)) ++ mid ++ "run-"
                        ++ String d run ++ tail)
                (Re.mkCaps [] None)
              = Some [String c1 (String c2 (String c3 EmptyString)); String d run]).
  { cbn [Re.items DEFAULT_IPU_FILENAME_PATTERN Re.lit list_ascii_of_string map app
         Re.match_here String.append].
    cbn [Re.accepts]. rewrite !Ascii.eqb_refl, H1, H2, H3.
    change (Re.star Re.Dot (Re.match_here run_part)
              (mid ++ "run-" ++ String d run ++ tail)
              (Re.mkCaps [String c1 (String c2 (String c3 EmptyString))] None)
            = Some [String c1 (String c2 (String c3 EmptyString)); String d run]).
    apply star_last.
    - exact Hmid.
    - rewrite push_all_closed by reflexivity.
      cbn [run_part Re.lit list_ascii_of_string map app Re.match_here String.append].
      cbn [Re.accepts]. rewrite !Ascii.eqb_refl, Hd.
      change (Re.star Re.Digit (Re.match_here [Re.Close]) (run ++ tail)
                (Re.mkCaps [String c1 (String c2 (String c3 EmptyString))] (Some (String d EmptyString)))
              = Some [String c1 (String c2 (String c3 EmptyString)); String d run]).
      apply star_last.
      + exact Hrun.
      + rewrite push_all_opened. reflexivity.
      + intros c rest' -> A. simpl in Hdig, A. congruence.
    - intros c rest' E _. rewrite push_all_closed by reflexivity.
      simpl in E. injection E as <- <-.
      apply star_none. intros pre rest E _.
      apply run_part_starts_with_r.
      assert (W : without_char "r" (pre ++ rest) = true).
      { rewrite <- E.
        change (without_char "r" (String d run ++ tail) = true).
        rewrite without_char_app, Htail, andb_true_r.
        apply (digits_without_r (String d run)). simpl. rewrite Hd, Hrun. reflexivity. }
      rewrite without_char_app in W. apply andb_true_iff in W. tauto. }
  apply search_here. exact M.
Qed.

Lemma search_default_groups (stem : string) (groups : list string) :
  Re.search (Re.items DEFAULT_IPU_FILENAME_PATTERN) stem = Some groups ->
  exists id run : string,
    groups = [id; run] /\ three_digits id
    /\ Re.all_accept Re.Digit run = true /\ run <> EmptyString.
Proof.
  intros H. apply search_some in H. destruct H as (pre & rest & _ & H).
  apply (match_default rest groups H).
Qed.

Lemma mod_2_even (n : Z) : (n mod 2 =? 0)%Z = Z.even n.
Proof. rewrite Zmod_even. destruct (Z.even n); reflexivity. Qed.

Lemma infer_well_formed_stem (id mid run tail : string) (n : Z) :
  three_digits id ->
  Re.all_accept Re.Dot mid = true ->
  Re.all_accept Re.Digit run = true -> run <> EmptyString ->
  without_char "r" tail = true -> starts_with_digit tail = false ->
  Str.to_Z id = Some n ->
  infer_partner_id_and_run_from_ipu_path
    ("sub-" ++ id ++ mid ++ "run-" ++ run ++ tail) DEFAULT_IPU_FILENAME_PATTERN
  = Ok (Str.zfill 3 (Str.of_Z (partner_of n)), run).
Proof.
  intros Hid Hmid Hrun Hne Htail Hdig Hn.
  unfold infer_partner_id_and_run_from_ipu_path.
  rewrite (search_well_formed_stem id mid run tail) by assumption.
  simpl. unfold py_int. rewrite Hn. simpl. rewrite mod_2_even. reflexivity.
Qed.

Lemma partner_ids_read_back : forallb partner_id_reads_back (seq 1 998) = true.
Proof. vm_compute. reflexivity. Qed.

(** For the subjects 1 to 998 the partner identifier keeps the three
    characters of the id and reads back as the partner's number. *)
Lemma partner_keeps_width (n : Z) :
  (1 <= n <= 998)%Z ->
  String.length (Str.zfill 3 (Str.of_Z (partner_of n))) = 3%nat
  /\ Str.to_Z (Str.zfill 3 (Str.of_Z (partner_of n))) = Some (partner_of n).
Proof.
  intros Hn.
  pose proof partner_ids_read_back as H. rewrite forallb_forall in H.
  specialize (H (Z.to_nat n)).
  assert (Hin : In (Z.to_nat n) (seq 1 998)) by (apply in_seq; lia).
  specialize (H Hin). unfold partner_id_reads_back in H.
  rewrite Z2Nat.id in H by lia.
  apply andb_true_iff in H. destruct H as [H1 H2].
  split; [apply Nat.eqb_eq; exact H1|].
  destruct (Str.to_Z _) as [m|]; [|discriminate].
  apply Z.eqb_eq in H2. congruence.
Qed.

Lemma three_digits_b_spec (s : string) : PartnerPath.three_digits_b s = true -> three_digits s.
Proof.
  destruct s as [|c1 [|c2 [|c3 [|c4 s]]]]; simpl; try discriminate.
  intros H. apply andb_true_iff in H. destruct H as [H H3].
  apply andb_true_iff in H. destruct H as [H1 H2].
  exists c1, c2, c3. auto.
Qed.

Lemma partner_ids_have_three_digits :
  forallb PartnerPath.partner_id_has_three_digits (seq 1 998) = true.
Proof. vm_compute. reflexivity. Qed.

Lemma partner_id_three_digits (n : Z) :
  (1 <= n <= 998)%Z -> three_digits (Str.zfill 3 (Str.of_Z (partner_of n))).
Proof.
  intros Hn. pose proof partner_ids_have_three_digits as H.
  rewrite forallb_forall in H. specialize (H (Z.to_nat n)).
  assert (Hin : In (Z.to_nat n) (seq 1 998)) by (apply in_seq; lia).
  specialize (H Hin). unfold PartnerPath.partner_id_has_three_digits in H.
  rewrite Z2Nat.id in H by lia. apply three_digits_b_spec. exact H.
Qed.

(** C9, as stated, fails: the id 999 is odd, and its partner is written
    [1000], four characters for the three of the id. *)
Lemma C9_id_999_is_padded_to_four_characters :
  Re.search (Re.items DEFAULT_IPU_FILENAME_PATTERN) "sub-999_run-1"
  = Some ["999"; "1"]
  /\ Str.to_Z "999" = Some 999%Z
  /\ Z.even 999 = false
  /\ infer_partner_id_and_run_from_ipu_path "sub-999_run-1"
       DEFAULT_IPU_FILENAME_PATTERN = Ok ("1000", "1")
  /\ String.length "1000" <> String.length "999".
Proof. repeat split. simpl. discriminate. Qed.

(** The partner of the subjects 1 to 998, as the function writes it: three
    digits that spell [n - 1] when [n] is even and [n + 1] when it is
    odd. *)
Lemma partner_written (id : string) (n : Z) :
  three_digits id -> Str.to_Z id = Some n -> (1 <= n <= 998)%Z ->
  let other := Str.zfill 3 (Str.of_Z (partner_of n)) in
  String.length other = String.length id
  /\ three_digits other
  /\ Str.to_Z other = Some (if Z.even n then n - 1 else n + 1)%Z.
Proof.
  intros Hid Hn Hrange other.
  destruct (three_digits_number id Hid) as (Hlen & _).
  destruct (partner_keeps_width n Hrange) as (Hw & Hback).
  repeat split.
  - unfold other. rewrite Hw, Hlen. reflexivity.
  - apply partner_id_three_digits. exact Hrange.
  - exact Hback.
Qed.

(** C9, amended.  On an ASCII stem: when the default pattern is found, its
    two groups are the subject id, three digits, and the run number, a run
    of digits; for an id that spells a number [n] from 1 to 998 the
    function returns the run number as it is and a partner id of three
    digits, the width of the id, that spells [n - 1] when [n] is even and
    [n + 1] when it is odd.  A stem of the documented shape,
    [sub-<id><mid>run-<run><tail>], is such a stem.  When the pattern is
    not found the function raises a [RuntimeError]. *)
Theorem C9_partner_is_the_other_of_the_pair (stem : string) :
  is_ascii stem = true ->
  (forall (id mid run tail : string) (n : Z),
     stem = "sub-" ++ id ++ mid ++ "run-" ++ run ++ tail ->
     three_digits id ->
     Re.all_accept Re.Dot mid = true ->
     Re.all_accept Re.Digit run = true -> run <> EmptyString ->
     without_char "r" tail = true -> starts_with_digit tail = false ->
     Str.to_Z id = Some n -> (1 <= n <= 998)%Z ->
     exists other : string,
       infer_partner_id_and_run_from_ipu_path stem DEFAULT_IPU_FILENAME_PATTERN
       = Ok (other, run)
       /\ String.length other = String.length id
       /\ three_digits other
       /\ Str.to_Z other = Some (if Z.even n then n - 1 else n + 1)%Z)
  /\ match Re.search (Re.items DEFAULT_IPU_FILENAME_PATTERN) stem with
     | Some groups =>
         exists (id run : string) (n : Z),
           groups = [id; run]
           /\ three_digits id
           /\ Re.all_accept Re.Digit run = true /\ run <> EmptyString
           /\ Str.to_Z id = Some n /\ (0 <= n < 1000)%Z
           /\ ((1 <= n <= 998)%Z ->
               exists other : string,
                 infer_partner_id_and_run_from_ipu_path stem
                   DEFAULT_IPU_FILENAME_PATTERN
                 = Ok (other, run)
                 /\ String.length other = String.length id
                 /\ three_digits other
                 /\ Str.to_Z other = Some (if Z.even n then n - 1 else n + 1)%Z)
     | None =>
         exists msg : string,
           infer_partner_id_and_run_from_ipu_path stem DEFAULT_IPU_FILENAME_PATTERN
           = Raise (RuntimeError msg)
     end.
Proof.
  intros _. split.
  - intros id mid run tail n -> Hid Hmid Hrun Hne Htail Hdig Hn Hrange.
    exists (Str.zfill 3 (Str.of_Z (partner_of n))). split.
    + apply infer_well_formed_stem; assumption.
    + apply (partner_written id n Hid Hn Hrange).
  - unfold infer_partner_id_and_run_from_ipu_path.
    destruct (Re.search (Re.items DEFAULT_IPU_FILENAME_PATTERN) stem)
      as [groups|] eqn:S.
    + destruct (search_default_groups stem groups S)
        as (id & run & -> & Hid & Hrun & Hne).
      destruct (three_digits_number id Hid) as (Hlen & n & Hn & Hn1000).
      exists id, run, n. repeat split; try assumption; try lia.
      intros Hrange.
      exists (Str.zfill 3 (Str.of_Z (partner_of n))). split.
      * simpl. unfold py_int. rewrite Hn. simpl.
        rewrite mod_2_even. reflexivity.
      * apply (partner_written id n Hid Hn Hrange).
    + eexists. reflexivity.
Qed.

Lemma C9_partner_is_the_other_of_the_pair_witness :
  is_ascii "sub-001_run-3_ipu" = true
  /\ exists other : string,
       infer_partner_id_and_run_from_ipu_path "sub-001_run-3_ipu"
         DEFAULT_IPU_FILENAME_PATTERN
       = Ok (other, "3")
       /\ String.length other = String.length "001"
       /\ three_digits other
       /\ Str.to_Z other = Some 2%Z.
Proof.
  split; [reflexivity|].
  apply (proj1 (C9_partner_is_the_other_of_the_pair "sub-001_run-3_ipu" eq_refl)
           "001" "_" "3" "_ipu" 1%Z); try reflexivity; try lia.
  - exists "0"%char, "0"%char, "1"%char. repeat split.
  - discriminate.
Defined.

(** The identifiers of the unit tests and of the docstring. *)
Example infer_examples :
  infer_partner_id_and_run_from_ipu_path "sub-001_run-3_ipu"
    DEFAULT_IPU_FILENAME_PATTERN = Ok ("002", "3")
  /\ infer_partner_id_and_run_from_ipu_path "sub-002_task-conversation_run-3_ipu"
       DEFAULT_IPU_FILENAME_PATTERN = Ok ("001", "3")
  /\ infer_partner_id_and_run_from_ipu_path "bad-name"
       DEFAULT_IPU_FILENAME_PATTERN
     = Raise (RuntimeError
         "IPU filename must match pattern 'sub-(\\d{3}).*run-(\\d+)', got stem='bad-name'").
Proof. repeat split. Qed.

(** At the ends of the range the padding does not give three digits. *)
Example infer_edge_ids :
  infer_partner_id_and_run_from_ipu_path "sub-999_run-1"
    DEFAULT_IPU_FILENAME_PATTERN = Ok ("1000", "1")
  /\ infer_partner_id_and_run_from_ipu_path "sub-000_run-1"
       DEFAULT_IPU_FILENAME_PATTERN = Ok ("-01", "1").
Proof. repeat split. Qed.

End PartnerProofs.

(** * The first pass: runs of speech tokens *)

Module RunProofs.

Import PalignCore.
Import Tiers.
Import Runs.

Lemma scan_step_consistent (in_ipu : string -> bool) (st : ScanState)
    (itv : Interval) :
  consistent st -> consistent (scan_step in_ipu st itv).
Proof.
  destruct st as [raw [cs|] [ce|]]; unfold consistent, scan_step; simpl;
    intros H; try contradiction; destruct (in_ipu (text itv)); exact I.
Qed.

(** The loop over the tokens and the flush are the recursion [runs_from]. *)
Lemma scan_fold (in_ipu : string -> bool) (tokens : list Interval) :
  forall st : ScanState,
    consistent st ->
    scan_flush (fold_left (scan_step in_ipu) tokens st)
    = raw_segments st ++ runs_from in_ipu (open_run st) tokens.
Proof.
  induction tokens as [|itv tokens IH]; intros st Hc.
  - destruct st as [raw [cs|] [ce|]]; unfold consistent in Hc; simpl in Hc;
      try contradiction; unfold scan_flush, open_run; simpl;
      rewrite ?app_nil_r; reflexivity.
  - simpl fold_left. rewrite IH by (apply scan_step_consistent; exact Hc).
    destruct st as [raw [cs|] [ce|]]; unfold consistent in Hc; simpl in Hc;
      try contradiction; unfold scan_step, open_run; simpl;
      destruct (in_ipu (text itv)); simpl; rewrite <- ?app_assoc; reflexivity.
Qed.

Lemma raw_runs_runs_from (in_ipu : string -> bool) (tokens : list Interval) :
  raw_runs in_ipu tokens = runs_from in_ipu None tokens.
Proof.
  unfold raw_runs. rewrite scan_fold by exact I. reflexivity.
Qed.

Lemma Qmax_cases (a b : Q) : Qmax a b = a \/ Qmax a b = b.
Proof. rewrite Qmax_py. destruct (Qltb a b); auto. Qed.

(** An open run comes out first, with its start and an end that is no
    earlier. *)
Lemma runs_from_open (in_ipu : string -> bool) (tokens : list Interval) :
  forall cs ce : Q,
    exists (ce' : Q) (tl : list Segment),
      runs_from in_ipu (Some (cs, ce)) tokens = (cs, ce') :: tl /\ ce <= ce'.
Proof.
  induction tokens as [|itv tokens IH]; intros cs ce; simpl.
  - exists ce, []. split; [reflexivity | apply Qle_refl].
  - destruct (in_ipu (text itv)).
    + destruct (IH cs (Qmax ce (end_ itv))) as (ce' & tl & E & H).
      exists ce', tl. split; [exact E|].
      apply Qle_trans with (Qmax ce (end_ itv)); [apply Q.le_max_l | exact H].
    + exists ce, (runs_from in_ipu None tokens). split; [reflexivity | apply Qle_refl].
Qed.

(** What holds of the starts and of the ends of the speech tokens, and of
    the open run, holds of the starts and of the ends of the runs. *)
Lemma runs_from_ends (in_ipu : string -> bool) (Ps Pe : Q -> Prop)
    (tokens : list Interval) :
  forall cur : option Segment,
    (forall seg, cur = Some seg -> Ps (fst seg) /\ Pe (snd seg)) ->
    (forall t, In t tokens -> in_ipu (text t) = true ->
               Ps (start t) /\ Pe (end_ t)) ->
    forall seg, In seg (runs_from in_ipu cur tokens) ->
                Ps (fst seg) /\ Pe (snd seg).
Proof.
  induction tokens as [|itv tokens IH]; intros cur Hcur Htok seg Hin; simpl in Hin.
  - destruct cur as [c|]; [|destruct Hin].
    destruct Hin as [<-|[]]. apply Hcur. reflexivity.
  - assert (Htl : forall t, In t tokens -> in_ipu (text t) = true ->
                            Ps (start t) /\ Pe (end_ t)).
    { intros t Ht. apply Htok. right. exact Ht. }
    destruct (in_ipu (text itv)) eqn:E.
    + destruct (Htok itv (or_introl eq_refl) E) as [Hs He].
      destruct cur as [[cs ce]|].
      * apply (IH (Some (cs, Qmax ce (end_ itv)))); try assumption.
        intros seg' [= <-]. simpl.
        destruct (Hcur (cs, ce) eq_refl) as [Hcs Hce]. split; [exact Hcs|].
        destruct (Qmax_cases ce (end_ itv)) as [-> | ->]; assumption.
      * apply (IH (Some (start itv, end_ itv))); try assumption.
        intros seg' [= <-]. simpl. split; assumption.
    + destruct cur as [c|].
      * destruct Hin as [<-|Hin]; [apply Hcur; reflexivity|].
        apply (IH None); try assumption. intros seg' [=].
      * apply (IH None); assumption.
Qed.

Lemma merge_from_ends (min_silence_s : Q) (Ps Pe : Q -> Prop)
    (rest : list Segment) :
  forall prev : Segment,
    Ps (fst prev) /\ Pe (snd prev) ->
    (forall seg, In seg rest -> Ps (fst seg) /\ Pe (snd seg)) ->
    forall seg, In seg (merge_from min_silence_s prev rest) ->
                Ps (fst seg) /\ Pe (snd seg).
Proof.
  induction rest as [|[s e] rest IH]; intros [ps pe] Hp Hr seg Hin; simpl in Hin.
  - destruct Hin as [<-|[]]. exact Hp.
  - assert (Hr' : forall seg, In seg rest -> Ps (fst seg) /\ Pe (snd seg)).
    { intros x Hx. apply Hr. right. exact Hx. }
    destruct (Hr (s, e) (or_introl eq_refl)) as [Hs He]. simpl in *.
    destruct (Qltb (s - pe) min_silence_s).
    + apply (IH (ps, Qmax pe e)); try assumption. simpl.
      split; [apply Hp|].
      destruct (Qmax_cases pe e) as [-> | ->]; [apply Hp | exact He].
    + destruct Hin as [<-|Hin]; [exact Hp|].
      apply (IH (s, e)); try assumption. split; assumption.
Qed.

Lemma merge_pass_ends (min_silence_s : Q) (Ps Pe : Q -> Prop)
    (raw : list Segment) :
  (forall seg, In seg raw -> Ps (fst seg) /\ Pe (snd seg)) ->
  forall seg, In seg (merge_pass min_silence_s raw) ->
              Ps (fst seg) /\ Pe (snd seg).
Proof.
  destruct raw as [|first rest]; intros H seg Hin; [destruct Hin|].
  rewrite MergeProofs.merge_pass_cons in Hin.
  apply (merge_from_ends min_silence_s Ps Pe rest first); try assumption.
  - apply H. left. reflexivity.
  - intros x Hx. apply H. right. exact Hx.
Qed.

(** X1.  Every segment the function returns starts at the start of a speech
    token and ends at the end of a speech token. *)
Theorem segments_start_and_end_at_speech_tokens
    (tokens : list Interval)
    (include_laughter include_noise include_filled_pause : bool)
    (min_silence_s : Q) (segments : list Segment) :
  build_ipu_segments_from_tokens tokens include_laughter include_noise
    include_filled_pause min_silence_s = Ok segments ->
  forall seg : Segment,
    In seg segments ->
    (exists t, In t tokens
               /\ in_ipu_with include_laughter include_noise include_filled_pause
                    (text t) = true
               /\ fst seg = start t)
    /\ (exists t, In t tokens
                  /\ in_ipu_with include_laughter include_noise include_filled_pause
                       (text t) = true
                  /\ snd seg = end_ t).
Proof.
  unfold build_ipu_segments_from_tokens.
  destruct (Qltb min_silence_s 0); [discriminate|].
  intros [= <-] seg Hin.
  set (in_ipu := in_ipu_with include_laughter include_noise include_filled_pause).
  change (fun t : string =>
            _is_token_in_ipu t include_laughter include_noise include_filled_pause)
    with in_ipu in Hin.
  revert seg Hin.
  set (Ps := fun x => exists t, In t tokens /\ in_ipu (text t) = true /\ x = start t).
  set (Pe := fun x => exists t, In t tokens /\ in_ipu (text t) = true /\ x = end_ t).
  apply (merge_pass_ends min_silence_s Ps Pe).
  rewrite raw_runs_runs_from.
  apply (runs_from_ends in_ipu Ps Pe tokens None).
  - intros seg [=].
  - intros t Ht E. split; exists t; auto.
Qed.

Lemma segments_start_and_end_at_speech_tokens_witness :
  (exists t, In t two_words
             /\ in_ipu_with false false true (text t) = true
             /\ 6 # 10 = start t)
  /\ (exists t, In t two_words
                /\ in_ipu_with false false true (text t) = true
                /\ 1 = end_ t).
Proof.
  apply (segments_start_and_end_at_speech_tokens two_words false false true (1 # 20)
           [(0, 1 # 2); (6 # 10, 1)] eq_refl (6 # 10, 1)).
  simpl. right. left. reflexivity.
Defined.

(** The runs are no more than the speech tokens, the open run counted. *)
Lemma runs_from_length (in_ipu : string -> bool) (tokens : list Interval) :
  forall cur : option Segment,
    (List.length (runs_from in_ipu cur tokens)
     <= (match cur with Some _ => 1 | None => 0 end)
        + List.length (speech in_ipu tokens))%nat.
Proof.
  unfold speech.
  induction tokens as [|itv tokens IH]; intros cur; simpl.
  - destruct cur; simpl; lia.
  - destruct (in_ipu (text itv)); simpl.
    + destruct cur as [[cs ce]|].
      * specialize (IH (Some (cs, Qmax ce (end_ itv)))). simpl in IH. lia.
      * specialize (IH (Some (start itv, end_ itv))). simpl in IH. lia.
    + destruct cur as [c|]; simpl; specialize (IH None); simpl in IH; lia.
Qed.

Lemma runs_from_speech (in_ipu : string -> bool) (tokens : list Interval) :
  speech in_ipu tokens <> [] -> runs_from in_ipu None tokens <> [].
Proof.
  unfold speech.
  induction tokens as [|itv tokens IH]; simpl; [congruence|].
  destruct (in_ipu (text itv)).
  - intros _.
    destruct (runs_from_open in_ipu tokens (start itv) (end_ itv)) as (ce' & tl & E & _).
    rewrite E. discriminate.
  - exact IH.
Qed.

Lemma merge_from_length (min_silence_s : Q) (rest : list Segment) :
  forall prev : Segment,
    (1 <= List.length (merge_from min_silence_s prev rest) <= S (List.length rest))%nat.
Proof.
  induction rest as [|[s e] rest IH]; intros prev; simpl.
  - lia.
  - destruct (Qltb (s - snd prev) min_silence_s).
    + specialize (IH (fst prev, Qmax (snd prev) e)). lia.
    + specialize (IH (s, e)). simpl. lia.
Qed.

Lemma merge_pass_length (min_silence_s : Q) (raw : list Segment) :
  (List.length (merge_pass min_silence_s raw) <= List.length raw)%nat
  /\ (merge_pass min_silence_s raw = [] -> raw = []).
Proof.
  destruct raw as [|first rest]; [split; auto|].
  rewrite MergeProofs.merge_pass_cons.
  pose proof (merge_from_length min_silence_s rest first) as H.
  split; [simpl; lia|].
  intros E. rewrite E in H. simpl in H. lia.
Qed.

(** X2.  For [min_silence_s >= 0] the function returns no more segments
    than there are speech tokens, and it returns no segment exactly when no
    token is a speech token. *)
Theorem segments_at_most_speech_tokens
    (tokens : list Interval)
    (include_laughter include_noise include_filled_pause : bool)
    (min_silence_s : Q) :
  0 <= min_silence_s ->
  let in_ipu := in_ipu_with include_laughter include_noise include_filled_pause in
  exists segments : list Segment,
    build_ipu_segments_from_tokens tokens include_laughter include_noise
      include_filled_pause min_silence_s = Ok segments
    /\ (List.length segments <= List.length (speech in_ipu tokens))%nat
    /\ (segments = [] <-> speech in_ipu tokens = []).
Proof.
  intros Hms in_ipu. eexists. split; [apply MergeProofs.build_ok; exact Hms|].
  change (fun t : string =>
            _is_token_in_ipu t include_laughter include_noise include_filled_pause)
    with in_ipu.
  rewrite raw_runs_runs_from.
  pose proof (runs_from_length in_ipu tokens None) as Hlen. simpl in Hlen.
  destruct (merge_pass_length min_silence_s (runs_from in_ipu None tokens))
    as [Hm Hnil].
  split; [lia|]. split.
  - intros E. apply Hnil in E.
    destruct (speech in_ipu tokens) eqn:S; [reflexivity|].
    exfalso. apply (runs_from_speech in_ipu tokens); [rewrite S; discriminate | exact E].
  - intros E. rewrite E in Hlen. simpl in Hlen.
    destruct (runs_from in_ipu None tokens); [reflexivity | simpl in Hlen; lia].
Qed.

Lemma segments_at_most_speech_tokens_witness :
  exists segments : list Segment,
    build_ipu_segments_from_tokens two_words false false true (1 # 20)
    = Ok segments
    /\ (List.length segments <= List.length (speech (in_ipu_with false false true) two_words))%nat
    /\ (segments = [] <-> speech (in_ipu_with false false true) two_words = []).
Proof.
  apply (segments_at_most_speech_tokens two_words false false true (1 # 20)).
  intro; discriminate.
Defined.

Lemma by_start_all (tokens : list Interval) :
  forall a : Interval,
    by_start (a :: tokens) -> Forall (fun t => start a <= start t) tokens.
Proof.
  induction tokens as [|b tokens IH]; intros a H; [constructor|].
  destruct H as [Hab H]. constructor; [exact Hab|].
  specialize (IH b H). rewrite Forall_forall in *.
  intros t Ht. apply Qle_trans with (start b); [exact Hab | apply IH; exact Ht].
Qed.

Lemma by_start_tail (a : Interval) (tokens : list Interval) :
  by_start (a :: tokens) -> by_start tokens.
Proof. destruct tokens; [intros; exact I | intros [_ H]; exact H]. Qed.

(** On tokens in order of their start every speech token is inside a run. *)
Lemma runs_from_cover (in_ipu : string -> bool) (tokens : list Interval) :
  forall cur : option Segment,
    by_start tokens ->
    (forall seg, cur = Some seg -> Forall (fun t => fst seg <= start t) tokens) ->
    forall itv, In itv tokens -> in_ipu (text itv) = true ->
    exists seg, In seg (runs_from in_ipu cur tokens) /\ covers seg itv.
Proof.
  induction tokens as [|t0 tokens IH]; intros cur Hs Hcur itv Hin E; [destruct Hin|].
  pose proof (by_start_all tokens t0 Hs) as Hall.
  pose proof (by_start_tail t0 tokens Hs) as Hs'.
  simpl. destruct Hin as [<-|Hin].
  - rewrite E. destruct cur as [[cs ce]|].
    + destruct (runs_from_open in_ipu tokens cs (Qmax ce (end_ t0)))
        as (ce' & tl & -> & Hce).
      exists (cs, ce'). split; [left; reflexivity|]. split; simpl.
      * specialize (Hcur (cs, ce) eq_refl). inversion Hcur; subst. assumption.
      * apply Qle_trans with (Qmax ce (end_ t0)); [apply Q.le_max_r | exact Hce].
    + destruct (runs_from_open in_ipu tokens (start t0) (end_ t0))
        as (ce' & tl & -> & Hce).
      exists (start t0, ce'). split; [left; reflexivity|].
      split; simpl; [apply Qle_refl | exact Hce].
  - destruct (in_ipu (text t0)).
    + destruct cur as [[cs ce]|].
      * apply (IH (Some (cs, Qmax ce (end_ t0)))); try assumption.
        intros seg [= <-]. simpl.
        specialize (Hcur (cs, ce) eq_refl). inversion Hcur; subst. assumption.
      * apply (IH (Some (start t0, end_ t0))); try assumption.
        intros seg [= <-]. exact Hall.
    + assert (Hnone : forall seg : Segment,
                None = Some seg -> Forall (fun t => fst seg <= start t) tokens)
        by (intros seg [=]).
      destruct (IH None Hs' Hnone itv Hin E) as (seg & Hseg & Hc).
      exists seg. split; [|exact Hc].
      destruct cur; [right|]; exact Hseg.
Qed.

(** The runs of such tokens come in order of their start. *)
Lemma runs_from_lower (in_ipu : string -> bool) (b : Q) (tokens : list Interval) :
  forall cur : option Segment,
    (forall seg, cur = Some seg -> b <= fst seg) ->
    Forall (fun t => b <= start t) tokens ->
    Forall (fun seg : Segment => b <= fst seg) (runs_from in_ipu cur tokens).
Proof.
  intros cur Hcur Htok. apply Forall_forall. intros seg Hin.
  apply (runs_from_ends in_ipu (fun x => b <= x) (fun _ => True) tokens cur);
    try assumption.
  - intros c Hc. split; [apply Hcur; exact Hc | exact I].
  - intros t Ht _. rewrite Forall_forall in Htok. split; [apply Htok; exact Ht | exact I].
Qed.

Lemma starts_sorted_cons (a : Segment) (l : list Segment) :
  Forall (fun seg : Segment => fst a <= fst seg) l -> starts_sorted l ->
  starts_sorted (a :: l).
Proof.
  destruct l as [|b l]; [intros; exact I|].
  intros H Hs. inversion H; subst. split; assumption.
Qed.

Lemma runs_from_sorted (in_ipu : string -> bool) (tokens : list Interval) :
  forall cur : option Segment,
    by_start tokens ->
    (forall seg, cur = Some seg -> Forall (fun t => fst seg <= start t) tokens) ->
    starts_sorted (runs_from in_ipu cur tokens).
Proof.
  induction tokens as [|t0 tokens IH]; intros cur Hs Hcur.
  - destruct cur; exact I.
  - pose proof (by_start_all tokens t0 Hs) as Hall.
    pose proof (by_start_tail t0 tokens Hs) as Hs'.
    simpl. destruct (in_ipu (text t0)).
    + destruct cur as [[cs ce]|].
      * apply IH; [exact Hs'|]. intros seg [= <-]. simpl.
        specialize (Hcur (cs, ce) eq_refl). inversion Hcur; subst. assumption.
      * apply IH; [exact Hs'|]. intros seg [= <-]. exact Hall.
    + assert (Hnone : forall seg : Segment,
                None = Some seg -> Forall (fun t => fst seg <= start t) tokens)
        by (intros seg [=]).
      destruct cur as [c|]; [|apply IH; assumption].
      apply starts_sorted_cons; [|apply IH; assumption].
      apply runs_from_lower.
      * intros seg [=].
      * specialize (Hcur c eq_refl). inversion Hcur; subst. assumption.
Qed.

(** Merging runs that come in order of their start loses nothing: what a
    run spans, a merged segment spans. *)
Lemma merge_from_cover (min_silence_s : Q) (rest : list Segment) :
  forall (prev : Segment) (itv : Interval),
    starts_sorted (prev :: rest) ->
    covers prev itv \/ (exists seg, In seg rest /\ covers seg itv) ->
    exists seg, In seg (merge_from min_silence_s prev rest) /\ covers seg itv.
Proof.
  induction rest as [|[s e] rest IH]; intros [ps pe] itv Hs H.
  - destruct H as [H | (seg & [] & _)]. exists (ps, pe). split; [left; reflexivity | exact H].
  - destruct Hs as [Hps Hs]. simpl in Hps. simpl.
    destruct (Qltb (s - pe) min_silence_s).
    + apply IH.
      * destruct rest as [|[s' e'] rest]; [exact I|].
        destruct Hs as [Hss Hs]. simpl in Hss. split; [simpl; lra | exact Hs].
      * destruct H as [[H1 H2] | (seg & [<-|Hin] & [H1 H2])]; simpl in *.
        -- left. split; simpl; [exact H1|].
           apply Qle_trans with pe; [exact H2 | apply Q.le_max_l].
        -- left. split; simpl; [lra|].
           apply Qle_trans with e; [exact H2 | apply Q.le_max_r].
        -- right. exists seg. split; [exact Hin | split; assumption].
    + destruct H as [H | (seg & [<-|Hin] & Hc)].
      * exists (ps, pe). split; [left; reflexivity | exact H].
      * destruct (IH (s, e) itv Hs (or_introl Hc)) as (seg' & Hin' & Hc').
        exists seg'. split; [right; exact Hin' | exact Hc'].
      * destruct (IH (s, e) itv Hs (or_intror (ex_intro _ seg (conj Hin Hc))))
          as (seg' & Hin' & Hc').
        exists seg'. split; [right; exact Hin' | exact Hc'].
Qed.

(** X3.  For tokens in order of their start and [min_silence_s >= 0], every
    speech token lies inside one of the segments returned: the segment
    starts no later than the token and ends no earlier. *)
Theorem every_speech_token_is_inside_a_segment
    (tokens : list Interval)
    (include_laughter include_noise include_filled_pause : bool)
    (min_silence_s : Q) :
  0 <= min_silence_s ->
  by_start tokens ->
  exists segments : list Segment,
    build_ipu_segments_from_tokens tokens include_laughter include_noise
      include_filled_pause min_silence_s = Ok segments
    /\ forall itv : Interval,
         In itv tokens ->
         in_ipu_with include_laughter include_noise include_filled_pause
           (text itv) = true ->
         exists seg : Segment,
           In seg segments /\ fst seg <= start itv /\ end_ itv <= snd seg.
Proof.
  intros Hms Hs. eexists. split; [apply MergeProofs.build_ok; exact Hms|].
  set (in_ipu := in_ipu_with include_laughter include_noise include_filled_pause).
  change (fun t : string =>
            _is_token_in_ipu t include_laughter include_noise include_filled_pause)
    with in_ipu.
  rewrite raw_runs_runs_from.
  intros itv Hin E.
  assert (Hnone : forall seg : Segment,
            None = Some seg -> Forall (fun t => fst seg <= start t) tokens)
    by (intros seg [=]).
  destruct (runs_from_cover in_ipu tokens None Hs Hnone itv Hin E) as (seg & Hseg & Hc).
  pose proof (runs_from_sorted in_ipu tokens None Hs Hnone) as Hsorted.
  destruct (runs_from in_ipu None tokens) as [|first rest]; [destruct Hseg|].
  rewrite MergeProofs.merge_pass_cons.
  apply (merge_from_cover min_silence_s rest first itv Hsorted).
  destruct Hseg as [<-|Hseg]; [left; exact Hc | right; exists seg; auto].
Qed.

Lemma every_speech_token_is_inside_a_segment_witness :
  exists segments : list Segment,
    build_ipu_segments_from_tokens two_words false false true (2 # 10)
    = Ok segments
    /\ forall itv : Interval,
         In itv two_words ->
         in_ipu_with false false true (text itv) = true ->
         exists seg : Segment,
           In seg segments /\ fst seg <= start itv /\ end_ itv <= snd seg.
Proof.
  apply (every_speech_token_is_inside_a_segment two_words false false true (2 # 10)).
  - intro; discriminate.
  - simpl. repeat split; intro; discriminate.
Defined.

End RunProofs.

(** * The rendered tier, whatever the segments *)

Module RenderProofs.

Import PalignCore.
Import Tiers.
Import Runs.

(** What is kept: the segments of positive length and of duration at least
    [min_ipu_s], clamped to the timeline and still of positive length. *)
Lemma kept_segments_In (t_start t_end min_ipu_s : Q) (segs : list Segment)
    (k : Segment) :
  In k (kept_segments t_start t_end min_ipu_s segs)
  <-> fst k < snd k
      /\ exists s e : Q,
           In (s, e) segs /\ s < e /\ min_ipu_s <= e - s
           /\ k = (Qmax t_start s, Qmin t_end e).
Proof.
  unfold kept_segments, keep_positive, keep_clamped.
  rewrite filter_In, in_flat_map. destruct k as [S E]. simpl.
  rewrite Qltb_lt. split.
  - intros [([s e] & Hin & Hk) Hpos]. split; [exact Hpos|].
    destruct (Qleb e s) eqn:L1; [destruct Hk|].
    destruct (Qleb min_ipu_s (e - s)) eqn:L2; [|destruct Hk].
    destruct Hk as [Hk|[]].
    exists s, e. apply Qleb_gt0 in L1. apply Qleb_le in L2. auto.
  - intros [Hpos (s & e & Hin & Hse & Hmin & Hk)]. split; [|exact Hpos].
    exists (s, e). split; [exact Hin|].
    apply Qleb_gt0 in Hse. rewrite Hse.
    apply Qleb_le in Hmin. rewrite Hmin. left. symmetry. exact Hk.
Qed.

Lemma kept_segments_inside (t_start t_end min_ipu_s : Q) (segs : list Segment) :
  Forall (fun k : Segment => t_start <= fst k /\ fst k < snd k /\ snd k <= t_end)
         (kept_segments t_start t_end min_ipu_s segs).
Proof.
  apply Forall_forall. intros k Hk. apply kept_segments_In in Hk.
  destruct Hk as [Hpos (s & e & _ & _ & _ & ->)]. simpl in *.
  repeat split; [apply Q.le_max_l | exact Hpos | apply Q.le_min_l].
Qed.

(** The intervals rendered from kept segments inside [lo, t_end], from a
    cursor that is not before [lo]. *)
Lemma render_from_inside (ipu_label silence_label : string) (lo t_end : Q)
    (kept : list Segment) :
  forall c : Q,
    lo <= c ->
    Forall (fun k : Segment => lo <= fst k /\ fst k < snd k /\ snd k <= t_end) kept ->
    forall itv,
      In itv (render_from ipu_label silence_label t_end c kept) ->
      lo <= start itv /\ start itv < end_ itv /\ end_ itv <= t_end
      /\ ((text itv = ipu_label /\ In (start itv, end_ itv) kept)
          \/ text itv = silence_label).
Proof.
  induction kept as [|[s e] kept IH]; intros c Hc Hk itv Hin; simpl in Hin.
  - destruct (Qltb c t_end) eqn:E; [|destruct Hin].
    destruct Hin as [<-|[]]. simpl. apply Qltb_lt in E.
    repeat split; try assumption; [apply Qle_refl | right; reflexivity].
  - inversion Hk as [|? ? (H1 & H2 & H3) Hk']; subst. simpl in H1, H2, H3.
    apply in_app_or in Hin. destruct Hin as [Hin|[<-|Hin]].
    + destruct (Qltb c s) eqn:E; [|destruct Hin].
      destruct Hin as [<-|[]]. simpl. apply Qltb_lt in E.
      repeat split; try assumption; [lra | right; reflexivity].
    + simpl. repeat split; try assumption. left. split; [reflexivity | left; reflexivity].
    + assert (He : lo <= e) by lra.
      destruct (IH e He Hk' itv Hin) as (B1 & B2 & B3 & [[T K]|T]).
      * repeat split; try assumption. left. split; [exact T | right; exact K].
      * repeat split; try assumption. right. exact T.
Qed.

(** With valid bounds the function returns what the rendering loop built:
    the final filter removes nothing. *)
Lemma apply_ok (t_start t_end : Q) (segs : list Segment) (min_ipu_s : Q)
    (ipu_label silence_label : string) :
  t_start <= t_end -> 0 <= min_ipu_s ->
  apply_min_ipu_and_render_full_tier t_start t_end segs min_ipu_s
    ipu_label silence_label
  = Ok (render_from ipu_label silence_label t_end t_start
          (kept_segments t_start t_end min_ipu_s segs)).
Proof.
  intros Ht Hmin. unfold apply_min_ipu_and_render_full_tier.
  apply Qltb_ge in Ht. rewrite Ht. apply Qltb_ge in Hmin. rewrite Hmin.
  fold (kept_segments t_start t_end min_ipu_s segs).
  rewrite TierProofs.render_fold. simpl.
  rewrite TierProofs.drop_empty_positive; [reflexivity|].
  intros itv Hin.
  apply (render_from_inside ipu_label silence_label t_start t_end _ t_start
           (Qle_refl _) (kept_segments_inside _ _ _ _) itv Hin).
Qed.

(** X4.  For [t_start <= t_end] and [min_ipu_s >= 0], whatever the
    segments (unordered, overlapping, out of range), the function returns
    a tier in which every interval has strictly positive duration, lies
    inside [t_start, t_end] and carries one of the two labels. *)
Theorem tier_intervals_inside_timeline
    (t_start t_end : Q) (ipu_segments : list Segment) (min_ipu_s : Q)
    (ipu_label silence_label : string) :
  t_start <= t_end -> 0 <= min_ipu_s ->
  exists tier : list Interval,
    apply_min_ipu_and_render_full_tier t_start t_end ipu_segments min_ipu_s
      ipu_label silence_label = Ok tier
    /\ forall itv : Interval,
         In itv tier ->
         t_start <= start itv /\ start itv < end_ itv /\ end_ itv <= t_end
         /\ (text itv = ipu_label \/ text itv = silence_label).
Proof.
  intros Ht Hmin. eexists. split; [apply apply_ok; assumption|].
  intros itv Hin.
  destruct (render_from_inside ipu_label silence_label t_start t_end _ t_start
              (Qle_refl _) (kept_segments_inside _ _ _ _) itv Hin)
    as (B1 & B2 & B3 & [[T _]|T]); auto.
Qed.

Lemma tier_intervals_inside_timeline_witness :
  exists tier : list Interval,
    apply_min_ipu_and_render_full_tier 0 10 overlapping_segments 0 "IPU" "#"
    = Ok tier
    /\ forall itv : Interval,
         In itv tier ->
         0 <= start itv /\ start itv < end_ itv /\ end_ itv <= 10
         /\ (text itv = "IPU" \/ text itv = "#").
Proof.
  apply (tier_intervals_inside_timeline 0 10 overlapping_segments 0 "IPU" "#");
    intro; discriminate.
Defined.



Lemma silence_then_ipu_nth (ipu_label silence_label : string) (tier : list Interval) :
  silence_then_ipu ipu_label silence_label tier ->
  forall (i : nat) (a b : Interval),
    nth_error tier i = Some a -> nth_error tier (S i) = Some b ->
    text a = silence_label -> text b = ipu_label.
Proof.
  induction tier as [|x [|y tier] IH]; intros H i a b Ha Hb.
  - destruct i; discriminate.
  - destruct i as [|[|i]]; discriminate.
  - destruct H as [H1 H]. destruct i as [|i].
    + simpl in Ha, Hb. injection Ha as <-. injection Hb as <-. exact H1.
    + apply (IH H i a b); assumption.
Qed.

Lemma render_from_alternates (ipu_label silence_label : string) (t_end : Q)
    (kept : list Segment) :
  ipu_label <> silence_label ->
  forall c : Q,
    silence_then_ipu ipu_label silence_label
      (render_from ipu_label silence_label t_end c kept).
Proof.
  intros Hlab. induction kept as [|[s e] kept IH]; intros c; simpl.
  - destruct (Qltb c t_end); exact I.
  - specialize (IH e).
    assert (H : silence_then_ipu ipu_label silence_label
                  (mkInterval s e ipu_label
                   :: render_from ipu_label silence_label t_end e kept)).
    { destruct (render_from ipu_label silence_label t_end e kept) eqn:R; [exact I|].
      split; [|exact IH]. simpl. intros E. congruence. }
    destruct (Qltb c s); simpl; [|exact H].
    split; [intros _; reflexivity | exact H].
Qed.

(** X6.  With two different labels the tier never has two silence
    intervals in a row: the interval after a silence interval is an IPU
    interval. *)
Theorem silence_is_followed_by_ipu
    (t_start t_end : Q) (ipu_segments : list Segment) (min_ipu_s : Q)
    (ipu_label silence_label : string) (tier : list Interval) :
  ipu_label <> silence_label ->
  apply_min_ipu_and_render_full_tier t_start t_end ipu_segments min_ipu_s
    ipu_label silence_label = Ok tier ->
  forall (i : nat) (a b : Interval),
    nth_error tier i = Some a -> nth_error tier (S i) = Some b ->
    text a = silence_label -> text b = ipu_label.
Proof.
  intros Hlab H.
  assert (Hb : t_start <= t_end /\ 0 <= min_ipu_s).
  { unfold apply_min_ipu_and_render_full_tier in H.
    destruct (Qltb t_end t_start) eqn:E1; [discriminate|].
    destruct (Qltb min_ipu_s 0) eqn:E2; [discriminate|].
    split; apply Qltb_ge; assumption. }
  destruct Hb as [Ht Hmin].
  rewrite (apply_ok _ _ _ _ _ _ Ht Hmin) in H. injection H as <-.
  apply silence_then_ipu_nth, render_from_alternates, Hlab.
Qed.

Lemma silence_is_followed_by_ipu_witness :
  text (mkInterval (1 # 2) 1 "IPU") = "IPU".
Proof.
  apply (silence_is_followed_by_ipu 0 2 [(1 # 2, 1); (15 # 10, 152 # 100)]
           (5 # 100) "IPU" "#"
           [ mkInterval 0 (1 # 2) "#"; mkInterval (1 # 2) 1 "IPU"; mkInterval 1 2 "#" ]
           ltac:(discriminate) eq_refl 0%nat
           (mkInterval 0 (1 # 2) "#") (mkInterval (1 # 2) 1 "IPU")
           eq_refl eq_refl eq_refl).
Defined.

Lemma count_label_app (label : string) (a b : list Interval) :
  count_label label (a ++ b) = (count_label label a + count_label label b)%nat.
Proof. unfold count_label. rewrite filter_app, length_app. reflexivity. Qed.

(** One IPU interval is rendered for each kept segment. *)
Lemma render_from_count (ipu_label silence_label : string) (t_end : Q)
    (kept : list Segment) :
  ipu_label <> silence_label ->
  forall c : Q,
    count_label ipu_label (render_from ipu_label silence_label t_end c kept)
    = List.length kept.
Proof.
  intros Hlab.
  assert (Hs : String.eqb silence_label ipu_label = false).
  { apply String.eqb_neq. congruence. }
  induction kept as [|[s e] kept IH]; intros c; simpl.
  - destruct (Qltb c t_end); unfold count_label; simpl; rewrite ?Hs; reflexivity.
  - rewrite count_label_app.
    change (mkInterval s e ipu_label :: render_from ipu_label silence_label t_end e kept)
      with ([mkInterval s e ipu_label]
            ++ render_from ipu_label silence_label t_end e kept).
    rewrite count_label_app, IH.
    destruct (Qltb c s); unfold count_label; simpl;
      rewrite ?Hs, String.eqb_refl; reflexivity.
Qed.

(** A larger [min_ipu_s] keeps no more segments. *)
Lemma kept_segments_mono (t_start t_end a b : Q) (segs : list Segment) :
  a <= b ->
  (List.length (kept_segments t_start t_end b segs)
   <= List.length (kept_segments t_start t_end a segs))%nat.
Proof.
  intros Hab. unfold kept_segments, keep_positive, keep_clamped.
  induction segs as [|[s e] segs IH]; simpl; [auto|].
  rewrite !filter_app, !length_app.
  destruct (Qleb e s); simpl; [exact IH|].
  destruct (Qleb b (e - s)) eqn:Lb.
  - assert (La : Qleb a (e - s) = true).
    { apply Qleb_le. apply Qleb_le in Lb. lra. }
    rewrite La. apply Nat.add_le_mono_l. exact IH.
  - simpl. eapply Nat.le_trans; [exact IH | apply Nat.le_add_l].
Qed.

(** X7.  With two different labels and [0 <= a <= b], the tier rendered
    with [min_ipu_s = b] has no more IPU intervals than the one rendered
    with [min_ipu_s = a]. *)
Theorem larger_min_ipu_no_more_ipu_intervals
    (t_start t_end : Q) (ipu_segments : list Segment) (a b : Q)
    (ipu_label silence_label : string) :
  ipu_label <> silence_label ->
  t_start <= t_end -> 0 <= a -> a <= b ->
  exists tier_a tier_b : list Interval,
    apply_min_ipu_and_render_full_tier t_start t_end ipu_segments a
      ipu_label silence_label = Ok tier_a
    /\ apply_min_ipu_and_render_full_tier t_start t_end ipu_segments b
         ipu_label silence_label = Ok tier_b
    /\ (count_label ipu_label tier_b <= count_label ipu_label tier_a)%nat.
Proof.
  intros Hlab Ht Ha Hab. do 2 eexists.
  split; [apply apply_ok; assumption|].
  split; [apply apply_ok; [assumption | lra]|].
  rewrite !render_from_count by exact Hlab.
  apply kept_segments_mono. exact Hab.
Qed.

Lemma larger_min_ipu_no_more_ipu_intervals_witness :
  exists tier_a tier_b : list Interval,
    apply_min_ipu_and_render_full_tier 0 2 [(1 # 2, 1); (15 # 10, 152 # 100)]
      (1 # 100) "IPU" "#" = Ok tier_a
    /\ apply_min_ipu_and_render_full_tier 0 2 [(1 # 2, 1); (15 # 10, 152 # 100)]
         (5 # 100) "IPU" "#" = Ok tier_b
    /\ (count_label "IPU" tier_b <= count_label "IPU" tier_a)%nat.
Proof.
  apply (larger_min_ipu_no_more_ipu_intervals 0 2
           [(1 # 2, 1); (15 # 10, 152 # 100)] (1 # 100) (5 # 100) "IPU" "#").
  - discriminate.
  - intro; discriminate.
  - intro; discriminate.
  - intro; discriminate.
Defined.



End RenderProofs.

(** * Segments and tier of well-formed tokens *)

Module ComposeProofs.

Import PalignCore.
Import Tiers.
Import Runs.

(** X9.  For tokens none of which ends before it starts and
    [min_silence_s >= 0], the segments returned are time-ordered, none ends
    before it starts, and each starts at or after the end of the one
    before. *)
Theorem segments_of_well_formed_tokens_are_ordered
    (tokens : list Interval)
    (include_laughter include_noise include_filled_pause : bool)
    (min_silence_s : Q) :
  0 <= min_silence_s -> well_formed tokens ->
  exists segments : list Segment,
    build_ipu_segments_from_tokens tokens include_laughter include_noise
      include_filled_pause min_silence_s = Ok segments
    /\ (forall seg, In seg segments -> fst seg <= snd seg)
    /\ time_ordered segments
    /\ nonoverlapping segments.
Proof.
  intros Hms Hw.
  destruct (PipelineProofs.build_time_ordered_nonoverlapping tokens include_laughter
              include_noise include_filled_pause min_silence_s Hms Hw)
    as (segs & E & Ho & Hn).
  exists segs. repeat split; try assumption.
  rewrite (MergeProofs.build_ok _ _ _ _ _ Hms) in E. injection E as <-.
  apply Forall_forall.
  apply PipelineProofs.merge_pass_forward, PipelineProofs.raw_runs_forward, Hw.
Qed.

Lemma segments_of_well_formed_tokens_are_ordered_witness :
  exists segments : list Segment,
    build_ipu_segments_from_tokens two_words false false true (1 # 20)
    = Ok segments
    /\ (forall seg, In seg segments -> fst seg <= snd seg)
    /\ time_ordered segments
    /\ nonoverlapping segments.
Proof.
  apply (segments_of_well_formed_tokens_are_ordered two_words false false true (1 # 20)).
  - intro; discriminate.
  - repeat constructor; intro; discriminate.
Defined.

(** X10.  The two steps together, as the command [palign-to-ipu] runs
    them: for tokens none of which ends before it starts,
    [min_silence_s >= 0], [min_ipu_s >= 0] and [t_start <= t_end], the tier
    rendered from the segments built has intervals of strictly positive
    duration, each starting where the one before ends, the first at
    [t_start] and the last ending at [t_end]. *)
Theorem tier_of_tokens_covers_timeline
    (tokens : list Interval)
    (include_laughter include_noise include_filled_pause : bool)
    (min_silence_s min_ipu_s t_start t_end : Q) :
  well_formed tokens ->
  0 <= min_silence_s -> 0 <= min_ipu_s -> t_start <= t_end ->
  exists (segments : list Segment) (tier : list Interval),
    build_ipu_segments_from_tokens tokens include_laughter include_noise
      include_filled_pause min_silence_s = Ok segments
    /\ apply_min_ipu_and_render_full_tier t_start t_end segments min_ipu_s
         IPU_LABEL SILENCE_LABEL = Ok tier
    /\ positive tier /\ chained tier /\ spans t_start t_end tier.
Proof.
  intros Hw Hms Hmin Ht.
  destruct (PipelineProofs.build_time_ordered_nonoverlapping tokens include_laughter
              include_noise include_filled_pause min_silence_s Hms Hw)
    as (segs & E & Ho & Hn).
  exists segs. eexists. split; [exact E|].
  split; [apply RenderProofs.apply_ok; assumption|].
  apply TierProofs.tier_from_invariant.
  apply TierProofs.render_tier_from; [exact Ht|].
  unfold kept_segments. destruct segs as [|[s e] segs]; [exact I|].
  apply (TierProofs.kept_tiled t_start t_end min_ipu_s ((s, e) :: segs) s t_start).
  - apply TierProofs.ordered_clear; [exact Ho | exact Hn | apply Qle_refl].
  - apply Q.le_max_l.
Qed.

Lemma tier_of_tokens_covers_timeline_witness :
  exists (segments : list Segment) (tier : list Interval),
    build_ipu_segments_from_tokens two_words false false true (2 # 10)
    = Ok segments
    /\ apply_min_ipu_and_render_full_tier 0 2 segments (1 # 100)
         IPU_LABEL SILENCE_LABEL = Ok tier
    /\ positive tier /\ chained tier /\ spans 0 2 tier.
Proof.
  apply (tier_of_tokens_covers_timeline two_words false false true
           (2 # 10) (1 # 100) 0 2).
  - repeat constructor; intro; discriminate.
  - intro; discriminate.
  - intro; discriminate.
  - intro; discriminate.
Defined.

End ComposeProofs.

(** * White space around a label *)

Module StripProofs.

Import PalignCore.
Import Runs.

Local Open Scope string_scope.

Lemma append_nil_r (s : string) : s ++ EmptyString = s.
Proof. induction s; simpl; congruence. Qed.

Lemma append_assoc (a b c : string) : (a ++ b) ++ c = a ++ (b ++ c).
Proof. induction a; simpl; congruence. Qed.

Lemma rev_onto_app (s : string) :
  forall acc : string, Str.rev_onto s acc = Str.rev s ++ acc.
Proof.
  unfold Str.rev. induction s as [|c s IH]; intros acc; simpl; [reflexivity|].
  rewrite (IH (String c acc)), (IH (String c EmptyString)), append_assoc.
  reflexivity.
Qed.

Lemma rev_cons (c : ascii) (s : string) :
  Str.rev (String c s) = Str.rev s ++ String c EmptyString.
Proof. unfold Str.rev at 1. simpl. apply rev_onto_app. Qed.

Lemma rev_app (a b : string) : Str.rev (a ++ b) = Str.rev b ++ Str.rev a.
Proof.
  induction a as [|c a IH]; simpl.
  - rewrite append_nil_r. reflexivity.
  - rewrite !rev_cons, IH, append_assoc. reflexivity.
Qed.

Lemma all_space_app (a b : string) :
  all_space (a ++ b) = all_space a && all_space b.
Proof.
  induction a as [|c a IH]; simpl; [reflexivity|].
  rewrite IH, andb_assoc. reflexivity.
Qed.

Lemma all_space_rev (s : string) : all_space (Str.rev s) = all_space s.
Proof.
  induction s as [|c s IH]; [reflexivity|].
  rewrite rev_cons, all_space_app, IH. simpl.
  rewrite andb_true_r. apply andb_comm.
Qed.

Lemma lstrip_pad (pre x : string) :
  all_space pre = true -> Str.lstrip (pre ++ x) = Str.lstrip x.
Proof.
  induction pre as [|c pre IH]; simpl; [reflexivity|].
  intros H. apply andb_true_iff in H. destruct H as [Hc H].
  rewrite Hc. apply IH. exact H.
Qed.

Lemma lstrip_all_space (s : string) :
  all_space s = true -> Str.lstrip s = EmptyString.
Proof.
  intros H. rewrite <- (append_nil_r s). rewrite lstrip_pad by exact H. reflexivity.
Qed.

Lemma lstrip_app (t post : string) :
  Str.lstrip (t ++ post)
  = if all_space t then Str.lstrip post else Str.lstrip t ++ post.
Proof.
  induction t as [|c t IH]; simpl; [reflexivity|].
  destruct (Str.is_space c); simpl; [exact IH | reflexivity].
Qed.

Lemma rstrip_pad (x post : string) :
  all_space post = true -> Str.rstrip (x ++ post) = Str.rstrip x.
Proof.
  intros H. unfold Str.rstrip. rewrite rev_app, lstrip_pad; [reflexivity|].
  rewrite all_space_rev. exact H.
Qed.

(** White space before and after a text does not change what [strip]
    returns. *)
Lemma strip_pad (pre t post : string) :
  all_space pre = true -> all_space post = true ->
  Str.strip (pre ++ t ++ post) = Str.strip t.
Proof.
  intros Hpre Hpost. unfold Str.strip.
  rewrite lstrip_pad by exact Hpre. rewrite lstrip_app.
  destruct (all_space t) eqn:Ht.
  - rewrite (lstrip_all_space post Hpost), (lstrip_all_space t Ht). reflexivity.
  - apply rstrip_pad. exact Hpost.
Qed.

(** X11.  White space around a token label does not change whether the
    token counts as speech: a label padded with spaces, tabs or line ends
    is treated as the label itself. *)
Theorem token_membership_ignores_padding
    (pre token post : string)
    (include_laughter include_noise include_filled_pause : bool) :
  all_space pre = true -> all_space post = true ->
  _is_token_in_ipu (pre ++ token ++ post) include_laughter include_noise
    include_filled_pause
  = _is_token_in_ipu token include_laughter include_noise include_filled_pause.
Proof.
  intros Hpre Hpost. unfold _is_token_in_ipu.
  rewrite (strip_pad pre token post Hpre Hpost). reflexivity.
Qed.

Lemma token_membership_ignores_padding_witness :
  _is_token_in_ipu ("  " ++ "#" ++ String "009" EmptyString) true true true
  = _is_token_in_ipu "#" true true true.
Proof.
  apply (token_membership_ignores_padding "  " "#" (String "009" EmptyString)
           true true true); reflexivity.
Defined.

(** X12.  Turning an inclusion flag on never turns a speech token into
    silence: a token that counts as speech with some flags counts as speech
    with any flags that include them. *)
Theorem token_membership_grows_with_flags
    (token : string) (l n f l' n' f' : bool) :
  (l = true -> l' = true) -> (n = true -> n' = true) -> (f = true -> f' = true) ->
  _is_token_in_ipu token l n f = true ->
  _is_token_in_ipu token l' n' f' = true.
Proof.
  intros Hl Hn Hf. unfold _is_token_in_ipu.
  destruct (String.eqb (Str.strip token) EmptyString); [auto|].
  destruct (String.eqb (Str.strip token) SILENCE_LABEL); [auto|].
  destruct (String.eqb (Str.strip token) "@"); [exact Hl|].
  destruct (String.eqb (Str.strip token) "*"); [exact Hn|].
  destruct (String.eqb (Str.lower (Str.strip token)) "fp"); [exact Hf | auto].
Qed.

Lemma token_membership_grows_with_flags_witness :
  _is_token_in_ipu "FP" true false true = true.
Proof.
  apply (token_membership_grows_with_flags "FP" false false true true false true);
    auto.
Defined.

(** X13.  [_parse_bool] reads a word regardless of white space around it:
    the padded text is accepted with the same value exactly when the text
    itself is, and rejected exactly when the text is. *)
Theorem parse_bool_ignores_padding (pre text post : string) :
  all_space pre = true -> all_space post = true ->
  (forall b : bool,
     PalignToIpuCli._parse_bool (pre ++ text ++ post) = Ok b
     <-> PalignToIpuCli._parse_bool text = Ok b)
  /\ ((exists msg, PalignToIpuCli._parse_bool (pre ++ text ++ post)
                   = Raise (ValueError msg))
      <-> (exists msg, PalignToIpuCli._parse_bool text = Raise (ValueError msg))).
Proof.
  intros Hpre Hpost. unfold PalignToIpuCli._parse_bool.
  rewrite (strip_pad pre text post Hpre Hpost).
  destruct (existsb _ PalignToIpuCli.TRUE_WORDS).
  - split; [intros b; reflexivity|].
    split; intros (msg & H); discriminate H.
  - destruct (existsb _ PalignToIpuCli.FALSE_WORDS).
    + split; [intros b; reflexivity|].
      split; intros (msg & H); discriminate H.
    + split; [intros b; split; intros H; discriminate H|].
      split; intros _; eexists; reflexivity.
Qed.

Lemma parse_bool_ignores_padding_witness :
  PalignToIpuCli._parse_bool (" " ++ "TRUE" ++ " ") = Ok true.
Proof.
  apply (proj1 (parse_bool_ignores_padding " " "TRUE" " " eq_refl eq_refl)).
  reflexivity.
Defined.

End StripProofs.

(** * Cleaning an IPU table *)

Module CleanProofs.

Import Metadata.
Import MakeMetadata.

Lemma sorted_nil (l : list string) : Str.sorted l = [] -> l = [].
Proof.
  destruct l as [|x l]; [reflexivity|]. simpl.
  destruct (Str.sorted l) as [|y l'] eqn:E; simpl; [discriminate|].
  destruct (String.leb x y); discriminate.
Qed.

(** The function returns a table exactly when no required column is
    missing. *)
Lemma clean_ok_iff (ipu : DataFrame) (speaker : Anchor) :
  (exists out, _clean_and_prefix_ipu ipu speaker = Ok out)
  <-> forall c, In c required_cols -> has_column c (columns ipu) = true.
Proof.
  split.
  - intros (out & H) c Hc.
    destruct (has_column c (columns ipu)) eqn:E; [reflexivity|].
    destruct (MessageProofs.clean_missing_column_message ipu speaker c Hc E)
      as (msg & Hm & _).
    congruence.
  - intros H. unfold _clean_and_prefix_ipu.
    assert (E : filter (fun c => negb (has_column c (columns ipu))) required_cols = []).
    { induction required_cols as [|c l IH]; [reflexivity|]. simpl.
      rewrite (H c (or_introl eq_refl)). simpl. apply IH.
      intros c' Hc'. apply H. right. exact Hc'. }
    rewrite E. simpl. eexists. reflexivity.
Qed.

(** X14.  [_clean_and_prefix_ipu] returns a table exactly when the table
    has all six required columns; the table returned has the rows whose
    [annotation] is not the placeholder ["#"], in their order and
    unchanged, and as many columns as before. *)
Theorem clean_drops_placeholder_rows_only (ipu : DataFrame) (speaker : Anchor) :
  ((exists out, _clean_and_prefix_ipu ipu speaker = Ok out)
   <-> forall c, In c required_cols -> has_column c (columns ipu) = true)
  /\ forall out : DataFrame,
       _clean_and_prefix_ipu ipu speaker = Ok out ->
       rows out
       = filter (fun row => negb (is_placeholder (at_column ipu "annotation" row)))
                (rows ipu)
       /\ List.length (columns out) = List.length (columns ipu).
Proof.
  split; [apply clean_ok_iff|].
  intros out H. unfold _clean_and_prefix_ipu in H.
  destruct (Str.sorted _); [|discriminate].
  injection H as <-. simpl. split; [reflexivity | apply length_map].
Qed.

Lemma renamed_feature_differs (speaker : Anchor) (x c : string) :
  In c COLUMN_LIST -> (anchor_name speaker ++ "_" ++ x)%string <> c.
Proof.
  intros Hc E. simpl in Hc.
  destruct speaker; simpl in E;
    destruct Hc as [<-|[<-|[<-|[]]]]; discriminate E.
Qed.

Lemma has_column_cons (c x : string) (l : list string) :
  has_column c (x :: l) = String.eqb c x || has_column c l.
Proof. reflexivity. Qed.

(** After the renaming the three feature names are gone and every other
    name is still there. *)
Lemma rename_columns (speaker : Anchor) (cols : list string) (c : string) :
  has_column c
    (map (fun x => if has_column x COLUMN_LIST
                   then (anchor_name speaker ++ "_" ++ x)%string else x) cols)
  = if has_column c COLUMN_LIST then false
    else has_column c cols
         || existsb (fun x => has_column x COLUMN_LIST
                              && String.eqb c (anchor_name speaker ++ "_" ++ x))
                    cols.
Proof.
  destruct (has_column c COLUMN_LIST) eqn:Hc.
  - apply MessageProofs.has_column_In in Hc.
    destruct (has_column c (map _ cols)) eqn:E; [|reflexivity].
    exfalso. apply MessageProofs.has_column_In in E. apply in_map_iff in E.
    destruct E as (x & Hx & _).
    destruct (has_column x COLUMN_LIST) eqn:Hxc.
    + apply (renamed_feature_differs speaker x c Hc Hx).
    + subst x. apply MessageProofs.has_column_In in Hc. congruence.
  - induction cols as [|x cols IH]; [reflexivity|].
    cbn [map existsb]. rewrite !has_column_cons, IH.
    destruct (has_column x COLUMN_LIST) eqn:Hx; cbn [andb].
    + assert (N : String.eqb c x = false).
      { apply String.eqb_neq. intros ->. congruence. }
      rewrite N. cbn [orb].
      destruct (String.eqb c (anchor_name speaker ++ "_" ++ x));
        destruct (has_column c cols); reflexivity.
    + destruct (String.eqb c x); reflexivity.
Qed.

(** X15.  The function does not apply twice: a table it returned no longer
    has the columns [duration], [n_syllables], [rate] under these names,
    and cleaning it again raises the missing-columns error that names
    them. *)
Theorem clean_of_cleaned_table_fails
    (ipu : DataFrame) (speaker again : Anchor) (out : DataFrame) :
  _clean_and_prefix_ipu ipu speaker = Ok out ->
  _clean_and_prefix_ipu out again
  = Raise (ValueError (anchor_name again
                         ++ " IPU table missing required columns: "
                         ++ "['duration', 'n_syllables', 'rate']")).
Proof.
  intros H.
  assert (Hreq : forall c, In c required_cols -> has_column c (columns ipu) = true).
  { apply (clean_ok_iff ipu speaker). exists out. exact H. }
  unfold _clean_and_prefix_ipu in H.
  destruct (Str.sorted _); [|discriminate].
  injection H as <-.
  unfold _clean_and_prefix_ipu. cbn [columns].
  unfold required_cols. cbn [app COLUMN_LIST filter].
  rewrite !rename_columns.
  rewrite (Hreq "start"), (Hreq "end"), (Hreq "annotation")
    by (simpl; tauto).
  destruct again; reflexivity.
Qed.

Lemma clean_of_cleaned_table_fails_witness :
  _clean_and_prefix_ipu
    (mkFrame ["start"; "end"; "annotation"; "self_duration"; "self_n_syllables";
              "self_rate"]
             [[CFloat (Num 0); CFloat (Num (1 # 2)); CStr "a"; CFloat (Num (1 # 2));
               CFloat (Num 2); CFloat (Num 4)];
              [CFloat (Num 10); CFloat (Num 11); CStr "b"; CFloat (Num 1);
               CFloat (Num 3); CFloat (Num 6)]])
    other
  = Raise (ValueError
      "other IPU table missing required columns: ['duration', 'n_syllables', 'rate']").
Proof.
  apply (clean_of_cleaned_table_fails (ipu_frame test_self_ipu) self other).
  reflexivity.
Defined.

Lemma filter_map_comm {A B : Type} (f : A -> B) (p : B -> bool) (l : list A) :
  filter p (map f l) = map f (filter (fun x => p (f x)) l).
Proof.
  induction l as [|x l IH]; simpl; [reflexivity|].
  destruct (p (f x)); simpl; congruence.
Qed.

(** X16.  On the table of rows with the six required columns the function
    returns the table of the rows whose annotation is not ["#"], with the
    three feature columns prefixed by the speaker: the rows that
    [make_metadata] aligns. *)
Theorem clean_of_row_table (ipu : list IpuRow) (speaker : Anchor) :
  _clean_and_prefix_ipu (ipu_frame ipu) speaker
  = Ok (mkFrame [ "start"; "end"; "annotation";
                  (anchor_name speaker ++ "_duration")%string;
                  (anchor_name speaker ++ "_n_syllables")%string;
                  (anchor_name speaker ++ "_rate")%string ]
                (map row_cells (clean_rows ipu))).
Proof.
  unfold _clean_and_prefix_ipu, ipu_frame. cbn [columns rows].
  change (Str.sorted (filter (fun c => negb (has_column c required_cols)) required_cols))
    with (@nil string).
  cbv beta iota. f_equal. f_equal.
  rewrite filter_map_comm. reflexivity.
Qed.

End CleanProofs.

(** * Order and grid of the event samples ([metadata_df_to_mne_events]) *)

Module SampleProofs.

Import Metadata.
Import Examples.
Import Binary64Facts.
Import EventsProofs.


Lemma events_ok (str_to_float : string -> fval) (cast_out_of_range : fval -> Z)
    (metadata_df : DataFrame) (sfreq_hz : Q) (first_samp : Z)
    (timestamp_col : string) (event_id : Z) :
  has_column timestamp_col (columns metadata_df) = true ->
  metadata_df_to_mne_events str_to_float cast_out_of_range
    metadata_df sfreq_hz first_samp timestamp_col event_id
  = Ok (map (fun t => (sample_of cast_out_of_range sfreq_hz first_samp t, 0%Z, event_id))
            (finite_values (map (to_numeric str_to_float)
                                (column metadata_df timestamp_col)))).
Proof.
  intros H. unfold metadata_df_to_mne_events. rewrite H. simpl.
  rewrite map_map. reflexivity.
Qed.


(** X18.  For [sfreq_hz >= 0] and samples in the range of [int64], the
    events keep the order of the timestamps: of two rows with finite
    timestamps, the one with the later timestamp never gets the earlier
    sample.  The range is that of the rounded float product [p] of each
    timestamp with [sfreq_hz], and of [rint(p) + first_samp]. *)
Theorem later_timestamp_no_earlier_sample
    (str_to_float : string -> fval) (cast_out_of_range : fval -> Z)
    (metadata_df : DataFrame) (sfreq_hz : Q) (first_samp : Z)
    (timestamp_col : string) (event_id : Z) :
  let finite :=
    finite_values (map (to_numeric str_to_float)
                       (column metadata_df timestamp_col)) in
  has_column timestamp_col (columns metadata_df) = true ->
  0 <= sfreq_hz ->
  (forall t : Q, In t finite ->
     exists p : Q,
       Binary64.round (t * sfreq_hz) = Num p
       /\ in_int64 (rint p) = true
       /\ in_int64 (rint p + first_samp) = true) ->
  exists events : list (Z * Z * Z),
    metadata_df_to_mne_events str_to_float cast_out_of_range
      metadata_df sfreq_hz first_samp timestamp_col event_id = Ok events
    /\ forall (i j : nat) (ti tj : Q) (ei ej : Z * Z * Z),
         nth_error finite i = Some ti -> nth_error finite j = Some tj ->
         nth_error events i = Some ei -> nth_error events j = Some ej ->
         ti <= tj -> (fst (fst ei) <= fst (fst ej))%Z.
Proof.
  intros finite Hcol Hs Hrange.
  eexists. split; [apply events_ok; exact Hcol|].
  fold finite. intros i j ti tj ei ej Hi Hj Ei Ej L.
  rewrite nth_error_map, Hi in Ei. rewrite nth_error_map, Hj in Ej.
  simpl in Ei, Ej. injection Ei as <-. injection Ej as <-. simpl.
  destruct (Hrange ti (nth_error_In _ _ Hi)) as (pi & Pi & A1 & A2).
  destruct (Hrange tj (nth_error_In _ _ Hj)) as (pj & Pj & B1 & B2).
  rewrite (sample_of_in_range cast_out_of_range sfreq_hz first_samp ti pi Pi A1 A2).
  rewrite (sample_of_in_range cast_out_of_range sfreq_hz first_samp tj pj Pj B1 B2).
  apply Z.add_le_mono_r. apply rint_mono.
  assert (M : F.le (Binary64.round (ti * sfreq_hz)) (Binary64.round (tj * sfreq_hz)) = true).
  { apply round_mono. apply Qmult_le_compat_r; assumption. }
  rewrite Pi, Pj in M. apply Qle_bool_iff. exact M.
Qed.

Lemma later_timestamp_no_earlier_sample_witness :
  exists events : list (Z * Z * Z),
    metadata_df_to_mne_events no_text_number cast_int64_min
      (mkFrame ["timestamp"]
               [[CFloat (Num (1 # 2))]; [CStr "bad"]; [CFloat (Num (1 # 8))]])
      100 10 "timestamp" 7 = Ok events
    /\ forall (i j : nat) (ti tj : Q) (ei ej : Z * Z * Z),
         nth_error [1 # 2; 1 # 8] i = Some ti -> nth_error [1 # 2; 1 # 8] j = Some tj ->
         nth_error events i = Some ei -> nth_error events j = Some ej ->
         ti <= tj -> (fst (fst ei) <= fst (fst ej))%Z.
Proof.
  refine (later_timestamp_no_earlier_sample no_text_number cast_int64_min
            (mkFrame ["timestamp"]
               [[CFloat (Num (1 # 2))]; [CStr "bad"]; [CFloat (Num (1 # 8))]])
            100 10 "timestamp" 7 eq_refl _ _).
  - discriminate.
  - simpl. intros t [<-|[<-|[]]].
    + exists 50. repeat split; vm_compute; reflexivity.
    + exists (25 # 2). repeat split; vm_compute; reflexivity.
Defined.

(** X19.  A timestamp that falls on the sampling grid, [t * sfreq_hz] being
    the integer [k], of at most 2^53 in absolute value so that the float
    product is [k] itself, gives the event sample [k + first_samp],
    whatever the other rows of the table. *)
Theorem timestamp_on_the_grid_gives_its_sample
    (str_to_float : string -> fval) (cast_out_of_range : fval -> Z)
    (metadata_df : DataFrame) (sfreq_hz : Q) (first_samp : Z)
    (timestamp_col : string) (event_id : Z) (i : nat) (t : Q) (k : Z) :
  has_column timestamp_col (columns metadata_df) = true ->
  nth_error (finite_values (map (to_numeric str_to_float)
                                (column metadata_df timestamp_col))) i = Some t ->
  t * sfreq_hz == inject_Z k ->
  (Z.abs k <= 2 ^ 53)%Z -> in_int64 (k + first_samp) = true ->
  exists events : list (Z * Z * Z),
    metadata_df_to_mne_events str_to_float cast_out_of_range
      metadata_df sfreq_hz first_samp timestamp_col event_id = Ok events
    /\ nth_error events i = Some ((k + first_samp)%Z, 0%Z, event_id).
Proof.
  intros Hcol Hi E R1 R2.
  eexists. split; [apply events_ok; exact Hcol|].
  rewrite nth_error_map, Hi. simpl.
  assert (P : Binary64.round (t * sfreq_hz) = Num (inject_Z k)).
  { rewrite (round_comp _ _ E). apply round_integer. exact R1. }
  assert (Hr : rint (inject_Z k) = k) by (apply rint_integer; reflexivity).
  assert (R0 : in_int64 k = true).
  { unfold in_int64, INT64_MIN, INT64_MAX.
    apply andb_true_iff. rewrite !Z.leb_le.
    assert (B : (2 ^ 53 < 2 ^ 63)%Z) by reflexivity. lia. }
  rewrite (sample_of_in_range cast_out_of_range sfreq_hz first_samp t (inject_Z k) P)
    by (rewrite Hr; assumption).
  rewrite Hr. reflexivity.
Qed.

Lemma timestamp_on_the_grid_gives_its_sample_witness :
  exists events : list (Z * Z * Z),
    metadata_df_to_mne_events no_text_number cast_int64_min
      (mkFrame ["timestamp"]
               [[CFloat (Num (1 # 2))]; [CStr "bad"]; [CFloat (Num (3 # 4))]])
      100 10 "timestamp" 7 = Ok events
    /\ nth_error events 1 = Some (85, 0, 7)%Z.
Proof.
  refine (timestamp_on_the_grid_gives_its_sample no_text_number cast_int64_min
            (mkFrame ["timestamp"]
               [[CFloat (Num (1 # 2))]; [CStr "bad"]; [CFloat (Num (3 # 4))]])
            100 10 "timestamp" 7 1 (3 # 4) 75 eq_refl eq_refl _ _ eq_refl).
  - reflexivity.
  - vm_compute. discriminate.
Defined.

(** The range is that of the float product.  The exact product of the
    floats 60247241209 and 153092023 is 2^63 - 1, the largest [int64]; the
    float product is 2^63, and the cast is out of range. *)
Example product_rounds_out_of_range :
  (60247241209 * 153092023 = 2 ^ 63 - 1)%Z
  /\ Binary64.round (60247241209 * 153092023) = Num (inject_Z (2 ^ 63))
  /\ in_int64 (2 ^ 63) = false
  /\ forall cast_out_of_range : fval -> Z,
       sample_of cast_out_of_range 153092023 0 60247241209
       = wrap64 (cast_out_of_range (Num (inject_Z (2 ^ 63))) + 0).
Proof. repeat split. Qed.

End SampleProofs.

(** * The metadata table ([make_metadata]) *)

Module MetadataProofs.

Import Binary64Facts.

Import Metadata.
Import MakeMetadata.
Import AlignmentProofs.

Lemma make_metadata_ok (float_repr : fval -> string)
    (self_ipu other_ipu : list IpuRow) (time_lock anchor : string)
    (margin_s : fval) (rows : list MetadataRow) :
  make_metadata float_repr self_ipu other_ipu time_lock anchor margin_s = Ok rows ->
  (time_lock = "onset" \/ time_lock = "offset")
  /\ (anchor = "self" \/ anchor = "other")
  /\ (exists q : Q, margin_s = Num q /\ 0 < q)
  /\ rows = _finalize_combined_metadata (anchor_of anchor)
              (_combine_annotations (clean_rows self_ipu) (clean_rows other_ipu)
                 (time_lock_of time_lock) (anchor_of anchor) margin_s)
              (time_lock_of time_lock).
Proof.
  unfold make_metadata, _validate_time_lock, _validate_anchor, _validate_margin.
  cbn [existsb].
  destruct (String.eqb_spec time_lock "onset") as [T1|T1];
    destruct (String.eqb_spec time_lock "offset") as [T2|T2];
    cbn [orb negb bind]; try discriminate;
    (destruct (String.eqb_spec anchor "self") as [A1|A1];
     destruct (String.eqb_spec anchor "other") as [A2|A2];
     cbn [orb negb bind]; try discriminate);
    (destruct margin_s as [q| | |]; cbn [isfinite negb orb F.le bind]; try discriminate;
     destruct (Qleb q 0) eqn:Q0; cbn [bind]; try discriminate;
     intros H; injection H as <-;
     (split; [tauto|]); (split; [tauto|]);
     (split; [exists q; split; [reflexivity|];
              apply Qleb_gt0; exact Q0 | reflexivity])).
Qed.

Lemma find_adjacent_nearest (time_lock : TimeLock) (anchor : Anchor)
    (margin_s : fval) (row : IpuRow) (ref : list IpuRow) :
  let o := origin_col time_lock row in
  window_rows time_lock margin_s o ref <> [] ->
  exists best : IpuRow,
    In best (window_rows time_lock margin_s o ref)
    /\ _find_adjacent time_lock anchor margin_s row ref
       = combine (out_cols anchor)
                 (features best ++ [F.sub o (target_col time_lock best)])
    /\ forall r : IpuRow,
         In r (window_rows time_lock margin_s o ref) ->
         F.le (distance time_lock o best) (distance time_lock o r) = true.
Proof.
  intros o Hne.
  set (cands := window_rows time_lock margin_s o ref) in *.
  set (diffs := map (distance time_lock o) cands).
  assert (Hdne : diffs <> []).
  { unfold diffs. destruct cands; [congruence | discriminate]. }
  destruct (idxmin_spec diffs Hdne (window_distances_no_nan _ _ _ _))
    as (x & Hx & Hmin & _).
  assert (Hx' : option_map (distance time_lock o) (nth_error cands (idxmin diffs))
                = Some x)
    by (rewrite <- nth_error_map; exact Hx).
  destruct (nth_error cands (idxmin diffs)) as [best|] eqn:Hbest; [|discriminate].
  simpl in Hx'. injection Hx' as <-.
  exists best. split; [|split].
  - apply nth_error_In with (idxmin diffs). exact Hbest.
  - unfold _find_adjacent. fold o. fold cands.
    destruct cands as [|first rest] eqn:Hc; [congruence|].
    cbv zeta. fold diffs.
    rewrite (nth_error_nth _ _ first Hbest). reflexivity.
  - intros r Hr. rewrite Forall_forall in Hmin. apply Hmin.
    unfold diffs. apply in_map. exact Hr.
Qed.

Lemma find_adjacent_cases (time_lock : TimeLock) (anchor : Anchor)
    (margin_s : fval) (row : IpuRow) (ref : list IpuRow) :
  let o := origin_col time_lock row in
  (window_rows time_lock margin_s o ref = []
   /\ _find_adjacent time_lock anchor margin_s row ref
      = map (fun c => (c, NaN)) (out_cols anchor))
  \/ (exists best : IpuRow,
        In best (window_rows time_lock margin_s o ref)
        /\ _find_adjacent time_lock anchor margin_s row ref
           = combine (out_cols anchor)
                     (features best ++ [F.sub o (target_col time_lock best)])
        /\ forall r : IpuRow,
             In r (window_rows time_lock margin_s o ref) ->
             F.le (distance time_lock o best) (distance time_lock o r) = true).
Proof.
  intros o.
  destruct (window_rows time_lock margin_s o ref) eqn:W.
  - left. split; [reflexivity|]. apply find_adjacent_no_candidate. exact W.
  - right. rewrite <- W. apply find_adjacent_nearest. fold o. rewrite W. discriminate.
Qed.

Lemma clean_rows_In (ipu : list IpuRow) (r : IpuRow) :
  In r (clean_rows ipu) <-> In r ipu /\ annotation r <> "#".
Proof.
  unfold clean_rows. rewrite filter_In, negb_true_iff.
  split; intros [H1 H2]; (split; [exact H1|]).
  - apply String.eqb_neq. exact H2.
  - apply String.eqb_neq. exact H2.
Qed.

Lemma latency_of_series (anchor : Anchor) (p : IpuRow) (x : fval) :
  series_get "latency" (combine (out_cols anchor) (features p ++ [x])) = x.
Proof. destruct anchor; reflexivity. Qed.

Lemma latency_of_unmatched (anchor : Anchor) :
  series_get "latency" (map (fun c => (c, NaN)) (out_cols anchor)) = NaN.
Proof. destruct anchor; reflexivity. Qed.

(** Inside the window of a finite margin the origin is a number. *)
Lemma in_window_origin (time_lock : TimeLock) (m : Q) (origin_t : fval) (r : IpuRow) :
  in_window time_lock (Num m) origin_t r = true ->
  exists o : Q,
    origin_t = Num o
    /\ F.le (F.sub (Num o) (Num m)) (target_col time_lock r) = true
    /\ F.lt (target_col time_lock r) (F.add (Num o) (Num m)) = true.
Proof.
  unfold in_window. intros H.
  apply andb_true_iff in H. destruct H as [H1 H2].
  destruct origin_t as [o| | |].
  - exists o. auto.
  - cbn [F.sub F.add F.neg F.le] in H1. discriminate H1.
  - cbn [F.sub F.add F.neg] in H1, H2.
    destruct (target_col time_lock r);
      first [discriminate H1 | discriminate H2].
  - cbn [F.sub F.add F.neg] in H1, H2.
    destruct (target_col time_lock r); discriminate H2.
Qed.

(** X20.  On tables with the six required columns, [make_metadata]
    returns a table exactly when [time_lock] is ["onset"] or ["offset"],
    [anchor] is ["self"] or ["other"] and [margin_s] is a finite number
    above zero, whatever the rows; every error it raises otherwise is a
    [ValueError]. *)
Theorem make_metadata_checks_its_arguments (float_repr : fval -> string)
    (self_ipu other_ipu : list IpuRow) (time_lock anchor : string)
    (margin_s : fval) :
  ((exists rows : list MetadataRow,
      make_metadata float_repr self_ipu other_ipu time_lock anchor margin_s = Ok rows)
   <-> (time_lock = "onset" \/ time_lock = "offset")
       /\ (anchor = "self" \/ anchor = "other")
       /\ exists q : Q, margin_s = Num q /\ 0 < q)
  /\ forall e : exn,
       make_metadata float_repr self_ipu other_ipu time_lock anchor margin_s = Raise e ->
       exists msg : string, e = ValueError msg.
Proof.
  split; [split|].
  - intros [rows H]. apply make_metadata_ok in H. tauto.
  - intros (Htl & Han & q & -> & Hq).
    apply Qleb_gt0 in Hq.
    unfold make_metadata, _validate_time_lock, _validate_anchor, _validate_margin.
    cbn [isfinite negb orb F.le]. rewrite Hq.
    destruct Htl as [-> | ->]; destruct Han as [-> | ->]; eexists; reflexivity.
  - intros e.
    unfold make_metadata, _validate_time_lock, _validate_anchor, _validate_margin.
    destruct (negb (existsb (String.eqb time_lock) ["onset"; "offset"]));
      cbn [bind]; [intros H; injection H as <-; eexists; reflexivity|].
    destruct (negb (existsb (String.eqb anchor) ["self"; "other"]));
      cbn [bind]; [intros H; injection H as <-; eexists; reflexivity|].
    destruct (negb (isfinite margin_s) || F.le margin_s (Num 0));
      cbn [bind]; [intros H; injection H as <-; eexists; reflexivity|].
    discriminate.
Qed.

(** X21.  The metadata table has one row for each row of the anchor
    speaker's table whose annotation is not ["#"], in the order of that
    table: its [timestamp] is the row's [start] under ["onset"] and its
    [end] under ["offset"], and the anchor's own three feature columns hold
    the row's [duration], [n_syllables] and [rate]. *)
Theorem metadata_rows_follow_anchor_table (float_repr : fval -> string)
    (self_ipu other_ipu : list IpuRow) (time_lock anchor : string)
    (margin_s : fval) (rows : list MetadataRow) :
  make_metadata float_repr self_ipu other_ipu time_lock anchor margin_s = Ok rows ->
  let base := clean_rows (if anchor =? "self" then self_ipu else other_ipu) in
  map timestamp rows = map (if time_lock =? "onset" then start else end_) base
  /\ map (own_features (anchor_of anchor)) rows = map features base.
Proof.
  intros H base. apply make_metadata_ok in H.
  destruct H as (_ & _ & _ & ->).
  unfold _finalize_combined_metadata, _combine_annotations.
  rewrite !map_map. cbn [anchor_row added].
  unfold base, anchor_of, time_lock_of.
  destruct (anchor =? "self"); destruct (time_lock =? "onset"); split;
    apply map_ext; intros r; reflexivity.
Qed.

Lemma metadata_rows_follow_anchor_table_witness :
  map timestamp test_metadata = map start (clean_rows test_self_ipu)
  /\ map (own_features self) test_metadata = map features (clean_rows test_self_ipu).
Proof.
  apply (metadata_rows_follow_anchor_table no_float_repr test_self_ipu
           test_other_ipu "onset" "self" (Num 1) test_metadata).
  reflexivity.
Defined.

(** X22.  Every row of the metadata table is either unmatched, with [NaN]
    in the three partner columns, in [latency] and in [abs_diff], or takes
    its partner columns from one row of the partner's table whose annotation
    is not ["#"]; then the [timestamp] is a number, that partner row's
    [end] (under ["onset"]) or [start] (under ["offset"]) is in the window
    of the floats [timestamp - margin_s] and [timestamp + margin_s], and
    [latency] is the float [timestamp] minus it, between the floats
    [timestamp - (timestamp + margin_s)] and
    [timestamp - (timestamp - margin_s)]. *)
Theorem metadata_partner_is_a_clean_row_within_margin
    (float_repr : fval -> string)
    (self_ipu other_ipu : list IpuRow) (time_lock anchor : string)
    (margin_s : fval) (rows : list MetadataRow) :
  make_metadata float_repr self_ipu other_ipu time_lock anchor margin_s = Ok rows ->
  let ref := if anchor =? "self" then other_ipu else self_ipu in
  forall r : MetadataRow,
    In r rows ->
    (partner_features (anchor_of anchor) r = [NaN; NaN; NaN]
     /\ latency r = NaN /\ abs_diff r = NaN)
    \/ (exists (p : IpuRow) (m o : Q),
          In p ref /\ annotation p <> "#"
          /\ partner_features (anchor_of anchor) r = features p
          /\ margin_s = Num m /\ 0 < m /\ timestamp r = Num o
          /\ let t := if time_lock =? "onset" then end_ p else start p in
             let lo := F.sub (Num o) (Num m) in
             let hi := F.add (Num o) (Num m) in
             F.le lo t = true /\ F.lt t hi = true
             /\ latency r = F.sub (Num o) t
             /\ F.le (F.sub (Num o) hi) (latency r) = true
             /\ F.le (latency r) (F.sub (Num o) lo) = true).
Proof.
  intros H ref r Hr. apply make_metadata_ok in H.
  destruct H as (_ & _ & (m & -> & Hm) & ->).
  unfold _finalize_combined_metadata in Hr. apply in_map_iff in Hr.
  destruct Hr as (c & <- & Hc).
  unfold _combine_annotations in Hc. apply in_map_iff in Hc.
  destruct Hc as (row & <- & Hrow). cbn [anchor_row added].
  match goal with
  | |- context [_find_adjacent ?tl ?an ?mg ?rw ?rf] =>
      destruct (find_adjacent_cases tl an mg rw rf) as [[_ E] | (best & Hb & E & _)];
        rewrite E; clear E
  end.
  - left. unfold anchor_of. destruct (anchor =? "self"); cbn.
    + destruct (rate row); repeat split; reflexivity.
    + repeat split; reflexivity.
  - right. apply window_rows_In in Hb. destruct Hb as [Hin Hw].
    apply in_window_origin in Hw. destruct Hw as (o & Ho & L1 & L2).
    exists best, m, o.
    assert (Hclean : In best ref /\ annotation best <> "#").
    { unfold ref, anchor_of in *.
      destruct (anchor =? "self"); apply clean_rows_In; exact Hin. }
    destruct Hclean as [Hp Ha].
    split; [exact Hp|]. split; [exact Ha|].
    rewrite latency_of_series. rewrite Ho.
    assert (B1 : F.le (F.sub (Num o) (F.add (Num o) (Num m)))
                      (F.sub (Num o) (target_col (time_lock_of time_lock) best)) = true)
      by (apply FFacts.sub_num_anti; apply FFacts.lt_le; exact L2).
    assert (B2 : F.le (F.sub (Num o) (target_col (time_lock_of time_lock) best))
                      (F.sub (Num o) (F.sub (Num o) (Num m))) = true)
      by (apply FFacts.sub_num_anti; exact L1).
    unfold anchor_of, time_lock_of in *.
    destruct (anchor =? "self"); destruct (time_lock =? "onset");
      cbn [partner_features features target_col origin_col timestamp
           other_duration other_n_syllables other_rate
           self_duration self_n_syllables self_rate
           combined_column series_get] in Ho, L1, L2, B1, B2 |- *;
      cbv zeta; repeat split; try reflexivity; try assumption.
Qed.

Lemma metadata_partner_is_a_clean_row_within_margin_witness :
  (partner_features self matched_row = [NaN; NaN; NaN]
   /\ latency matched_row = NaN /\ abs_diff matched_row = NaN)
  \/ (exists (p : IpuRow) (m o : Q),
        In p test_other_ipu /\ annotation p <> "#"
        /\ partner_features self matched_row = features p
        /\ Num 1 = Num m /\ 0 < m /\ timestamp matched_row = Num o
        /\ let t := end_ p in
           let lo := F.sub (Num o) (Num m) in
           let hi := F.add (Num o) (Num m) in
           F.le lo t = true /\ F.lt t hi = true
           /\ latency matched_row = F.sub (Num o) t
           /\ F.le (F.sub (Num o) hi) (latency matched_row) = true
           /\ F.le (latency matched_row) (F.sub (Num o) lo) = true).
Proof.
  apply (metadata_partner_is_a_clean_row_within_margin no_float_repr test_self_ipu
           test_other_ipu "onset" "self" (Num 1) test_metadata eq_refl matched_row).
  simpl. left. reflexivity.
Defined.

(** The latency is not within the margin itself.  With the timestamp 0.14
    and a margin of 1.5 the partner's float 1.64 is below the float
    [0.14 + 1.5], and the latency is the float -1.5.  With the timestamp
    0.45 and a margin of 0.1 the partner's float 0.35 is the float
    [0.45 - 0.1], and the latency is a float above 0.1. *)
Example latency_at_the_margin :
  in_window onset (Num (3 # 2)) (Num (Examples.float_literal (14 # 100)))
    (Examples.ipu 0 (Examples.float_literal (164 # 100)) "p" 1 1 10) = true
  /\ F.sub (Num (Examples.float_literal (14 # 100))) (Num (Examples.float_literal (164 # 100)))
     = Num (- 3 # 2)
  /\ in_window onset (Num (Examples.float_literal (1 # 10))) (Num (Examples.float_literal (45 # 100)))
       (Examples.ipu 0 (Examples.float_literal (35 # 100)) "p" 1 1 10) = true
  /\ F.lt (Num (Examples.float_literal (1 # 10)))
          (F.sub (Num (Examples.float_literal (45 # 100))) (Num (Examples.float_literal (35 # 100))))
     = true.
Proof. repeat split; vm_compute; reflexivity. Qed.

Lemma Qabs_sub_comm (a b : Q) : Qabs (a - b) = Qabs (b - a).
Proof.
  destruct a as [an ad], b as [bn bd].
  unfold Qabs, Qminus, Qplus, Qopp. cbn [Qnum Qden].
  f_equal; [lia | apply Pos.mul_comm].
Qed.

Lemma abs_sub_comm (x y : fval) : F.abs (F.sub x y) = F.abs (F.sub y x).
Proof.
  destruct x as [a| | |], y as [b| | |]; try reflexivity.
  rewrite !FFacts.sub_finite.
  assert (E : b - a == - (a - b)) by ring.
  rewrite (round_comp _ _ E), round_opp. symmetry. apply FFacts.abs_neg.
Qed.

(** X23.  Anchoring on the other speaker is anchoring on self with the two
    tables exchanged: [make_metadata(A, B, anchor="other")] is
    [make_metadata(B, A, anchor="self")] with the values of the [self_]
    columns and of the [other_] columns exchanged, and it raises the same
    error when that call raises one. *)
Theorem anchoring_on_other_swaps_the_speakers (float_repr : fval -> string)
    (self_ipu other_ipu : list IpuRow) (time_lock : string) (margin_s : fval) :
  match make_metadata float_repr other_ipu self_ipu time_lock "self" margin_s with
  | Ok rows =>
      make_metadata float_repr self_ipu other_ipu time_lock "other" margin_s
      = Ok (map swap_speakers rows)
  | Raise e =>
      make_metadata float_repr self_ipu other_ipu time_lock "other" margin_s
      = Raise e
  end.
Proof.
  unfold make_metadata.
  destruct (_validate_time_lock time_lock) as [u1|e]; cbn [bind]; [|reflexivity].
  change (_validate_anchor "self") with (Ok tt).
  change (_validate_anchor "other") with (Ok tt).
  cbn [bind].
  destruct (_validate_margin float_repr margin_s) as [u3|e]; cbn [bind]; [|reflexivity].
  f_equal.
  change (anchor_of "self") with self. change (anchor_of "other") with other.
  unfold _finalize_combined_metadata, _combine_annotations.
  rewrite !map_map. apply map_ext. intros row. cbn [anchor_row added].
  unfold _find_adjacent.
  destruct (window_rows (time_lock_of time_lock) margin_s
              (origin_col (time_lock_of time_lock) row) (clean_rows self_ipu))
    as [|first rest].
  - cbn. unfold swap_speakers. cbn. f_equal. destruct (rate row); reflexivity.
  - cbv zeta.
    set (best := nth _ _ first).
    set (lat := F.sub _ _).
    cbn. unfold swap_speakers. cbn. f_equal. apply abs_sub_comm.
Qed.

Lemma make_metadata_valid (float_repr : fval -> string)
    (self_ipu other_ipu : list IpuRow) (time_lock anchor : string) (m : Q) :
  (time_lock = "onset" \/ time_lock = "offset") ->
  (anchor = "self" \/ anchor = "other") ->
  0 < m ->
  make_metadata float_repr self_ipu other_ipu time_lock anchor (Num m)
  = Ok (_finalize_combined_metadata (anchor_of anchor)
          (_combine_annotations (clean_rows self_ipu) (clean_rows other_ipu)
             (time_lock_of time_lock) (anchor_of anchor) (Num m))
          (time_lock_of time_lock)).
Proof.
  intros Htl Han Hm. apply Qleb_gt0 in Hm.
  unfold make_metadata, _validate_time_lock, _validate_anchor, _validate_margin.
  cbn [isfinite negb orb F.le]. rewrite Hm.
  destruct Htl as [-> | ->]; destruct Han as [-> | ->]; reflexivity.
Qed.

Lemma in_window_wider (time_lock : TimeLock) (m m' : Q) (origin_t : fval)
    (r : IpuRow) :
  m <= m' ->
  in_window time_lock (Num m) origin_t r = true ->
  in_window time_lock (Num m') origin_t r = true.
Proof.
  intros L H. apply in_window_origin in H.
  destruct H as (o & -> & L1 & L2).
  assert (Lm : F.le (Num m) (Num m') = true) by (apply Qleb_le; exact L).
  unfold in_window. apply andb_true_iff. split.
  - apply FFacts.le_trans with (F.sub (Num o) (Num m)); [|exact L1].
    apply FFacts.sub_num_anti. exact Lm.
  - apply FFacts.lt_le_trans with (F.add (Num o) (Num m)); [exact L2|].
    apply FFacts.add_num_mono. exact Lm.
Qed.

(** X24.  A wider margin never loses a match: when [margin_s] grows the
    table keeps its number of rows, a row that had a partner still has
    one, and its latency is no larger in absolute value than before. *)
Theorem wider_margin_keeps_matches (float_repr : fval -> string)
    (self_ipu other_ipu : list IpuRow) (time_lock anchor : string)
    (m m' : Q) (rows : list MetadataRow) :
  m <= m' ->
  make_metadata float_repr self_ipu other_ipu time_lock anchor (Num m) = Ok rows ->
  exists rows' : list MetadataRow,
    make_metadata float_repr self_ipu other_ipu time_lock anchor (Num m') = Ok rows'
    /\ List.length rows' = List.length rows
    /\ forall (i : nat) (r r' : MetadataRow) (l : Q),
         nth_error rows i = Some r -> nth_error rows' i = Some r' ->
         latency r = Num l ->
         exists l' : Q, latency r' = Num l' /\ Qabs l' <= Qabs l.
Proof.
  intros L H. apply make_metadata_ok in H.
  destruct H as (Htl & Han & (q & Hq & Hm) & ->). injection Hq as <-.
  eexists. split; [apply make_metadata_valid; try assumption; lra|].
  unfold _finalize_combined_metadata, _combine_annotations.
  rewrite !map_map. cbn [anchor_row added].
  split; [rewrite !length_map; reflexivity|].
  intros i r r' l Hr Hr' Hl.
  rewrite nth_error_map in Hr, Hr'.
  destruct (nth_error _ i) as [row|]; [|discriminate].
  cbn [option_map] in Hr, Hr'. injection Hr as <-. injection Hr' as <-.
  cbn [latency] in *.
  set (tl := time_lock_of time_lock) in *.
  set (an := anchor_of anchor) in *.
  set (ref := match an with self => clean_rows other_ipu | other => clean_rows self_ipu end) in *.
  destruct (find_adjacent_cases tl an (Num m) row ref)
    as [[_ E] | (best & Hb & E & _)]; rewrite E in Hl; clear E.
  - rewrite latency_of_unmatched in Hl. discriminate.
  - rewrite latency_of_series in Hl.
    apply window_rows_In in Hb. destruct Hb as [Hin Hw].
    assert (Hw' : in_window tl (Num m') (origin_col tl row) best = true)
      by (apply in_window_wider with m; assumption).
    assert (Hne : window_rows tl (Num m') (origin_col tl row) ref <> []).
    { intros E.
      assert (Hb' : In best (window_rows tl (Num m') (origin_col tl row) ref))
        by (apply window_rows_In; split; assumption).
      rewrite E in Hb'. exact Hb'. }
    destruct (find_adjacent_nearest tl an (Num m') row ref Hne)
      as (best' & Hb' & E & Hmin). rewrite E, latency_of_series.
    specialize (Hmin best (proj2 (window_rows_In _ _ _ _ _) (conj Hin Hw'))).
    unfold distance in Hmin. rewrite Hl in Hmin.
    destruct (F.sub (origin_col tl row) (target_col tl best')) as [l'| | |];
      cbn [F.abs F.le] in Hmin; try discriminate Hmin.
    exists l'. split; [reflexivity|].
    apply Qleb_le. exact Hmin.
Qed.

Lemma wider_margin_keeps_matches_witness :
  exists rows' : list MetadataRow,
    make_metadata no_float_repr test_self_ipu test_other_ipu "onset" "self" (Num 2)
    = Ok rows'
    /\ List.length rows' = List.length test_metadata
    /\ forall (i : nat) (r r' : MetadataRow) (l : Q),
         nth_error test_metadata i = Some r -> nth_error rows' i = Some r' ->
         latency r = Num l ->
         exists l' : Q, latency r' = Num l' /\ Qabs l' <= Qabs l.
Proof.
  apply (wider_margin_keeps_matches no_float_repr test_self_ipu test_other_ipu
           "onset" "self" 1 2 test_metadata).
  - discriminate.
  - reflexivity.
Defined.

End MetadataProofs.

(** * The command [palign-to-ipu]: sorted tokens and rendered speech *)

Module CommandProofs.

Import PalignCore.
Import Tiers.
Import Runs.
Import RunProofs.
Import RenderProofs.
Import PalignToIpuCli.

Lemma render_from_complete (ipu_label silence_label : string) (t_end : Q)
    (kept : list Segment) (k : Segment) :
  forall c : Q,
    In k kept ->
    In (mkInterval (fst k) (snd k) ipu_label)
       (render_from ipu_label silence_label t_end c kept).
Proof.
  induction kept as [|[s e] kept IH]; intros c Hin; [destruct Hin|].
  simpl. apply in_or_app. right.
  destruct Hin as [<-|Hin]; [left; reflexivity | right; apply IH; exact Hin].
Qed.

(** X26.  For [t_start <= t_end] and [min_ipu_s >= 0], a segment of
    positive duration that lasts at least [min_ipu_s] and still has positive
    length once clamped to the timeline is rendered: the tier has the IPU
    interval [max(t_start, s), min(t_end, e)]. *)
Theorem long_enough_segment_is_rendered
    (t_start t_end : Q) (ipu_segments : list Segment) (min_ipu_s : Q)
    (ipu_label silence_label : string) (s e : Q) :
  t_start <= t_end -> 0 <= min_ipu_s ->
  In (s, e) ipu_segments ->
  s < e -> min_ipu_s <= e - s ->
  Qmax t_start s < Qmin t_end e ->
  exists tier : list Interval,
    apply_min_ipu_and_render_full_tier t_start t_end ipu_segments min_ipu_s
      ipu_label silence_label = Ok tier
    /\ In (mkInterval (Qmax t_start s) (Qmin t_end e) ipu_label) tier.
Proof.
  intros Ht Hmin Hin Hse Hdur Hpos.
  eexists. split; [apply apply_ok; assumption|].
  apply (render_from_complete ipu_label silence_label t_end _
           (Qmax t_start s, Qmin t_end e)).
  apply kept_segments_In. split; [exact Hpos|].
  exists s, e. auto.
Qed.

Lemma long_enough_segment_is_rendered_witness :
  exists tier : list Interval,
    apply_min_ipu_and_render_full_tier 0 2 [(1 # 2, 1); (15 # 10, 152 # 100); (18 # 10, 3)]
      (5 # 100) "IPU" "#" = Ok tier
    /\ In (mkInterval (Qmax 0 (18 # 10)) (Qmin 2 3) "IPU") tier.
Proof.
  apply (long_enough_segment_is_rendered 0 2
           [(1 # 2, 1); (15 # 10, 152 # 100); (18 # 10, 3)] (5 # 100) "IPU" "#"
           (18 # 10) 3).
  - discriminate.
  - discriminate.
  - simpl. right. right. left. reflexivity.
  - reflexivity.
  - discriminate.
  - reflexivity.
Defined.

Lemma key_lt_asym (x y : Interval) : key_lt x y = true -> key_lt y x = false.
Proof.
  unfold key_lt.
  destruct (Qeq_bool (start x) (start y)) eqn:E.
  - apply Qeq_bool_iff in E.
    assert (E' : Qeq_bool (start y) (start x) = true)
      by (apply Qeq_bool_iff; symmetry; exact E).
    rewrite E'. rewrite Qltb_lt. intros H. apply Qltb_ge. lra.
  - assert (E' : Qeq_bool (start y) (start x) = false).
    { destruct (Qeq_bool (start y) (start x)) eqn:E2; [|reflexivity].
      apply Qeq_bool_iff in E2. symmetry in E2. apply Qeq_bool_iff in E2. congruence. }
    rewrite E'. rewrite Qltb_lt. intros H. apply Qltb_ge. lra.
Qed.

Lemma key_ge_start (x y : Interval) : key_lt y x = false -> start x <= start y.
Proof.
  unfold key_lt.
  destruct (Qeq_bool (start y) (start x)) eqn:E.
  - apply Qeq_bool_iff in E. intros _. lra.
  - intros H. apply Qltb_ge in H. exact H.
Qed.

Lemma insert_token_perm (x : Interval) (placed : list Interval) :
  Permutation (x :: placed) (insert_token x placed).
Proof.
  induction placed as [|y tl IH]; simpl; [apply Permutation_refl|].
  destruct (key_lt x y); [apply Permutation_refl|].
  apply perm_trans with (y :: x :: tl); [apply perm_swap|].
  apply perm_skip. exact IH.
Qed.

Lemma by_key_cons (a : Interval) (l : list Interval) :
  by_key l -> (forall b tl, l = b :: tl -> key_lt b a = false) -> by_key (a :: l).
Proof.
  destruct l as [|b tl]; [intros; exact I|].
  intros H Hb. split; [apply (Hb b tl eq_refl) | exact H].
Qed.

Lemma by_key_tail (a : Interval) (l : list Interval) : by_key (a :: l) -> by_key l.
Proof. destruct l; [intros; exact I | intros [_ H]; exact H]. Qed.

Lemma insert_token_by_key (x : Interval) (placed : list Interval) :
  by_key placed -> by_key (insert_token x placed).
Proof.
  induction placed as [|y tl IH]; intros H; [exact I|].
  simpl. destruct (key_lt x y) eqn:E.
  - split; [apply key_lt_asym; exact E | exact H].
  - apply by_key_cons; [apply IH; apply by_key_tail with y; exact H|].
    intros b tl' Hb. destruct tl as [|z tl]; simpl in Hb.
    + injection Hb as <- _. exact E.
    + destruct H as [Hzy _].
      destruct (key_lt x z); injection Hb as <- _; assumption.
Qed.

Lemma sort_from_perm (tokens placed : list Interval) :
  Permutation (placed ++ tokens)
              (fold_left (fun placed x => insert_token x placed) tokens placed).
Proof.
  revert placed. induction tokens as [|x tokens IH]; intros placed; simpl.
  - rewrite app_nil_r. apply Permutation_refl.
  - apply perm_trans with (insert_token x placed ++ tokens); [|apply IH].
    apply perm_trans with ((x :: placed) ++ tokens).
    + apply Permutation_sym. apply Permutation_middle.
    + apply Permutation_app_tail. apply insert_token_perm.
Qed.

Lemma sort_from_by_key (tokens placed : list Interval) :
  by_key placed ->
  by_key (fold_left (fun placed x => insert_token x placed) tokens placed).
Proof.
  revert placed. induction tokens as [|x tokens IH]; intros placed H; simpl.
  - exact H.
  - apply IH. apply insert_token_by_key. exact H.
Qed.

Lemma by_key_by_start (tokens : list Interval) : by_key tokens -> by_start tokens.
Proof.
  induction tokens as [|a [|b tl] IH]; intros H; try exact I.
  destruct H as [Hab H]. split; [apply key_ge_start; exact Hab | apply IH; exact H].
Qed.

(** X27.  [_read_tokensalign_intervals] returns the time bounds of the
    TextGrid and the entries of the tier, all of them, reordered by start
    and, at equal start, by end. *)
Theorem tokens_are_the_entries_in_key_order
    (minTimestamp maxTimestamp : Q) (entries : list Interval) :
  let '(t_start, t_end, tokens) :=
    _read_tokensalign_intervals minTimestamp maxTimestamp entries in
  t_start = minTimestamp /\ t_end = maxTimestamp
  /\ Permutation entries tokens
  /\ by_start tokens
  /\ forall (i : nat) (a b : Interval),
       nth_error tokens i = Some a -> nth_error tokens (S i) = Some b ->
       start a < start b \/ (start a == start b /\ end_ a <= end_ b).
Proof.
  unfold _read_tokensalign_intervals, sort_tokens.
  split; [reflexivity|]. split; [reflexivity|].
  pose proof (sort_from_by_key entries [] I) as K.
  split; [apply (sort_from_perm entries [])|].
  split; [apply by_key_by_start; exact K|].
  revert K.
  generalize (fold_left (fun placed x => insert_token x placed) entries []).
  intros l. induction l as [|x [|y l] IH]; intros K i a b Ha Hb.
  - destruct i; discriminate.
  - destruct i as [|[|i]]; discriminate.
  - destruct K as [Kxy K]. destruct i as [|i].
    + simpl in Ha, Hb. injection Ha as <-. injection Hb as <-.
      unfold key_lt in Kxy.
      destruct (Qeq_bool (start y) (start x)) eqn:E.
      * apply Qeq_bool_iff in E. apply Qltb_ge in Kxy. right. split; [lra | exact Kxy].
      * apply Qltb_ge in Kxy.
        destruct (Qlt_le_dec (start x) (start y)) as [L|L]; [left; exact L|].
        exfalso. assert (E2 : start y == start x) by lra.
        apply Qeq_bool_iff in E2. congruence.
    + apply (IH K i a b); assumption.
Qed.

(** On tokens in order of their start the merged segments span every
    speech token. *)
Lemma merged_runs_cover (in_ipu : string -> bool) (min_silence_s : Q)
    (tokens : list Interval) (itv : Interval) :
  by_start tokens -> In itv tokens -> in_ipu (text itv) = true ->
  exists seg : Segment,
    In seg (merge_pass min_silence_s (raw_runs in_ipu tokens)) /\ covers seg itv.
Proof.
  intros Hs Hin E. rewrite raw_runs_runs_from.
  assert (Hnone : forall seg : Segment,
            None = Some seg -> Forall (fun t => fst seg <= start t) tokens)
    by (intros seg [=]).
  destruct (runs_from_cover in_ipu tokens None Hs Hnone itv Hin E) as (seg & Hseg & Hc).
  pose proof (runs_from_sorted in_ipu tokens None Hs Hnone) as Hsorted.
  destruct (runs_from in_ipu None tokens) as [|first rest]; [destruct Hseg|].
  rewrite MergeProofs.merge_pass_cons.
  apply (merge_from_cover min_silence_s rest first itv Hsorted).
  destruct Hseg as [<-|Hseg]; [left; exact Hc | right; exists seg; auto].
Qed.

(** X28.  The command, from the tier read to the tier written: whatever
    the order of the entries, a speech token of positive duration that lies
    inside the time bounds and lasts at least [min_ipu_s] is inside an
    interval of the written tier labelled [IPU]. *)
Theorem long_enough_speech_token_is_inside_an_ipu
    (cfg : PalignToIpuCliConfig) (minTimestamp maxTimestamp : Q)
    (entries : list Interval) (token : Interval) :
  0 <= min_silence_s cfg -> 0 <= min_ipu_s cfg ->
  In token entries ->
  _is_token_in_ipu (text token) (include_laughter cfg) (include_noise cfg)
    (include_filled_pause cfg) = true ->
  minTimestamp <= start token -> start token < end_ token ->
  end_ token <= maxTimestamp ->
  min_ipu_s cfg <= end_ token - start token ->
  exists tier : list Interval,
    run cfg minTimestamp maxTimestamp entries = Ok tier
    /\ exists itv : Interval,
         In itv tier /\ text itv = IPU_LABEL
         /\ start itv <= start token /\ end_ token <= end_ itv.
Proof.
  intros Hsil Hmin Hin Hspeech Hlo Hpos Hhi Hdur.
  unfold run, _read_tokensalign_intervals.
  rewrite (MergeProofs.build_ok _ _ _ _ _ Hsil). cbn [bind].
  assert (Ht : minTimestamp <= maxTimestamp) by lra.
  rewrite (apply_ok _ _ _ _ _ _ Ht Hmin).
  eexists. split; [reflexivity|].
  assert (Hs : by_start (sort_tokens entries)).
  { apply by_key_by_start. apply (sort_from_by_key entries [] I). }
  assert (Hin' : In token (sort_tokens entries)).
  { apply (Permutation_in token (sort_from_perm entries [])). exact Hin. }
  destruct (merged_runs_cover
              (fun t => _is_token_in_ipu t (include_laughter cfg) (include_noise cfg)
                          (include_filled_pause cfg))
              (min_silence_s cfg) (sort_tokens entries) token Hs Hin' Hspeech)
    as ([s e] & Hseg & Hc1 & Hc2).
  simpl in Hc1, Hc2.
  exists (mkInterval (Qmax minTimestamp s) (Qmin maxTimestamp e) IPU_LABEL).
  assert (Hmax : Qmax minTimestamp s <= start token)
    by (apply Q.max_lub; assumption).
  assert (Hminq : end_ token <= Qmin maxTimestamp e)
    by (apply Q.min_glb; assumption).
  split; [|simpl; auto].
  apply (render_from_complete IPU_LABEL SILENCE_LABEL maxTimestamp _
           (Qmax minTimestamp s, Qmin maxTimestamp e)).
  apply kept_segments_In. simpl. split; [lra|].
  exists s, e. repeat split; [exact Hseg | lra | lra].
Qed.

Lemma long_enough_speech_token_is_inside_an_ipu_witness :
  exists tier : list Interval,
    run default_config 0 2 shuffled_entries = Ok tier
    /\ exists itv : Interval,
         In itv tier /\ text itv = IPU_LABEL
         /\ start itv <= 6 # 10 /\ 1 <= end_ itv.
Proof.
  apply (long_enough_speech_token_is_inside_an_ipu default_config 0 2
           shuffled_entries (mkInterval (6 # 10) 1 "b")).
  - discriminate.
  - discriminate.
  - left. reflexivity.
  - reflexivity.
  - discriminate.
  - reflexivity.
  - discriminate.
  - discriminate.
Defined.

End CommandProofs.

(** * The partner path ([infer_partner_ipu_path]) *)

Module PartnerPathProofs.

Import Metadata.
Import Examples.
Import PartnerProofs.
Import PartnerPath.

Local Open Scope string_scope.

Lemma rfind_dot_csv (s : string) :
  rfind_dot (s ++ ".csv") = Some (String.length s).
Proof.
  induction s as [|c s IH]; [reflexivity|].
  simpl. rewrite IH. reflexivity.
Qed.

Lemma substring_prefix (s t : string) :
  String.substring 0 (String.length s) (s ++ t) = s.
Proof.
  induction s as [|c s IH]; simpl.
  - destruct t; reflexivity.
  - rewrite IH. reflexivity.
Qed.

Lemma length_append (s t : string) :
  String.length (s ++ t)%string = (String.length s + String.length t)%nat.
Proof. induction s as [|c s IH]; simpl; [reflexivity | rewrite IH; reflexivity]. Qed.

(** The stem of a name that ends in [.csv]. *)
Lemma stem_csv (dir s : string) :
  s <> EmptyString -> stem (mkPath dir (s ++ ".csv")) = s.
Proof.
  intros Hs. unfold stem. cbn [name]. rewrite rfind_dot_csv.
  assert (L1 : (0 <? String.length s)%nat = true).
  { apply Nat.ltb_lt. destruct s; [congruence | simpl; lia]. }
  assert (L2 : (String.length s <? String.length (s ++ ".csv") - 1)%nat = true).
  { apply Nat.ltb_lt. rewrite length_append. simpl. lia. }
  rewrite L1, L2. apply substring_prefix.
Qed.

(** Three digits are what [zfill(3)] writes for the number they spell. *)
Lemma three_digits_write_back (id : string) (n : Z) :
  three_digits id -> Str.to_Z id = Some n -> Str.zfill 3 (Str.of_Z n) = id.
Proof.
  intros (c1 & c2 & c3 & -> & H1 & H2 & H3) Hn.
  apply is_digit_cases in H1, H2, H3. simpl in H1, H2, H3.
  repeat match goal with
         | H : _ \/ _ |- _ => destruct H as [<-|H]
         | H : False |- _ => destruct H
         end;
    vm_compute in Hn; injection Hn as <-; reflexivity.
Qed.

Lemma partner_of_partner (n : Z) : partner_of (partner_of n) = n.
Proof.
  unfold partner_of. destruct (Z.even n) eqn:E.
  - replace (n - 1)%Z with (Z.pred n) by lia. rewrite Z.even_pred.
    rewrite <- Z.negb_even, E. simpl. lia.
  - replace (n + 1)%Z with (Z.succ n) by lia. rewrite Z.even_succ.
    rewrite <- Z.negb_even, E. simpl. lia.
Qed.

Lemma partner_of_differs (n : Z) : partner_of n <> n.
Proof. unfold partner_of. destruct (Z.even n); lia. Qed.

Lemma partner_name_csv (other_id run : string) :
  "sub-" ++ other_id ++ "_run-" ++ run ++ "_ipu.csv"
  = ("sub-" ++ other_id ++ "_" ++ "run-" ++ run ++ "_ipu") ++ ".csv".
Proof.
  simpl. do 4 f_equal. rewrite StripProofs.append_assoc. f_equal. simpl. do 5 f_equal.
  rewrite StripProofs.append_assoc. reflexivity.
Qed.

(** X25.  The partner path leads back: for a file whose stem is
    [sub-<id>], any text without a line end, [run-<run>] and a tail, with a
    three-digit id between 001 and 998, a run made of digits and a tail that
    has no letter [r] and does not start with a digit, the partner path is
    in the same directory, differs from [sub-<id>_run-<run>_ipu.csv], and
    its own partner path is [sub-<id>_run-<run>_ipu.csv] in that
    directory. *)
Theorem partner_of_the_partner_path_is_self
    (self_ipu_path : Path) (id mid run tail : string) (n : Z) :
  three_digits id -> Str.to_Z id = Some n -> (1 <= n <= 998)%Z ->
  Re.all_accept Re.Dot mid = true ->
  Re.all_accept Re.Digit run = true -> run <> EmptyString ->
  without_char "r" tail = true -> starts_with_digit tail = false ->
  stem self_ipu_path = "sub-" ++ id ++ mid ++ "run-" ++ run ++ tail ->
  exists partner : Path,
    infer_partner_ipu_path self_ipu_path DEFAULT_IPU_FILENAME_PATTERN = Ok partner
    /\ parent partner = parent self_ipu_path
    /\ name partner <> "sub-" ++ id ++ "_run-" ++ run ++ "_ipu.csv"
    /\ infer_partner_ipu_path partner DEFAULT_IPU_FILENAME_PATTERN
       = Ok (mkPath (parent self_ipu_path)
                    ("sub-" ++ id ++ "_run-" ++ run ++ "_ipu.csv")).
Proof.
  intros Hid Hn Hrange Hmid Hrun Hne Htail Hdig Hstem.
  set (other_id := Str.zfill 3 (Str.of_Z (partner_of n))).
  destruct (partner_keeps_width n Hrange) as [_ Hother].
  pose proof (partner_id_three_digits n Hrange) as Hother3.
  fold other_id in Hother, Hother3.
  exists (mkPath (parent self_ipu_path)
                 ("sub-" ++ other_id ++ "_run-" ++ run ++ "_ipu.csv")).
  split; [|split; [reflexivity|split]].
  - unfold infer_partner_ipu_path. rewrite Hstem.
    rewrite (infer_well_formed_stem id mid run tail n) by assumption.
    reflexivity.
  - cbn [name]. intros E.
    destruct Hid as (a1 & a2 & a3 & -> & _).
    destruct Hother3 as (b1 & b2 & b3 & Eo & _). rewrite Eo in E, Hother.
    simpl in E. injection E as -> -> ->.
    rewrite Hn in Hother. injection Hother as Hp.
    symmetry in Hp. exact (partner_of_differs n Hp).
  - unfold infer_partner_ipu_path.
    rewrite partner_name_csv, stem_csv by discriminate.
    rewrite (infer_well_formed_stem other_id "_" run "_ipu" (partner_of n))
      by (try assumption; reflexivity).
    cbn [bind parent]. rewrite partner_of_partner.
    rewrite (three_digits_write_back id n Hid Hn). reflexivity.
Qed.

Lemma partner_of_the_partner_path_is_self_witness :
  exists partner : Path,
    infer_partner_ipu_path (mkPath "ipu" "sub-001_task-conversation_run-3_ipu.csv")
      DEFAULT_IPU_FILENAME_PATTERN = Ok partner
    /\ parent partner = "ipu"
    /\ name partner <> "sub-001_run-3_ipu.csv"
    /\ infer_partner_ipu_path partner DEFAULT_IPU_FILENAME_PATTERN
       = Ok (mkPath "ipu" "sub-001_run-3_ipu.csv").
Proof.
  apply (partner_of_the_partner_path_is_self
           (mkPath "ipu" "sub-001_task-conversation_run-3_ipu.csv")
           "001" "_task-conversation_" "3" "_ipu" 1).
  - exists "0"%char, "0"%char, "1"%char. repeat split.
  - reflexivity.
  - lia.
  - reflexivity.
  - reflexivity.
  - discriminate.
  - reflexivity.
  - reflexivity.
  - reflexivity.
Defined.

End PartnerPathProofs.

(** * Events of the metadata table ([make_metadata_and_events_from_self_ipu]) *)

Module MetadataEventsProofs.

Import Metadata.
Import MakeMetadata.
Import Examples.
Import MetadataProofs.
Import SampleProofs.
Import MetadataEvents.

Lemma metadata_frame_timestamps (anchor : Anchor) (table : list MetadataRow) :
  column (metadata_frame anchor table) "timestamp"
  = map (fun r => CFloat (timestamp r)) table.
Proof.
  unfold column, metadata_frame. cbn [rows columns]. rewrite map_map.
  apply map_ext. intros r. destruct anchor; reflexivity.
Qed.

(** X29.  Metadata and events together: when [make_metadata] returns a
    table, the events written with it are, in table order, one for each row
    of the anchor speaker's table whose annotation is not ["#"] and whose
    [start] (under ["onset"]) or [end] (under ["offset"]) is a finite
    number, at the sample of that time; the partner's table and the margin
    have no part in them. *)
Theorem events_follow_the_anchor_rows
    (float_repr : fval -> string) (str_to_float : string -> fval)
    (cast_out_of_range : fval -> Z)
    (self_ipu other_ipu : list IpuRow) (sfreq : Q) (first_samp : Z)
    (margin_s : fval) (time_lock anchor : string) (event_id : Z)
    (rows : list MetadataRow) :
  make_metadata float_repr self_ipu other_ipu time_lock anchor margin_s = Ok rows ->
  let base := clean_rows (if anchor =? "self" then self_ipu else other_ipu) in
  let times :=
    finite_values (map (if time_lock =? "onset" then start else end_) base) in
  make_metadata_and_events_from_self_ipu float_repr str_to_float cast_out_of_range
    self_ipu other_ipu sfreq first_samp margin_s time_lock anchor event_id
  = Ok (rows,
        map (fun t => (sample_of cast_out_of_range sfreq first_samp t, 0%Z, event_id))
            times).
Proof.
  intros H base times.
  unfold make_metadata_and_events_from_self_ipu. rewrite H. cbn [bind].
  unfold _build_events_from_raw_and_metadata.
  rewrite events_ok by (destruct (anchor_of anchor); reflexivity).
  cbn [bind]. do 3 f_equal.
  rewrite metadata_frame_timestamps, map_map. cbn [to_numeric].
  apply make_metadata_ok in H. destruct H as (_ & _ & _ & ->).
  unfold _finalize_combined_metadata, _combine_annotations.
  rewrite !map_map. cbn [timestamp anchor_row].
  unfold times, base, anchor_of, time_lock_of.
  destruct (anchor =? "self"); destruct (time_lock =? "onset"); reflexivity.
Qed.

Lemma events_follow_the_anchor_rows_witness :
  make_metadata_and_events_from_self_ipu no_float_repr no_text_number cast_int64_min
    test_self_ipu test_other_ipu 100 10 (Num 1) "onset" "self" 7
  = Ok (test_metadata,
        map (fun t => (sample_of cast_int64_min 100 10 t, 0%Z, 7%Z))
            (finite_values (map start (clean_rows test_self_ipu)))).
Proof.
  apply (events_follow_the_anchor_rows no_float_repr no_text_number cast_int64_min
           test_self_ipu test_other_ipu 100 10 (Num 1) "onset" "self" 7
           test_metadata).
  reflexivity.
Defined.

End MetadataEventsProofs.

(** * The command [palign-to-ipu]: where the written intervals come from *)

Module WrittenTierProofs.

Import PalignCore.
Import Tiers.
Import Runs.
Import RunProofs.
Import RenderProofs.
Import PalignToIpuCli.
Import CommandProofs.

(** What [run] returns when it returns. *)
Lemma run_ok (cfg : PalignToIpuCliConfig) (minTimestamp maxTimestamp : Q)
    (entries : list Interval) (tier : list Interval) :
  run cfg minTimestamp maxTimestamp entries = Ok tier ->
  tier = render_from IPU_LABEL SILENCE_LABEL maxTimestamp minTimestamp
           (kept_segments minTimestamp maxTimestamp (min_ipu_s cfg)
              (merge_pass (min_silence_s cfg)
                 (raw_runs (in_ipu_with (include_laughter cfg) (include_noise cfg)
                                        (include_filled_pause cfg))
                           (sort_tokens entries)))).
Proof.
  unfold run, _read_tokensalign_intervals.
  unfold build_ipu_segments_from_tokens.
  destruct (Qltb (min_silence_s cfg) 0); [discriminate|]. cbn [bind].
  intros H.
  assert (Ht : minTimestamp <= maxTimestamp).
  { apply Qltb_ge. unfold apply_min_ipu_and_render_full_tier in H.
    destruct (Qltb maxTimestamp minTimestamp); [discriminate | reflexivity]. }
  assert (Hm : 0 <= min_ipu_s cfg).
  { apply Qltb_ge. unfold apply_min_ipu_and_render_full_tier in H.
    destruct (Qltb maxTimestamp minTimestamp); [discriminate|].
    destruct (Qltb (min_ipu_s cfg) 0); [discriminate | reflexivity]. }
  rewrite (apply_ok _ _ _ _ _ _ Ht Hm) in H. injection H as <-. reflexivity.
Qed.

(** X30.  The command, from the tier written back to the tier read: every
    interval of the written tier labelled [IPU] starts at the start of a
    speech token of the tier read, or at the lower time bound if that is
    later, and ends at the end of a speech token, or at the upper time
    bound if that is earlier. *)
Theorem written_ipu_intervals_come_from_speech_tokens
    (cfg : PalignToIpuCliConfig) (minTimestamp maxTimestamp : Q)
    (entries : list Interval) (tier : list Interval) :
  run cfg minTimestamp maxTimestamp entries = Ok tier ->
  forall itv : Interval,
    In itv tier -> text itv = IPU_LABEL ->
    exists first_token last_token : Interval,
      In first_token entries /\ In last_token entries
      /\ _is_token_in_ipu (text first_token) (include_laughter cfg)
           (include_noise cfg) (include_filled_pause cfg) = true
      /\ _is_token_in_ipu (text last_token) (include_laughter cfg)
           (include_noise cfg) (include_filled_pause cfg) = true
      /\ start itv = Qmax minTimestamp (start first_token)
      /\ end_ itv = Qmin maxTimestamp (end_ last_token).
Proof.
  intros H itv Hin Hlabel. apply run_ok in H. subst tier.
  set (in_ipu := in_ipu_with (include_laughter cfg) (include_noise cfg)
                             (include_filled_pause cfg)) in *.
  destruct (render_from_inside IPU_LABEL SILENCE_LABEL minTimestamp maxTimestamp _
              minTimestamp (Qle_refl _) (kept_segments_inside _ _ _ _) itv Hin)
    as (_ & _ & _ & [[_ Hk] | Hs]);
    [|rewrite Hlabel in Hs; discriminate Hs].
  apply kept_segments_In in Hk.
  destruct Hk as [_ (s & e & Hseg & _ & _ & Hk)]. injection Hk as Hst Hen.
  set (Ps := fun x => exists t, In t entries /\ in_ipu (text t) = true /\ x = start t).
  set (Pe := fun x => exists t, In t entries /\ in_ipu (text t) = true /\ x = end_ t).
  assert (Hends : Ps s /\ Pe e).
  { apply (merge_pass_ends (min_silence_s cfg) Ps Pe
             (raw_runs in_ipu (sort_tokens entries))) with (seg := (s, e));
      [|exact Hseg].
    rewrite raw_runs_runs_from.
    apply (runs_from_ends in_ipu Ps Pe (sort_tokens entries) None).
    - intros seg [=].
    - intros t Ht E.
      assert (Ht' : In t entries).
      { apply (Permutation_in t (Permutation_sym (sort_from_perm entries []))).
        exact Ht. }
      split; exists t; auto. }
  destruct Hends as [(t1 & I1 & E1 & S1) (t2 & I2 & E2 & S2)].
  exists t1, t2. rewrite Hst, Hen, S1, S2.
  split; [exact I1|]. split; [exact I2|]. split; [exact E1|]. split; [exact E2|].
  split; reflexivity.
Qed.

Lemma written_ipu_intervals_come_from_speech_tokens_witness :
  exists first_token last_token : Interval,
    In first_token shuffled_entries /\ In last_token shuffled_entries
    /\ _is_token_in_ipu (text first_token) false false true = true
    /\ _is_token_in_ipu (text last_token) false false true = true
    /\ 0 = Qmax 0 (start first_token)
    /\ 1 = Qmin 2 (end_ last_token).
Proof.
  apply (written_ipu_intervals_come_from_speech_tokens default_config 0 2
           shuffled_entries [mkInterval 0 1 "IPU"; mkInterval 1 2 "#"] eq_refl
           (mkInterval 0 1 "IPU")).
  - left. reflexivity.
  - reflexivity.
Defined.

End WrittenTierProofs.
